(** * Stibium: symbol table, syntax tree and analyzer

    A shallow embedding of the semantic core of Stibium (the Antimony
    language tool): [stibium/types.py], [stibium/ant_types.py],
    [stibium/symbols.py], [stibium/tree_builder.py] and
    [stibium/analysis.py].

    Python objects are modelled as follows.
    - Integers are [Z]; strings are [string], one character per code point
      below 256.
    - A class instance whose fields are never reassigned is a record; a
      tree node additionally carries the identity ([id]) of the Python
      object, because the leaf chain ([prev]/[next]) links objects.
    - The mutable [prev]/[next] fields of the leaves live in a separate
      heap indexed by object identity.
    - A Python exception is the [Raise] outcome of the [Result] monad; a
      function that raises leaves no state behind, since every caller in
      the repository lets the exception escape. *)

From stdpp Require Import base tactics option list gmap strings pretty.
From Stdlib Require Import ZArith Lia.

Set Warnings "-register-all,-clear-no-such-hyp".

Local Open Scope string_scope.
Local Open Scope list_scope.
Local Open Scope Z_scope.

(** ** Exceptions *)

Inductive PyError : Type :=
| AssertionError
| AttributeError
| IndexError
| KeyError
| TypeError.

Inductive Result (A : Type) : Type :=
| Return (a : A)
| Raise (e : PyError).

Arguments Return {A} a.
Arguments Raise {A} e.

Definition bind {A B : Type} (m : Result A) (k : A -> Result B) : Result B :=
  match m with
  | Return a => k a
  | Raise e => Raise e
  end.

Notation "x <-- m ;; k" := (bind m (fun x => k))
  (at level 100, m at next level, right associativity).

(** ** types.py *)

Module Types.

(** [class SrcPosition]: a position in text, 1-based. *)
Record SrcPosition : Type := mkPos { line : Z; column : Z }.

(** [SrcPosition.__ge__] *)
Definition pos_ge (self other : SrcPosition) : bool :=
  if line other <? line self then true
  else if line self =? line other then column other <=? column self
  else false.

(** [SrcPosition.__gt__] *)
Definition pos_gt (self other : SrcPosition) : bool :=
  if line other <? line self then true
  else if line self =? line other then column other <? column self
  else false.

(** [SrcPosition.__le__] *)
Definition pos_le (self other : SrcPosition) : bool :=
  if line self <? line other then true
  else if line self =? line other then column self <=? column other
  else false.

(** [SrcPosition.__lt__] *)
Definition pos_lt (self other : SrcPosition) : bool :=
  if line self <? line other then true
  else if line self =? line other then column self <? column other
  else false.

(** [class SrcRange]: [end_] is exclusive. *)
Record SrcRange : Type := mkRange { start : SrcPosition; end_ : SrcPosition }.

(** [class IssueSeverity] *)
Inductive IssueSeverity : Type := Error | Warning.

(** [class SymbolType(Enum)].  [Variable] and [Parameter] are reserved words
    of Rocq, hence the trailing underscore on those two members. *)
Module SymbolType.

Inductive t : Type :=
| Unknown
| Variable_
| Submodel
| Model
| Function
| Unit
| Parameter_
| Species
| Compartment
| Reaction
| Event
| Constraint.

#[global] Instance eq_dec : EqDecision t.
Proof. solve_decision. Defined.

(** The members, in declaration order. *)
Definition members : list t :=
  [Unknown; Variable_; Submodel; Model; Function; Unit; Parameter_;
   Species; Compartment; Reaction; Event; Constraint].

(** [SymbolType.__str__]: the value of the member. *)
Definition str (self : t) : string :=
  match self with
  | Unknown => "unknown"
  | Variable_ => "variable"
  | Submodel => "submodel"
  | Model => "model"
  | Function => "function"
  | Unit => "unit"
  | Parameter_ => "parameter"
  | Species => "species"
  | Compartment => "compartment"
  | Reaction => "reaction"
  | Event => "event"
  | Constraint => "constraint"
  end.

(** [SymbolType.derives_from] *)
Definition derives_from (self other : t) : bool :=
  if bool_decide (self = other) then true
  else if bool_decide (other = Unknown) then true
  else
    let derives_from_param :=
      bool_decide (self ∈ [Species; Compartment; Reaction; Constraint]) in
    if bool_decide (other = Variable_) then
      derives_from_param || bool_decide (self = Parameter_)
    else if bool_decide (other = Parameter_) then derives_from_param
    else false.

End SymbolType.

(** [class Issue] and its subclasses.  Each constructor keeps the arguments
    of the Python constructor; [issue_range], [issue_severity] and
    [issue_message] are the attributes that [__init__] computes. *)
Inductive Issue : Type :=
| UnexpectedTokenIssue (leaf_range : SrcRange) (leaf_name : string)
| UnexpectedEOFIssue (last_leaf_range : SrcRange)
| UnexpectedNewlineIssue (leaf_pos : SrcPosition)
| IncompatibleType (old_type : SymbolType.t) (old_range : SrcRange)
    (new_type : SymbolType.t) (new_range : SrcRange)
| ObscuredDeclaration (old_range new_range : SrcRange) (name : string)
| ObscuredValue (old_range new_range : SrcRange) (name : string).

Definition issue_range (i : Issue) : SrcRange :=
  match i with
  | UnexpectedTokenIssue leaf_range _ => leaf_range
  | UnexpectedEOFIssue last_leaf_range => last_leaf_range
  | UnexpectedNewlineIssue leaf_pos =>
      mkRange leaf_pos (mkPos (line leaf_pos + 1) 1)
  | IncompatibleType _ _ _ new_range => new_range
  | ObscuredDeclaration old_range _ _ => old_range
  | ObscuredValue old_range _ _ => old_range
  end.

Definition issue_severity (i : Issue) : IssueSeverity :=
  match i with
  | UnexpectedTokenIssue _ _ => Error
  | UnexpectedEOFIssue _ => Error
  | UnexpectedNewlineIssue _ => Error
  | IncompatibleType _ _ _ _ => Error
  | ObscuredDeclaration _ _ _ => Warning
  | ObscuredValue _ _ _ => Warning
  end.

Definition issue_message (i : Issue) : string :=
  match i with
  | UnexpectedTokenIssue _ leaf_name =>
      "Unexpected token '" +:+ leaf_name +:+ "'"
  | UnexpectedEOFIssue _ => "Expected a token"
  | UnexpectedNewlineIssue _ => "Expected a token"
  | IncompatibleType old_type old_range new_type _ =>
      "Type '" +:+ SymbolType.str new_type
      +:+ "' is incompatible with type '" +:+ SymbolType.str old_type
      +:+ "' indicated on line " +:+ pretty (line (start old_range))
      +:+ ":" +:+ pretty (column (start old_range))
  | ObscuredDeclaration _ new_range name =>
      "Declaration '" +:+ name
      +:+ "' is obscured by a declaration of the same name on line "
      +:+ pretty (line (start new_range))
      +:+ ":" +:+ pretty (column (start new_range))
  | ObscuredValue _ new_range name =>
      "Value assignment to '" +:+ name
      +:+ "' is obscured by a later assignment on line "
      +:+ pretty (line (start new_range))
      +:+ ":" +:+ pretty (column (start new_range))
  end.

Definition is_IncompatibleType (i : Issue) : bool :=
  match i with IncompatibleType _ _ _ _ => true | _ => false end.

Definition is_ObscuredValue (i : Issue) : bool :=
  match i with ObscuredValue _ _ _ => true | _ => false end.

End Types.
Export Types.

(** ** ant_types.py *)

Module AntTypes.

(** [class Variability(Enum)] of types.py; only [DeclModifiers.get_variab]
    produces it. *)
Inductive Variability : Type := UNKNOWN | CONSTANT | VARIABLE.

(** The classes derived from [LeafNode]. *)
Inductive LeafClass : Type :=
| Name
| Number
| Operator
| Keyword
| StringLiteral
| Newline
| ErrorToken
| VarModifier
| TypeModifier.

(** The classes derived from [TrunkNode]. *)
Inductive TrunkClass : Type :=
| ErrorNode
| Sum
| Product
| Power
| Atom
| VarName
| InComp
| NameMaybeIn
| Species
| ReactionName
| SpeciesList
| Reaction
| Assignment
| DeclModifiers
| DeclAssignment
| DeclItem
| Declaration
| Annotation
| SimpleStmt
| Model
| Function
| FileNode.

#[global] Instance LeafClass_eq_dec : EqDecision LeafClass.
Proof. solve_decision. Defined.

#[global] Instance TrunkClass_eq_dec : EqDecision TrunkClass.
Proof. solve_decision. Defined.

(** [class LeafNode]: [leaf_id] is the identity of the object; the mutable
    fields [prev] and [next] are kept in the [Heap] below. *)
Record LeafNode : Type := mkLeaf {
  leaf_id : nat;
  leaf_cls : LeafClass;
  leaf_range : SrcRange;
  text : string
}.

(** [class TreeNode]: a [LeafNode] or a [TrunkNode]; a child slot holds a
    node or [None]. *)
Inductive TreeNode : Type :=
| Leaf (l : LeafNode)
| Trunk (id : nat) (cls : TrunkClass) (range : SrcRange)
    (children : list (option TreeNode)).

(** The attribute [range], which both kinds of node have. *)
Definition node_range (n : TreeNode) : SrcRange :=
  match n with
  | Leaf l => leaf_range l
  | Trunk _ _ range _ => range
  end.

(** The attribute [children], which only a [TrunkNode] has. *)
Definition node_children (n : TreeNode) : Result (list (option TreeNode)) :=
  match n with
  | Leaf _ => Raise AttributeError
  | Trunk _ _ _ children => Return children
  end.

(** The fields [prev] and [next] of the leaves, by the identity of the leaf
    that owns the field.  A leaf is constructed with both fields [None], so
    an absent key reads as [None]. *)
Record Heap : Type := mkHeap {
  prev : gmap nat LeafNode;
  next : gmap nat LeafNode
}.

Definition empty_heap : Heap := mkHeap ∅ ∅.

(** [leaf.prev = v] *)
Definition set_prev (h : Heap) (leaf : LeafNode) (v : option LeafNode) : Heap :=
  mkHeap (match v with
          | Some p => <[leaf_id leaf := p]> (prev h)
          | None => delete (leaf_id leaf) (prev h)
          end) (next h).

(** [leaf.next = v] *)
Definition set_next (h : Heap) (leaf : LeafNode) (v : option LeafNode) : Heap :=
  mkHeap (prev h)
         (match v with
          | Some p => <[leaf_id leaf := p]> (next h)
          | None => delete (leaf_id leaf) (next h)
          end).

(** [_scan_leaves]: the leaves below [node], from left to right. *)
Fixpoint scan_leaves (node : TreeNode) : list LeafNode :=
  match node with
  | Trunk _ _ _ children =>
      (fix over (cs : list (option TreeNode)) : list LeafNode :=
         match cs with
         | [] => []
         | None :: cs' => over cs'
         | Some child :: cs' => scan_leaves child ++ over cs'
         end) children
  | Leaf l => [l]
  end.

(** The body of [TrunkNode.descendants], with the branch for a child
    without [children] as the [Leaf] case. *)
Fixpoint descendants_from (node : TreeNode) : list TreeNode :=
  match node with
  | Leaf _ => [node]
  | Trunk _ _ _ children =>
      node ::
      (fix over (cs : list (option TreeNode)) : list TreeNode :=
         match cs with
         | [] => []
         | None :: cs' => over cs'
         | Some child :: cs' => descendants_from child ++ over cs'
         end) children
  end.

(** [TrunkNode.descendants]; a leaf has no such method. *)
Definition descendants (self : TreeNode) : Result (list TreeNode) :=
  match self with
  | Leaf _ => Raise AttributeError
  | Trunk _ _ _ _ => Return (descendants_from self)
  end.

(** [TrunkNode.last_leaf].  The loop runs over [reversed(self.children)] and
    returns at the first child that gives a leaf; [over] visits the slots to
    the right of a child before the child itself, which is the same order. *)
Fixpoint last_leaf (self : TreeNode) : option LeafNode :=
  match self with
  | Leaf l => Some l
  | Trunk _ _ _ children =>
      (fix over (cs : list (option TreeNode)) : option LeafNode :=
         match cs with
         | [] => None
         | child :: cs' =>
             match over cs' with
             | Some ret => Some ret
             | None =>
                 match child with
                 | None => None
                 | Some c => last_leaf c
                 end
             end
         end) children
  end.

(** [self.children[i]] *)
Definition item (children : list (option TreeNode)) (i : nat)
  : Result (option TreeNode) :=
  match children !! i with
  | Some c => Return c
  | None => Raise IndexError
  end.

(** [children[::2]] *)
Fixpoint slice_step2 {A : Type} (l : list A) : list A :=
  match l with
  | [] => []
  | [x] => [x]
  | x :: _ :: l' => x :: slice_step2 l'
  end.

(** [children[1::2]] *)
Definition slice_from1_step2 {A : Type} (l : list A) : list A :=
  slice_step2 (tail l).

(** A method call [obj.m()] on a value that may be [None]. *)
Definition call {A : Type} (m : TreeNode -> Result A) (obj : option TreeNode)
  : Result A :=
  match obj with
  | None => Raise AttributeError
  | Some n => m n
  end.

(** The attribute [text] of a value that may be [None] or a trunk node. *)
Definition text_of (obj : option TreeNode) : Result string :=
  match obj with
  | Some (Leaf l) => Return (text l)
  | _ => Raise AttributeError
  end.

(** [get_var_name], of [NameMaybeIn] and [Annotation]. *)
Definition get_var_name (self : TreeNode) : Result (option TreeNode) :=
  match self with
  | Trunk _ (NameMaybeIn | Annotation) _ children => item children 0
  | _ => Raise AttributeError
  end.

(** [get_maybein], of [ReactionName], [Assignment] and [DeclItem]. *)
Definition get_maybein (self : TreeNode) : Result (option TreeNode) :=
  match self with
  | Trunk _ (ReactionName | Assignment | DeclItem) _ children => item children 0
  | _ => Raise AttributeError
  end.

(** [get_name], dispatched on the class of [self]:
    - [VarName]: [self.children[1]];
    - [Species]: [self.children[2]];
    - [ReactionName], [Assignment], [DeclItem]:
      [self.get_maybein().get_var_name().get_name()];
    - [Reaction]: [None] if [self.children[0]] is [None], else
      [self.children[0].get_name()];
    - [Model], [Function]: [assert False, 'Not implemented'].
    The calls of [get_maybein] and [get_var_name] are written out as
    matches so that the recursion is structural. *)
Fixpoint get_name (self : TreeNode) : Result (option TreeNode) :=
  match self with
  | Leaf _ => Raise AttributeError
  | Trunk _ cls _ children =>
      match cls with
      | VarName =>
          match children with
          | _ :: c :: _ => Return c
          | _ => Raise IndexError
          end
      | Species =>
          match children with
          | _ :: _ :: c :: _ => Return c
          | _ => Raise IndexError
          end
      | ReactionName | Assignment | DeclItem =>
          match children with
          | [] => Raise IndexError
          | None :: _ => Raise AttributeError
          | Some (Leaf _) :: _ => Raise AttributeError
          | Some (Trunk _ (NameMaybeIn | Annotation) _ children0) :: _ =>
              match children0 with
              | [] => Raise IndexError
              | None :: _ => Raise AttributeError
              | Some v :: _ => get_name v
              end
          | Some (Trunk _ _ _ _) :: _ => Raise AttributeError
          end
      | Reaction =>
          match children with
          | [] => Raise IndexError
          | None :: _ => Return None
          | Some c :: _ => get_name c
          end
      | Model | Function => Raise AssertionError
      | _ => Raise AttributeError
      end
  end.

(** [get_value], dispatched on the class of [self]:
    - [DeclAssignment]: [self.children[1]];
    - [Assignment]: [self.children[2]];
    - [DeclItem]: [None] if [self.children[1]] is [None], else
      [self.children[1].get_value()].
    [Number.get_value] returns a float and no node; a tree in which it is
    reached through [DeclItem.get_value] contradicts the class annotations,
    and the model reports that as [TypeError]. *)
Fixpoint get_value (self : TreeNode) : Result (option TreeNode) :=
  match self with
  | Leaf l =>
      match leaf_cls l with
      | Number => Raise TypeError
      | _ => Raise AttributeError
      end
  | Trunk _ cls _ children =>
      match cls with
      | DeclAssignment =>
          match children with
          | _ :: c :: _ => Return c
          | _ => Raise IndexError
          end
      | Assignment =>
          match children with
          | _ :: _ :: c :: _ => Return c
          | _ => Raise IndexError
          end
      | DeclItem =>
          match children with
          | _ :: None :: _ => Return None
          | _ :: Some node :: _ => get_value node
          | _ => Raise IndexError
          end
      | _ => Raise AttributeError
      end
  end.

(** [InComp.get_comp] *)
Definition get_comp (self : TreeNode) : Result (option TreeNode) :=
  match self with
  | Trunk _ InComp _ children => item children 1
  | _ => Raise AttributeError
  end.

(** [SimpleStmt.get_stmt] *)
Definition get_stmt (self : TreeNode) : Result (option TreeNode) :=
  match self with
  | Trunk _ SimpleStmt _ children => item children 0
  | _ => Raise AttributeError
  end.

(** [SpeciesList.get_all_species] *)
Definition get_all_species (self : TreeNode) : Result (list (option TreeNode)) :=
  match self with
  | Trunk _ SpeciesList _ children => Return (slice_step2 children)
  | _ => Raise AttributeError
  end.

(** [Reaction.get_reactant_list] *)
Definition get_reactant_list (self : TreeNode) : Result (option TreeNode) :=
  match self with
  | Trunk _ Reaction _ children => item children 1
  | _ => Raise AttributeError
  end.

(** [Reaction.get_product_list] *)
Definition get_product_list (self : TreeNode) : Result (option TreeNode) :=
  match self with
  | Trunk _ Reaction _ children => item children 3
  | _ => Raise AttributeError
  end.

(** [Reaction.get_reactants] *)
Definition get_reactants (self : TreeNode) : Result (list (option TreeNode)) :=
  slist <-- get_reactant_list self ;;
  match slist with
  | Some s => get_all_species s
  | None => Return []
  end.

(** [Reaction.get_products] *)
Definition get_products (self : TreeNode) : Result (list (option TreeNode)) :=
  slist <-- get_product_list self ;;
  match slist with
  | Some s => get_all_species s
  | None => Return []
  end.

(** [Reaction.get_rate_law] *)
Definition get_rate_law (self : TreeNode) : Result (option TreeNode) :=
  match self with
  | Trunk _ Reaction _ children => item children 5
  | _ => Raise AttributeError
  end.

(** [Declaration.get_modifiers] *)
Definition get_modifiers (self : TreeNode) : Result (option TreeNode) :=
  match self with
  | Trunk _ Declaration _ children => item children 0
  | _ => Raise AttributeError
  end.

(** [Declaration.get_items] *)
Definition get_items (self : TreeNode) : Result (list (option TreeNode)) :=
  match self with
  | Trunk _ Declaration _ children => Return (slice_from1_step2 children)
  | _ => Raise AttributeError
  end.

(** [DeclModifiers.get_variab] *)
Definition get_variab (self : TreeNode) : Result Variability :=
  match self with
  | Trunk _ DeclModifiers _ children =>
      var_mod <-- item children 0 ;;
      match var_mod with
      | None => Return UNKNOWN
      | Some _ =>
          t <-- text_of var_mod ;;
          Return (if bool_decide (t = "const") then CONSTANT else VARIABLE)
      end
  | _ => Raise AttributeError
  end.

(** [DeclModifiers.get_type] *)
Definition get_type (self : TreeNode) : Result SymbolType.t :=
  match self with
  | Trunk _ DeclModifiers _ children =>
      type_mod <-- item children 1 ;;
      match type_mod with
      | None => Return SymbolType.Unknown
      | Some _ =>
          t <-- text_of type_mod ;;
          if bool_decide (t = "species") then Return SymbolType.Species
          else if bool_decide (t = "compartment") then Return SymbolType.Compartment
          else if bool_decide (t = "formula") then Return SymbolType.Parameter_
          else Raise KeyError
      end
  | _ => Raise AttributeError
  end.

End AntTypes.
Export AntTypes.

(** ** symbols.py *)

Module Symbols.

(** [BaseScope], [ModelScope], [FunctionScope]: [__eq__] and [__hash__]
    compare the class and the name. *)
Inductive AbstractScope : Type :=
| BaseScope
| ModelScope (name : string)
| FunctionScope (name : string).

#[global] Instance AbstractScope_eq_dec : EqDecision AbstractScope.
Proof. solve_decision. Defined.

#[global] Instance AbstractScope_countable : Countable AbstractScope.
Proof.
  refine (inj_countable'
    (fun s => match s with
              | BaseScope => inl ()
              | ModelScope n => inr (inl n)
              | FunctionScope n => inr (inr n)
              end)
    (fun x => match x with
              | inl _ => BaseScope
              | inr (inl n) => ModelScope n
              | inr (inr n) => FunctionScope n
              end) _).
  by intros [].
Defined.

(** [class QName]: [name] is annotated [Name], but the analyzer builds a
    [QName] from whatever [get_name] returned, which may be [None] or a
    trunk node. *)
Module QName.
Record t : Type := mk { scope : AbstractScope; name : option TreeNode }.
End QName.

(** [class Symbol] ([VarSymbol] adds nothing). *)
Module Symbol.
Record t : Type := mk {
  name : string;
  type : SymbolType.t;
  type_name : LeafNode;
  decl_name : option LeafNode;
  decl_node : option TreeNode;
  value_node : option TreeNode;
  annotations : list TreeNode
}.

(** [Symbol.__init__] with the defaults of the optional arguments. *)
Definition init (name : string) (typ : SymbolType.t) (type_name : LeafNode) : t :=
  mk name typ type_name None None None [].

Definition set_type (s : t) (typ : SymbolType.t) (type_name : LeafNode) : t :=
  mk (name s) typ type_name (decl_name s) (decl_node s) (value_node s)
     (annotations s).

Definition set_decl (s : t) (decl_node : option TreeNode)
    (decl_name : option LeafNode) : t :=
  mk (name s) (type s) (type_name s) decl_name decl_node (value_node s)
     (annotations s).

Definition set_value_node (s : t) (value_node : option TreeNode) : t :=
  mk (name s) (type s) (type_name s) (decl_name s) (decl_node s) value_node
     (annotations s).

Definition append_annotation (s : t) (node : TreeNode) : t :=
  mk (name s) (type s) (type_name s) (decl_name s) (decl_node s)
     (value_node s) (annotations s ++ [node]).
End Symbol.

(** [class SymbolTable].  [_table] is a [defaultdict(dict)]: reading the
    entry of a scope creates an empty one when there is none. *)
Record SymbolTable : Type := mkTable {
  _table : gmap AbstractScope (gmap string Symbol.t);
  _issues : list Issue;
  _qnames : list QName.t
}.

(** [SymbolTable.__init__] *)
Definition SymbolTable_init : SymbolTable := mkTable ∅ [] [].

(** [SymbolTable._leaf_table]: the dictionary of [scope], and the table
    after the access. *)
Definition _leaf_table (self : SymbolTable) (scope : AbstractScope)
  : gmap string Symbol.t * SymbolTable :=
  match _table self !! scope with
  | Some leaf_table => (leaf_table, self)
  | None => (∅, mkTable (<[scope := ∅]> (_table self)) (_issues self) (_qnames self))
  end.

(** [leaf_table[name] = sym], where [leaf_table] is the dictionary of
    [scope]; also the write-back of a mutation of [sym]. *)
Definition store_symbol (self : SymbolTable) (scope : AbstractScope)
    (name : string) (sym : Symbol.t) : SymbolTable :=
  mkTable (<[scope := <[name := sym]> (default ∅ (_table self !! scope))]> (_table self))
          (_issues self) (_qnames self).

(** [self._issues.append(issue)] *)
Definition append_issue (self : SymbolTable) (issue : Issue) : SymbolTable :=
  mkTable (_table self) (_issues self ++ [issue]) (_qnames self).

(** [self._qnames.append(qname)] *)
Definition append_qname (self : SymbolTable) (qname : QName.t) : SymbolTable :=
  mkTable (_table self) (_issues self) (_qnames self ++ [qname]).

(** [SymbolTable.get_all_names] *)
Definition get_all_names (self : SymbolTable) : gset string :=
  ⋃ ((fun kv => dom kv.2) <$> map_to_list (_table self)).

(** [SymbolTable.get_all_qnames] *)
Definition get_all_qnames (self : SymbolTable) : list QName.t := _qnames self.

(** The loop of [get_unique_name]: [i] counts up from its start value until
    [prefix] followed by [i] in decimal is not in [used]; [fuel] bounds the
    number of iterations. *)
Fixpoint probe (fuel : nat) (prefix : string) (used : gset string) (i : nat)
  : option string :=
  match fuel with
  | O => None
  | S fuel' =>
      let name := prefix +:+ pretty i in
      if bool_decide (name ∉ used) then Some name
      else probe fuel' prefix used (i + 1)%nat
  end.

(** [SymbolTable.get_unique_name]; with a scope, [_leaf_table] may add the
    empty dictionary of that scope to the table. *)
Definition get_unique_name (fuel : nat) (self : SymbolTable) (prefix : string)
    (scope : option AbstractScope) : option (string * SymbolTable) :=
  match scope with
  | None =>
      let all_names := get_all_names self in
      name ← probe fuel prefix all_names 0%nat;
      Some (name, self)
  | Some scope =>
      let '(leaf_table, self) := _leaf_table self scope in
      name ← probe fuel prefix (dom leaf_table) 0%nat;
      Some (name, self)
  end.

(** [SymbolTable.get] *)
Definition get (self : SymbolTable) (qname : QName.t)
  : Result (list Symbol.t * SymbolTable) :=
  let '(leaf_table, self) := _leaf_table self (QName.scope qname) in
  name <-- text_of (QName.name qname) ;;
  match leaf_table !! name with
  | Some sym => Return ([sym], self)
  | None => Return ([], self)
  end.

(** Lines 243 to 260 of [SymbolTable.insert]: the declaration and the value
    of [sym] are overridden, and [sym] is written back to the dictionary of
    [scope]. *)
Definition insert_decl_value (self : SymbolTable) (scope : AbstractScope)
    (qname_name : LeafNode) (sym : Symbol.t)
    (decl_node value_node : option TreeNode) : SymbolTable :=
  let sym :=
    match decl_node with
    | Some _ =>
        let decl_name := qname_name in
        Symbol.set_decl sym decl_node (Some decl_name)
    | None => sym
    end in
  let '(self, sym) :=
    match value_node with
    | Some v =>
        let value_name := qname_name in
        let self :=
          match Symbol.value_node sym with
          | Some old =>
              let old_range := node_range old in
              let new_range := node_range v in
              append_issue self (ObscuredValue old_range new_range (text value_name))
          | None => self
          end in
        (self, Symbol.set_value_node sym value_node)
    | None => (self, sym)
    end in
  store_symbol self scope (text qname_name) sym.

(** [SymbolTable.insert] *)
Definition insert (self : SymbolTable) (qname : QName.t) (typ : SymbolType.t)
    (decl_node value_node : option TreeNode) : Result SymbolTable :=
  match QName.name qname with
  | None => Raise AssertionError
  | Some qname_name =>
      let self := append_qname self qname in
      let '(leaf_table, self) := _leaf_table self (QName.scope qname) in
      match qname_name with
      | Trunk _ _ _ _ => Raise AttributeError
      | Leaf qname_name =>
          let name := text qname_name in
          match leaf_table !! name with
          | None =>
              let sym := Symbol.init name typ qname_name in
              Return (insert_decl_value self (QName.scope qname) qname_name sym
                        decl_node value_node)
          | Some sym =>
              let old_type := Symbol.type sym in
              if SymbolType.derives_from typ old_type then
                let sym := Symbol.set_type sym typ qname_name in
                Return (insert_decl_value self (QName.scope qname) qname_name sym
                          decl_node value_node)
              else if SymbolType.derives_from old_type typ then
                Return (insert_decl_value self (QName.scope qname) qname_name sym
                          decl_node value_node)
              else
                let old_range := leaf_range (Symbol.type_name sym) in
                let new_range := leaf_range qname_name in
                Return (append_issue self
                          (IncompatibleType old_type old_range typ new_range))
          end
      end
  end.

(** [SymbolTable.insert_annotation] *)
Definition insert_annotation (self : SymbolTable) (qname : QName.t)
    (node : TreeNode) : Result SymbolTable :=
  let '(leaf_table, self) := _leaf_table self (QName.scope qname) in
  name <-- text_of (QName.name qname) ;;
  match QName.name qname with
  | Some (Leaf qname_name) =>
      let sym :=
        match leaf_table !! name with
        | None => Symbol.init name SymbolType.Unknown qname_name
        | Some sym => sym
        end in
      Return (store_symbol self (QName.scope qname) name
                (Symbol.append_annotation sym node))
  | _ => Raise AttributeError
  end.

End Symbols.
Export Symbols.

(** ** tree_builder.py *)

Module TreeBuilder.

(** A token of the parser: a string with a type and a source span. *)
Module Token.
Record t : Type := mk {
  type : string;
  value : string;
  line : Z;
  column : Z;
  end_line : Z;
  end_column : Z
}.
End Token.

(** A tree of the parser: a token, or a rule name with children, any of
    which may be [None]. *)
Inductive Lark : Type :=
| LToken (tk : Token.t)
| LTree (data : string) (children : list (option Lark)).

(** The value of a [TREE_MAP] entry. *)
Inductive NodeClass : Type :=
| LeafCls (cls : LeafClass)
| TrunkCls (cls : TrunkClass).

#[global] Instance NodeClass_eq_dec : EqDecision NodeClass.
Proof. solve_decision. Defined.

Definition OPERATORS : list string :=
  ["EQUAL"; "COLON"; "ARROW"; "SEMICOLON"; "LPAR"; "RPAR"; "STAR"; "PLUS";
   "MINUS"; "DOLLAR"; "CIRCUMFLEX"; "COMMA"; "SLASH"].

Definition KEYWORDS : list string := ["ANNOT_KEYWORD"; "IN"].

(** [TREE_MAP]: the dictionary literal, then one entry per operator and per
    keyword. *)
Definition TREE_MAP : gmap string NodeClass :=
  let literal : gmap string NodeClass :=
    list_to_map
      [("NAME", LeafCls Name);
       ("NUMBER", LeafCls Number);
       ("NEWLINE", LeafCls Newline);
       ("ERROR_TOKEN", LeafCls ErrorToken);
       ("VAR_MODIFIER", LeafCls VarModifier);
       ("TYPE_MODIFIER", LeafCls TypeModifier);
       ("ESCAPED_STRING", LeafCls StringLiteral);
       ("ANNOT_KEYWORD", LeafCls Keyword);
       ("SEMICOLON", LeafCls Operator);
       ("error_node", TrunkCls ErrorNode);
       ("root", TrunkCls FileNode);
       ("simple_stmt", TrunkCls SimpleStmt);
       ("var_name", TrunkCls VarName);
       ("in_comp", TrunkCls InComp);
       ("namemaybein", TrunkCls NameMaybeIn);
       ("reaction_name", TrunkCls ReactionName);
       ("reaction", TrunkCls Reaction);
       ("species", TrunkCls Species);
       ("species_list", TrunkCls SpeciesList);
       ("assignment", TrunkCls Assignment);
       ("declaration", TrunkCls Declaration);
       ("decl_item", TrunkCls DeclItem);
       ("decl_assignment", TrunkCls DeclAssignment);
       ("decl_modifiers", TrunkCls DeclModifiers);
       ("annotation", TrunkCls Annotation);
       ("sum", TrunkCls Sum);
       ("product", TrunkCls Product);
       ("power", TrunkCls Power);
       ("atom", TrunkCls Atom)] in
  let with_operators :=
    fold_left (fun m name => <[name := LeafCls Operator]> m) OPERATORS literal in
  fold_left (fun m name => <[name := LeafCls Keyword]> m) KEYWORDS with_operators.

(** [isinstance(child, VarModifier)] *)
Definition is_VarModifier (child : option TreeNode) : bool :=
  match child with
  | Some (Leaf l) => bool_decide (leaf_cls l = VarModifier)
  | _ => false
  end.

(** The special handling of [DeclModifiers] in [transform_tree]: always two
    children, [(var_mod, type_mod)]. *)
Definition decl_modifier_children (children : list (option TreeNode))
  : list (option TreeNode) :=
  let slots :=
    fold_left
      (fun (acc : option TreeNode * option TreeNode) child =>
         if is_VarModifier child then (child, acc.2) else (acc.1, child))
      children (None, None) in
  [slots.1; slots.2].

Section Transform.

(** [get_token_range] and [get_tree_range] of [stibium.utils] compute the
    range of a token and of a tree from the spans the parser recorded. *)
Variable get_token_range : Token.t -> SrcRange.
Variable get_tree_range : Lark -> SrcRange.

(** [transform_tree] on a tree that is not [None].  The state [n] counts
    the objects constructed so far and gives each new node its identity.
    The parser names terminals in upper case and rules in lower case, so a
    token never selects a trunk class nor a tree a leaf class; the model
    reports such a mismatch as [TypeError]. *)
Fixpoint transform_node (tree : Lark) (n : nat) : Result (TreeNode * nat) :=
  match tree with
  | LToken tk =>
      match TREE_MAP !! Token.type tk with
      | None => Raise KeyError
      | Some (TrunkCls _) => Raise TypeError
      | Some (LeafCls cls) =>
          Return (Leaf (mkLeaf n cls (get_token_range tk) (Token.value tk)), S n)
      end
  | LTree data children =>
      match TREE_MAP !! data with
      | None => Raise KeyError
      | Some (LeafCls _) => Raise TypeError
      | Some (TrunkCls cls) =>
          r <-- (fix over (cs : list (option Lark)) (n : nat)
                   : Result (list (option TreeNode) * nat) :=
                   match cs with
                   | [] => Return ([], n)
                   | None :: cs' =>
                       r <-- over cs' n ;;
                       Return (None :: r.1, r.2)
                   | Some child :: cs' =>
                       c <-- transform_node child n ;;
                       r <-- over cs' c.2 ;;
                       Return (Some c.1 :: r.1, r.2)
                   end) children n ;;
          let children :=
            if bool_decide (cls = DeclModifiers)
            then decl_modifier_children r.1 else r.1 in
          Return (Trunk r.2 cls (get_tree_range tree) children, S r.2)
      end
  end.

(** [transform_tree] *)
Definition transform_tree (tree : option Lark) (n : nat)
  : Result (option TreeNode * nat) :=
  match tree with
  | None => Return (None, n)
  | Some tree =>
      r <-- transform_node tree n ;;
      Return (Some r.1, r.2)
  end.

End Transform.

(** [set_leaf_pointers] on a root that is not [None]: the heap after the
    call and the value returned. *)
Fixpoint set_leaf_pointers_node (root : TreeNode) (last : option LeafNode)
    (h : Heap) : Heap * option LeafNode :=
  match root with
  | Leaf root =>
      let h := set_prev h root last in
      let h :=
        match last with
        | Some last => set_next h last (Some root)
        | None => h
        end in
      (h, Some root)
  | Trunk _ _ _ children =>
      (fix over (cs : list (option TreeNode)) (last : option LeafNode)
           (h : Heap) : Heap * option LeafNode :=
         match cs with
         | [] => (h, last)
         | child :: cs' =>
             let r :=
               match child with
               | None => (h, None)
               | Some c => set_leaf_pointers_node c last h
               end in
             over cs' (match r.2 with Some l => Some l | None => last end) r.1
         end) children last h
  end.

(** [set_leaf_pointers] *)
Definition set_leaf_pointers (root : option TreeNode) (last : option LeafNode)
    (h : Heap) : Heap * option LeafNode :=
  match root with
  | None => (h, None)
  | Some root => set_leaf_pointers_node root last h
  end.

(** The chain read through [next], starting at [leaf]; [fuel] bounds the
    number of leaves read. *)
Fixpoint follow_next (h : Heap) (fuel : nat) (leaf : option LeafNode)
  : list LeafNode :=
  match fuel, leaf with
  | S fuel', Some l => l :: follow_next h fuel' (next h !! leaf_id l)
  | _, _ => []
  end.

(** The chain read through [prev], starting at [leaf]. *)
Fixpoint follow_prev (h : Heap) (fuel : nat) (leaf : option LeafNode)
  : list LeafNode :=
  match fuel, leaf with
  | S fuel', Some l => l :: follow_prev h fuel' (prev h !! leaf_id l)
  | _, _ => []
  end.

End TreeBuilder.
Export TreeBuilder.

(** ** analysis.py *)

Module Analysis.

(** [within_range] of [get_qname_at_position] *)
Definition within_range (pos : SrcPosition) (node : TreeNode) : bool :=
  pos_ge pos (start (node_range node)) && pos_lt pos (end_ (node_range node)).

Section PositionQuery.

(** [str(node)] for a node: the [repr] that [dataclass] generates.  It is
    only applied to the result of [Model.get_name] and of
    [Function.get_name]. *)
Variable node_str : TreeNode -> string.

(** The loop and the tail of [get_qname_at_position], from the state
    [(node, model, func)]. *)
Fixpoint qname_from (pos : SrcPosition) (node : TreeNode)
    (model func : option TreeNode) : Result (option QName.t) :=
  match node with
  | Leaf _ =>
      if bool_decide (is_Some model ∧ is_Some func) then Raise AssertionError
      else
        let scope :=
          match model, func with
          | Some m, _ => ModelScope (node_str m)
          | None, Some f => FunctionScope (node_str f)
          | None, None => BaseScope
          end in
        Return (Some (QName.mk scope (Some node)))
  | Trunk _ cls _ children =>
      mf <-- match cls with
             | Model =>
                 if bool_decide (is_Some model) then Raise AssertionError
                 else m <-- get_name node ;; Return (m, func)
             | Function =>
                 if bool_decide (is_Some func) then Raise AssertionError
                 else f <-- get_name node ;; Return (model, f)
             | _ => Return (model, func)
             end ;;
      (fix over (cs : list (option TreeNode)) : Result (option QName.t) :=
         match cs with
         | [] => Return None
         | None :: cs' => over cs'
         | Some child :: cs' =>
             if within_range pos child then qname_from pos child mf.1 mf.2
             else over cs'
         end) children
  end.

(** [get_qname_at_position] *)
Definition get_qname_at_position (root : TreeNode) (pos : SrcPosition)
  : Result (option QName.t) :=
  qname_from pos root None None.

End PositionQuery.

(** [str.isspace] on one character below 256. *)
Definition isspace (c : Ascii.ascii) : bool :=
  let n := Ascii.N_of_ascii c in
  ((9 <=? n) && (n <=? 13) || (28 <=? n) && (n <=? 32)
   || (n =? 133) || (n =? 160))%N.

(** [str.lstrip()] *)
Fixpoint lstrip (s : string) : string :=
  match s with
  | EmptyString => EmptyString
  | String c s' => if isspace c then lstrip s' else s
  end.

(** [str.rstrip()] *)
Fixpoint rstrip (s : string) : string :=
  match s with
  | EmptyString => EmptyString
  | String c s' =>
      match rstrip s' with
      | EmptyString => if isspace c then EmptyString else String c EmptyString
      | r => String c r
      end
  end.

(** [str.strip()] *)
Definition strip (s : string) : string := lstrip (rstrip s).

(** A loop whose body may raise. *)
Fixpoint for_each {S A : Type} (body : S -> A -> Result S) (l : list A) (s : S)
  : Result S :=
  match l with
  | [] => Return s
  | x :: l' => s' <-- body s x ;; for_each body l' s'
  end.

(** [type(leaf) == Name] *)
Definition is_Name (l : LeafNode) : bool := bool_decide (leaf_cls l = Name).

(** [AntTreeAnalyzer.handle_child_incomp] *)
Definition handle_child_incomp (table : SymbolTable) (scope : AbstractScope)
    (node : TreeNode) : Result SymbolTable :=
  ds <-- descendants node ;;
  for_each
    (fun table child =>
       match child with
       | Trunk _ InComp _ _ =>
           comp <-- get_comp child ;;
           name <-- call get_name comp ;;
           insert table (QName.mk scope name) SymbolType.Compartment None None
       | _ => Return table
       end) ds table.

(** [AntTreeAnalyzer.handle_arith_expr] *)
Definition handle_arith_expr (table : SymbolTable) (scope : AbstractScope)
    (expr : option TreeNode) : Result SymbolTable :=
  match expr with
  | None => Return table
  | Some (Leaf leaf) =>
      if is_Name leaf then
        insert table (QName.mk scope (Some (Leaf leaf))) SymbolType.Parameter_
          None None
      else Return table
  | Some (Trunk _ _ _ _ as expr) =>
      for_each
        (fun table leaf =>
           if is_Name leaf then
             insert table (QName.mk scope (Some (Leaf leaf)))
               SymbolType.Parameter_ None None
           else Return table) (scan_leaves expr) table
  end.

(** [AntTreeAnalyzer.handle_reaction] *)
Definition handle_reaction (table : SymbolTable) (scope : AbstractScope)
    (reaction : TreeNode) : Result SymbolTable :=
  name <-- get_name reaction ;;
  table <-- match name with
            | Some _ =>
                insert table (QName.mk scope name) SymbolType.Reaction
                  (Some reaction) None
            | None => Return table
            end ;;
  reactants <-- get_reactants reaction ;;
  products <-- get_products reaction ;;
  table <-- for_each
              (fun table species =>
                 name <-- call get_name species ;;
                 insert table (QName.mk scope name) SymbolType.Species None None)
              (reactants ++ products) table ;;
  rate_law <-- get_rate_law reaction ;;
  handle_arith_expr table scope rate_law.

(** [AntTreeAnalyzer.handle_assignment] *)
Definition handle_assignment (table : SymbolTable) (scope : AbstractScope)
    (assignment : TreeNode) : Result SymbolTable :=
  name <-- get_name assignment ;;
  table <-- insert table (QName.mk scope name) SymbolType.Parameter_ None
              (Some assignment) ;;
  value <-- get_value assignment ;;
  handle_arith_expr table scope value.

(** [AntTreeAnalyzer.handle_declaration] *)
Definition handle_declaration (table : SymbolTable) (scope : AbstractScope)
    (declaration : TreeNode) : Result SymbolTable :=
  modifiers <-- get_modifiers declaration ;;
  variab <-- call get_variab modifiers ;;
  stype <-- call get_type modifiers ;;
  items <-- get_items declaration ;;
  for_each
    (fun table item =>
       maybein <-- call get_maybein item ;;
       var_name <-- call get_var_name maybein ;;
       name <-- call get_name var_name ;;
       value <-- call get_value item ;;
       let value_node := match value with Some _ => item | None => None end in
       table <-- insert table (QName.mk scope name) stype (Some declaration)
                   value_node ;;
       match value with
       | Some _ => handle_arith_expr table scope value
       | None => Return table
       end) items table.

(** [AntTreeAnalyzer.handle_annotation] *)
Definition handle_annotation (table : SymbolTable) (scope : AbstractScope)
    (annotation : TreeNode) : Result SymbolTable :=
  var_name <-- get_var_name annotation ;;
  name <-- call get_name var_name ;;
  let qname := QName.mk scope name in
  table <-- insert table qname SymbolType.Parameter_ None None ;;
  insert_annotation table qname annotation.

(** The body of the loop of [AntTreeAnalyzer.__init__] for one child of the
    root. *)
Definition analyze_child (base_scope : AbstractScope) (table : SymbolTable)
    (child : option TreeNode) : Result SymbolTable :=
  match child with
  | Some (Leaf l) => Return table
  | Some (Trunk _ ErrorNode _ _) => Return table
  | Some (Trunk _ SimpleStmt _ _ as child) =>
      stmt <-- get_stmt child ;;
      match stmt with
      | None => Return table
      | Some (Trunk _ cls _ _ as stmt) =>
          table <-- match cls with
                    | Reaction => handle_reaction table base_scope stmt
                    | Assignment => handle_assignment table base_scope stmt
                    | Declaration => handle_declaration table base_scope stmt
                    | Annotation => handle_annotation table base_scope stmt
                    | _ => Raise KeyError
                    end ;;
          handle_child_incomp table base_scope stmt
      | Some (Leaf _) => Raise KeyError
      end
  | _ => Return table
  end.

(** The issue that one child of the root gives rise to in
    [_record_syntax_issues], before the check of its line. *)
Definition syntax_issue_of (h : Heap) (node : TreeNode) : option Issue :=
  match node with
  | Leaf l =>
      if bool_decide (leaf_cls l = ErrorToken) then
        if bool_decide (strip (text l) = EmptyString) then
          Some (UnexpectedNewlineIssue (start (leaf_range l)))
        else Some (UnexpectedTokenIssue (leaf_range l) (text l))
      else None
  | Trunk _ ErrorNode _ _ =>
      match last_leaf node with
      | Some last_leaf =>
          match next h !! leaf_id last_leaf with
          | None => Some (UnexpectedEOFIssue (leaf_range last_leaf))
          | Some _ => None
          end
      | None => None
      end
  | _ => None
  end.

(** The body of the loop of [_record_syntax_issues]: the state is the set
    [lines] and the list [self.syntax_issues]. *)
Definition record_child (h : Heap) (st : gset Z * list Issue)
    (node : option TreeNode) : gset Z * list Issue :=
  match node with
  | None => st
  | Some node =>
      match syntax_issue_of h node with
      | Some issue =>
          if bool_decide (line (start (issue_range issue)) ∉ st.1) then
            ({[ line (start (issue_range issue)) ]} ∪ st.1, st.2 ++ [issue])
          else st
      | None => st
      end
  end.

(** [AntTreeAnalyzer._record_syntax_issues]: the final [self.syntax_issues],
    which is empty before the call. *)
Definition _record_syntax_issues (h : Heap) (root : TreeNode)
  : Result (list Issue) :=
  children <-- node_children root ;;
  Return (fold_left (record_child h) children (∅, [])).2.

(** [class AntTreeAnalyzer]; [semantic_issues] is the list [table.issues]
    itself. *)
Record AntTreeAnalyzer : Type := mkAnalyzer {
  table : SymbolTable;
  root : TreeNode;
  syntax_issues : list Issue
}.

Definition semantic_issues (self : AntTreeAnalyzer) : list Issue :=
  _issues (table self).

(** [AntTreeAnalyzer.__init__]; [h] holds the leaf pointers of the tree. *)
Definition AntTreeAnalyzer_init (h : Heap) (root : TreeNode)
  : Result AntTreeAnalyzer :=
  let table := SymbolTable_init in
  let base_scope := BaseScope in
  children <-- node_children root ;;
  table <-- for_each (analyze_child base_scope) children table ;;
  syntax_issues <-- _record_syntax_issues h root ;;
  Return (mkAnalyzer table root syntax_issues).

(** [AntTreeAnalyzer.get_issues] *)
Definition get_issues (self : AntTreeAnalyzer) : list Issue :=
  semantic_issues self ++ syntax_issues self.

(** [AntTreeAnalyzer.resolve_qname] *)
Definition resolve_qname (self : AntTreeAnalyzer) (qname : QName.t)
  : Result (list Symbol.t * SymbolTable) :=
  get (table self) qname.

End Analysis.
Export Analysis.

(** ** Auxiliary definitions for the statements about the symbol table *)

Section SymbolTableViews.

Implicit Types (self : SymbolTable) (scope : AbstractScope) (nm : LeafNode).
Implicit Types (typ : SymbolType.t) (sym : Symbol.t).
Implicit Types (decl_node value_node : option TreeNode).

(** The dictionary that [_leaf_table] returns for [scope]. *)
Definition leaf_table_of self scope : gmap string Symbol.t :=
  default ∅ (_table self !! scope).

(** The symbol that lines 243 to 260 of [insert] leave behind. *)
Definition with_decl_value sym nm decl_node value_node : Symbol.t :=
  let sym :=
    match decl_node with
    | Some _ => Symbol.set_decl sym decl_node (Some nm)
    | None => sym
    end in
  match value_node with
  | Some _ => Symbol.set_value_node sym value_node
  | None => sym
  end.

(** The issues that lines 243 to 260 of [insert] append. *)
Definition obscured_value sym nm value_node : list Issue :=
  match value_node, Symbol.value_node sym with
  | Some v, Some old => [ObscuredValue (node_range old) (node_range v) (text nm)]
  | _, _ => []
  end.

(** The table at the point where [insert] has logged the qname and fetched
    the dictionary of its scope. *)
Definition logged self scope (qname : QName.t) : SymbolTable :=
  mkTable (<[scope := leaf_table_of self scope]> (_table self))
          (_issues self) (_qnames self ++ [qname]).

(** The name that [get_unique_name] tries in round [i]:
    ['{}{}'.format(prefix, i)]. *)
Definition candidate (prefix : string) (i : nat) : string :=
  prefix +:+ pretty i.

End SymbolTableViews.

(** ** Auxiliary definitions for the statements about the tree *)

(** The leaves below a tuple of children, from left to right. *)
Definition children_leaves (children : list (option TreeNode)) : list LeafNode :=
  flat_map (fun c => match c with Some n => scan_leaves n | None => [] end)
    children.


(** [isinstance(node, Model)] or [isinstance(node, Function)] *)
Definition is_scope_class (cls : TrunkClass) : bool :=
  match cls with
  | Model | Function => true
  | _ => false
  end.

(** What [set_leaf_pointers] does with the leaves of a tree, one leaf after
    the other: [prev] of the leaf becomes the leaf seen last, [next] of that
    one becomes the leaf, and the leaf is the one seen last from then on. *)
Fixpoint link_leaves (leaves : list LeafNode) (last : option LeafNode)
    (h : Heap) : Heap * option LeafNode :=
  match leaves with
  | [] => (h, last)
  | l :: leaves' =>
      let h := set_prev h l last in
      let h :=
        match last with
        | Some last => set_next h last (Some l)
        | None => h
        end in
      link_leaves leaves' (Some l) h
  end.

(** The heap links [leaves] into a chain and holds nothing else: [next] of
    each leaf is the leaf after it, [prev] the leaf before it, and both are
    [None] where there is none. *)
Definition linked_chain (h : Heap) (leaves : list LeafNode) : Prop :=
  (forall i a, leaves !! i = Some a -> next h !! leaf_id a = leaves !! S i)
  /\ (forall i a, leaves !! i = Some a ->
        prev h !! leaf_id a = match i with
                              | O => None
                              | S j => leaves !! j
                              end)
  /\ (forall k, k ∉ leaf_id <$> leaves ->
        next h !! k = None /\ prev h !! k = None).

(** The tokens of a tree of the parser, from left to right. *)
Fixpoint lark_tokens (tree : Lark) : list Token.t :=
  match tree with
  | LToken tk => [tk]
  | LTree _ children =>
      (fix over (cs : list (option Lark)) : list Token.t :=
         match cs with
         | [] => []
         | None :: cs' => over cs'
         | Some child :: cs' => lark_tokens child ++ over cs'
         end) children
  end.

(** The leaves below a child slot. *)
Definition slot_leaves (child : option TreeNode) : list LeafNode :=
  match child with
  | Some n => scan_leaves n
  | None => []
  end.

(** The leaves have distinct identities, all of them allocated between the
    counter values [n] and [n']. *)
Definition fresh_leaves (n n' : nat) (leaves : list LeafNode) : Prop :=
  NoDup (leaf_id <$> leaves)
  /\ forall l, l ∈ leaves -> (n <= leaf_id l < n')%nat.

(** The tokens below a child slot of a tree of the parser. *)
Definition slot_tokens (child : option Lark) : list Token.t :=
  match child with
  | Some t => lark_tokens t
  | None => []
  end.

(** What a leaf keeps of its token: the range and the text. *)
Definition leaf_data (l : LeafNode) : SrcRange * string :=
  (leaf_range l, text l).

(** What [transform_tree] takes from a token, given [get_token_range]. *)
Definition token_data (get_token_range : Token.t -> SrcRange) (tk : Token.t)
  : SrcRange * string :=
  (get_token_range tk, Token.value tk).

(** The child of a [decl_modifiers] rule is a token that becomes a
    [VarModifier]. *)
Definition is_var_token (child : option Lark) : bool :=
  match child with
  | Some (LToken tk) =>
      bool_decide (TREE_MAP !! Token.type tk = Some (LeafCls VarModifier))
  | _ => false
  end.

(** The children of a [decl_modifiers] rule come as the class
    [DeclModifiers] keeps them: at most a variability modifier followed by
    at most one other child. *)
Definition modifiers_in_order (children : list (option Lark)) : bool :=
  match children with
  | [] => true
  | [_] => true
  | [v; t] => is_var_token v && negb (is_var_token t)
  | _ => false
  end.

(** Every [decl_modifiers] rule in the tree has its children in that
    order. *)
Fixpoint modifiers_ordered (tree : Lark) : bool :=
  match tree with
  | LToken _ => true
  | LTree data children =>
      (if bool_decide (TREE_MAP !! data = Some (TrunkCls DeclModifiers))
       then modifiers_in_order children else true)
      && (fix over (cs : list (option Lark)) : bool :=
            match cs with
            | [] => true
            | None :: cs' => over cs'
            | Some child :: cs' => modifiers_ordered child && over cs'
            end) children
  end.

(** ** Auxiliary definitions for the statements about scopes *)

(** Every dictionary of the table belongs to [scope], and every qname in
    the log has [scope]. *)
Definition only_scope (scope : AbstractScope) (self : SymbolTable) : Prop :=
  dom (_table self) ⊆ {[ scope ]}
  /\ Forall (fun q => QName.scope q = scope) (_qnames self).

(** ** Auxiliary definitions for the statements about the syntax issues *)

(** The line on which the range of an issue starts. *)
Definition issue_line (i : Issue) : Z := line (start (issue_range i)).

(** The issues that the children of the root give rise to, in the order of
    the children, before any is suppressed. *)
Definition candidate_issues (h : Heap) (children : list (option TreeNode))
  : list Issue :=
  omap (fun node => node ≫= syntax_issue_of h) children.

(** One issue per line, first match wins: an issue is kept unless its line
    is among [flagged], and the line of a kept issue is flagged for those
    after it. *)
Fixpoint first_per_line (flagged : gset Z) (issues : list Issue) : list Issue :=
  match issues with
  | [] => []
  | i :: issues' =>
      if bool_decide (issue_line i ∈ flagged) then first_per_line flagged issues'
      else i :: first_per_line ({[ issue_line i ]} ∪ flagged) issues'
  end.

(** Every character of [s] is white space. *)
Definition whitespace_only (s : string) : Prop :=
  Forall (fun c => isspace c = true) (String.list_ascii_of_string s).

(** ** Example trees *)

Module Scenarios.

Definition rng (l c1 c2 : Z) : SrcRange := mkRange (mkPos l c1) (mkPos l c2).

Definition leaf (id : nat) (cls : LeafClass) (l c1 c2 : Z) (text : string)
  : LeafNode := mkLeaf id cls (rng l c1 c2) text.

(** The leaf pointers of a tree, as [set_leaf_pointers] leaves them. *)
Definition linked (root : TreeNode) : Heap :=
  (set_leaf_pointers (Some root) None empty_heap).1.

(** *** [const species A = 5; A = 10;] *)

(** The tree of the parser, with the tokens at their columns. *)
Definition tok (type value : string) (c1 c2 : Z) : option Lark :=
  Some (LToken (Token.mk type value 1 c1 1 c2)).

Definition lark_const_species : Lark :=
  LTree "root"
    [Some (LTree "simple_stmt"
       [Some (LTree "declaration"
          [Some (LTree "decl_modifiers"
             [tok "VAR_MODIFIER" "const" 1 6; tok "TYPE_MODIFIER" "species" 7 14]);
           Some (LTree "decl_item"
             [Some (LTree "namemaybein"
                [Some (LTree "var_name" [None; tok "NAME" "A" 15 16]); None]);
              Some (LTree "decl_assignment"
                [tok "EQUAL" "=" 17 18; tok "NUMBER" "5" 19 20])])]);
        tok "SEMICOLON" ";" 20 21]);
     Some (LTree "simple_stmt"
       [Some (LTree "assignment"
          [Some (LTree "namemaybein"
             [Some (LTree "var_name" [None; tok "NAME" "A" 22 23]); None]);
           tok "EQUAL" "=" 24 25;
           tok "NUMBER" "10" 26 28]);
        tok "SEMICOLON" ";" 28 29])].

(** The tree that [transform_tree] builds from it (see
    [const_species_root_transformed]). *)
Definition decl_A : LeafNode := leaf 3 Name 1 15 16 "A".

Definition decl_item : TreeNode :=
  Trunk 9 DeclItem (rng 1 15 20)
    [Some (Trunk 5 NameMaybeIn (rng 1 15 16)
             [Some (Trunk 4 VarName (rng 1 15 16) [None; Some (Leaf decl_A)]);
              None]);
     Some (Trunk 8 DeclAssignment (rng 1 17 20)
             [Some (Leaf (leaf 6 Operator 1 17 18 "="));
              Some (Leaf (leaf 7 Number 1 19 20 "5"))])].

Definition declaration : TreeNode :=
  Trunk 10 Declaration (rng 1 1 20)
    [Some (Trunk 2 DeclModifiers (rng 1 1 14)
             [Some (Leaf (leaf 0 VarModifier 1 1 6 "const"));
              Some (Leaf (leaf 1 TypeModifier 1 7 14 "species"))]);
     Some decl_item].

Definition declaration_stmt : TreeNode :=
  Trunk 12 SimpleStmt (rng 1 1 21)
    [Some declaration; Some (Leaf (leaf 11 Operator 1 20 21 ";"))].

Definition assign_A : LeafNode := leaf 13 Name 1 22 23 "A".

Definition assignment : TreeNode :=
  Trunk 18 Assignment (rng 1 22 28)
    [Some (Trunk 15 NameMaybeIn (rng 1 22 23)
             [Some (Trunk 14 VarName (rng 1 22 23) [None; Some (Leaf assign_A)]);
              None]);
     Some (Leaf (leaf 16 Operator 1 24 25 "="));
     Some (Leaf (leaf 17 Number 1 26 28 "10"))].

Definition const_species_root : TreeNode :=
  Trunk 21 FileNode (rng 1 1 29)
    [Some declaration_stmt;
     Some (Trunk 20 SimpleStmt (rng 1 22 29)
             [Some assignment; Some (Leaf (leaf 19 Operator 1 28 29 ";"))])].

(** The symbol of [A] after the declaration, and after the assignment. *)
Definition symbol_A_declared : Symbol.t :=
  Symbol.mk "A" SymbolType.Species decl_A (Some decl_A) (Some declaration)
    (Some decl_item) [].

Definition symbol_A : Symbol.t :=
  Symbol.mk "A" SymbolType.Species decl_A (Some decl_A) (Some declaration)
    (Some assignment) [].

(** *** The reaction of [model m; S1 -> S2; k1*S1; end] *)


(** The tree that [transform_tree] builds from it (see
    [reaction_root_transformed]). *)
Definition reactant_S1 : LeafNode := leaf 0 Name 1 10 12 "S1".




(** *** Two unexpected tokens on one line: [? !] *)

Definition two_errors_root : TreeNode :=
  Trunk 2 FileNode (rng 1 1 4)
    [Some (Leaf (leaf 0 ErrorToken 1 1 2 "?"));
     Some (Leaf (leaf 1 ErrorToken 1 3 4 "!"))].

(** *** A file that ends after [a =] *)

Definition dangling_equal : LeafNode := leaf 3 Operator 1 3 4 "=".

Definition dangling_node : TreeNode :=
  Trunk 4 ErrorNode (rng 1 1 4)
    [Some (Trunk 2 NameMaybeIn (rng 1 1 2)
             [Some (Trunk 1 VarName (rng 1 1 2)
                      [None; Some (Leaf (leaf 0 Name 1 1 2 "a"))]);
              None]);
     Some (Leaf dangling_equal)].

Definition eof_root : TreeNode :=
  Trunk 5 FileNode (rng 1 1 4) [Some dangling_node].

(** *** [a = ?] followed by the end of the line *)

Definition question_mark : LeafNode := leaf 5 ErrorToken 1 5 6 "?".

Definition newline_token : LeafNode :=
  mkLeaf 6 ErrorToken (mkRange (mkPos 2 1) (mkPos 3 1)) (String (Ascii.ascii_of_nat 10) EmptyString).

Definition unexpected_root : TreeNode :=
  Trunk 7 FileNode (mkRange (mkPos 1 1) (mkPos 3 1))
    [Some dangling_node; Some (Leaf question_mark); Some (Leaf newline_token)].

(** *** A tree of the parser: [var species a = b;] *)

Definition lark_declaration : Lark :=
  LTree "root"
    [Some (LTree "simple_stmt"
       [Some (LTree "declaration"
          [Some (LTree "decl_modifiers"
             [tok "VAR_MODIFIER" "var" 1 4; tok "TYPE_MODIFIER" "species" 5 12]);
           Some (LTree "decl_item"
             [Some (LTree "namemaybein"
                [Some (LTree "var_name" [None; tok "NAME" "a" 13 14]); None]);
              Some (LTree "decl_assignment"
                [tok "EQUAL" "=" 15 16; tok "NAME" "b" 17 18])])]);
        tok "SEMICOLON" ";" 18 19])].

(** *** A table that holds the species [x] *)

Definition first_x : LeafNode := leaf 0 Name 1 1 2 "x".

Definition second_x : LeafNode := leaf 1 Name 2 1 2 "x".

Definition value_5 : TreeNode := Leaf (leaf 2 Number 1 5 6 "5").

Definition value_7 : TreeNode := Leaf (leaf 3 Number 2 5 6 "7").

Definition species_x : Symbol.t :=
  Symbol.mk "x" SymbolType.Species first_x None None (Some value_5) [].

Definition species_x_table : SymbolTable :=
  mkTable {[ BaseScope := {[ "x" := species_x ]} ]} []
    [QName.mk BaseScope (Some (Leaf first_x))].

(** *** A table with the names [k0] and [k1], in two scopes *)

Definition names_k0_k1 : SymbolTable :=
  mkTable
    {[ BaseScope :=
         {[ "k0" := Symbol.init "k0" SymbolType.Parameter_ (leaf 0 Name 1 1 3 "k0") ]};
       ModelScope "m" :=
         {[ "k1" := Symbol.init "k1" SymbolType.Parameter_ (leaf 1 Name 2 1 3 "k1") ]} ]}
    [] [].

(** Modelled from the spec: [get_token_range] of [stibium.utils], which is
    not among the sources; the range of a leaf is computed from the span of
    its token. *)
Definition token_range (tk : Token.t) : SrcRange :=
  mkRange (mkPos (Token.line tk) (Token.column tk))
          (mkPos (Token.end_line tk) (Token.end_column tk)).

(** A stand-in for [get_tree_range] of [stibium.utils] in the examples,
    which is not among the sources either: the span from the start of the
    first token of the tree to the end of its last token. *)
Definition tree_span (tree : Lark) : SrcRange :=
  match head (lark_tokens tree), last (lark_tokens tree) with
  | Some first, Some final =>
      mkRange (start (token_range first)) (end_ (token_range final))
  | _, _ => rng 0 0 0
  end.

End Scenarios.


(** ** Further functions of the sources *)

Module More.

(** [text[1:-1]]: the characters between the first and the last one. *)
Definition slice_1_m1 (s : string) : string :=
  String.substring 1 (String.length s - 2) s.

(** [StringLiteral.get_str] *)
Definition get_str (self : TreeNode) : Result string :=
  match self with
  | Leaf l =>
      if bool_decide (leaf_cls l = StringLiteral)
      then Return (slice_1_m1 (text l))
      else Raise AttributeError
  | Trunk _ _ _ _ => Raise AttributeError
  end.

(** [Annotation.get_uri] *)
Definition get_uri (self : TreeNode) : Result string :=
  match self with
  | Trunk _ Annotation _ children =>
      literal <-- item children 2 ;;
      call get_str literal
  | _ => Raise AttributeError
  end.

(** [Symbol.def_name]: [self.decl_name or self.value_node or
    self.type_name]; every node is true as a condition. *)
Definition def_name (self : Symbol.t) : TreeNode :=
  match Symbol.decl_name self with
  | Some decl_name => Leaf decl_name
  | None =>
      match Symbol.value_node self with
      | Some value_node => value_node
      | None => Leaf (Symbol.type_name self)
      end
  end.

(** [Symbol.help_str] *)
Definition help_str (self : Symbol.t) : Result string :=
  let nl := String (Ascii.ascii_of_nat 10) EmptyString in
  let ret :=
    "```" +:+ nl +:+ "(" +:+ SymbolType.str (Symbol.type self) +:+ ") "
    +:+ Symbol.name self +:+ nl +:+ "```" in
  match Symbol.annotations self with
  | [] => Return ret
  | annotation :: _ =>
      uri <-- get_uri annotation ;;
      Return (ret +:+ nl +:+ nl +:+ "***" +:+ nl +:+ nl +:+ uri)
  end.

(** The identity of the object behind a node. *)
Definition node_id (n : TreeNode) : nat :=
  match n with
  | Leaf l => leaf_id l
  | Trunk id _ _ _ => id
  end.

(** [set_parents]: [parents] holds the field [parent] of the nodes, by the
    identity of the node that owns the field; a node is constructed with
    [parent = None], so an absent key reads as [None]. *)
Fixpoint set_parents (root : TreeNode) (parents : gmap nat TreeNode)
  : gmap nat TreeNode :=
  match root with
  | Leaf _ => parents
  | Trunk _ _ _ children =>
      (fix over (cs : list (option TreeNode)) (parents : gmap nat TreeNode)
         : gmap nat TreeNode :=
         match cs with
         | [] => parents
         | None :: cs' => over cs' parents
         | Some child :: cs' =>
             over cs' (set_parents child (<[node_id child := root]> parents))
         end) children parents
  end.

(** The loop of [TreeNode.next_sibling] over
    [enumerate(self.parent.children)]: [node is self] compares identities;
    [rest] holds the children after [node]. *)
Fixpoint next_sibling_in (self : TreeNode) (children : list (option TreeNode))
  : option TreeNode :=
  match children with
  | [] => None
  | node :: rest =>
      if bool_decide (node_id <$> node = Some (node_id self)) then
        match rest with
        | [] => None
        | next :: _ => next
        end
      else next_sibling_in self rest
  end.

(** [TreeNode.next_sibling] *)
Definition next_sibling (parents : gmap nat TreeNode) (self : TreeNode)
  : Result (option TreeNode) :=
  match parents !! node_id self with
  | None => Return None
  | Some parent =>
      children <-- node_children parent ;;
      Return (next_sibling_in self children)
  end.

End More.
Export More.

(** ** Auxiliary definitions for further statements *)

Section InsertCases.

Implicit Types (self : SymbolTable) (scope : AbstractScope) (nm : LeafNode).
Implicit Types (typ : SymbolType.t) (sym : Symbol.t).
Implicit Types (decl_node value_node : option TreeNode).

(** The four ways in which [insert] ends for the name of a leaf. *)
Inductive insert_case self scope nm typ decl_node value_node
  : SymbolTable -> Prop :=
| insert_case_new :
    leaf_table_of self scope !! text nm = None ->
    insert_case self scope nm typ decl_node value_node
      (insert_decl_value (logged self scope (QName.mk scope (Some (Leaf nm))))
         scope nm (Symbol.init (text nm) typ nm) decl_node value_node)
| insert_case_narrower sym :
    leaf_table_of self scope !! text nm = Some sym ->
    SymbolType.derives_from typ (Symbol.type sym) = true ->
    insert_case self scope nm typ decl_node value_node
      (insert_decl_value (logged self scope (QName.mk scope (Some (Leaf nm))))
         scope nm (Symbol.set_type sym typ nm) decl_node value_node)
| insert_case_wider sym :
    leaf_table_of self scope !! text nm = Some sym ->
    SymbolType.derives_from typ (Symbol.type sym) = false ->
    SymbolType.derives_from (Symbol.type sym) typ = true ->
    insert_case self scope nm typ decl_node value_node
      (insert_decl_value (logged self scope (QName.mk scope (Some (Leaf nm))))
         scope nm sym decl_node value_node)
| insert_case_unrelated sym :
    leaf_table_of self scope !! text nm = Some sym ->
    SymbolType.derives_from typ (Symbol.type sym) = false ->
    SymbolType.derives_from (Symbol.type sym) typ = false ->
    insert_case self scope nm typ decl_node value_node
      (append_issue (logged self scope (QName.mk scope (Some (Leaf nm))))
         (IncompatibleType (Symbol.type sym) (leaf_range (Symbol.type_name sym))
            typ (leaf_range nm))).

End InsertCases.

(** The leaves among a list of nodes. *)
Definition leaves_of (nodes : list TreeNode) : list LeafNode :=
  omap (fun n => match n with Leaf l => Some l | Trunk _ _ _ _ => None end)
    nodes.

(** A symbol stored under [name] carries that name, on itself and on the
    tokens that define and declare it; it has a declaring token exactly
    when it has a declaration node. *)
Definition symbol_consistent (name : string) (sym : Symbol.t) : Prop :=
  Symbol.name sym = name
  /\ text (Symbol.type_name sym) = name
  /\ (forall d, Symbol.decl_name sym = Some d -> text d = name)
  /\ (is_Some (Symbol.decl_name sym) <-> is_Some (Symbol.decl_node sym)).

(** The table and its log agree: every symbol is consistent and has an
    occurrence in the log, and every qname in the log names a symbol. *)
Definition table_consistent (self : SymbolTable) : Prop :=
  (forall scope (name : string) sym,
     leaf_table_of self scope !! name = Some sym ->
     symbol_consistent name sym
     /\ exists l,
          QName.mk scope (Some (Leaf l)) ∈ _qnames self /\ text l = name)
  /\ (forall q, q ∈ _qnames self ->
        exists l sym,
          QName.name q = Some (Leaf l)
          /\ leaf_table_of self (QName.scope q) !! text l = Some sym).

(** An issue that [SymbolTable.insert] can append. *)
Definition is_semantic_issue (i : Issue) : Prop :=
  (is_IncompatibleType i = true /\ issue_severity i = Error)
  \/ (is_ObscuredValue i = true /\ issue_severity i = Warning).

(** An issue that [_record_syntax_issues] can record. *)
Definition is_syntax_issue (i : Issue) : Prop :=
  match i with
  | UnexpectedTokenIssue _ _ | UnexpectedEOFIssue _ | UnexpectedNewlineIssue _ =>
      issue_severity i = Error
  | _ => False
  end.

(** [isinstance(child, SimpleStmt)] for a child slot of the root. *)
Definition is_SimpleStmt (child : option TreeNode) : bool :=
  match child with
  | Some (Trunk _ SimpleStmt _ _) => true
  | _ => false
  end.

(** [type(child) == ErrorToken] or [type(child) == ErrorNode]. *)
Definition is_error_child (child : option TreeNode) : bool :=
  match child with
  | Some (Leaf l) => bool_decide (leaf_cls l = ErrorToken)
  | Some (Trunk _ ErrorNode _ _) => true
  | _ => false
  end.

(** The leaves that [handle_arith_expr] looks at: the expression itself
    when it has no children, else its leaves from left to right. *)
Definition expr_leaves (expr : option TreeNode) : list LeafNode :=
  match expr with
  | None => []
  | Some node => scan_leaves node
  end.

(** Those of them that are names. *)
Definition name_leaves (expr : option TreeNode) : list LeafNode :=
  filter (fun l => leaf_cls l = Name) (expr_leaves expr).

(** ** Auxiliary definitions for the statements about [transform_tree] *)

Section TransformSlots.

Variable transform : Lark -> nat -> Result (TreeNode * nat).

(** The loop of [transform_tree] over [tree.children], the counter threaded
    through. *)
Fixpoint transform_slots (cs : list (option Lark)) (n : nat)
  : Result (list (option TreeNode) * nat) :=
  match cs with
  | [] => Return ([], n)
  | None :: cs' =>
      r <-- transform_slots cs' n ;;
      Return (None :: r.1, r.2)
  | Some child :: cs' =>
      c <-- transform child n ;;
      r <-- transform_slots cs' c.2 ;;
      Return (Some c.1 :: r.1, r.2)
  end.

(** A run of that loop that returns: [n] is the counter before, [m] the
    counter after. *)
Inductive slots_run
  : list (option Lark) -> nat -> list (option TreeNode) -> nat -> Prop :=
| slots_run_nil n : slots_run [] n [] n
| slots_run_none cs n r m :
    slots_run cs n r m -> slots_run (None :: cs) n (None :: r) m
| slots_run_some c cs n node n1 r m :
    transform c n = Return (node, n1) ->
    slots_run cs n1 r m ->
    slots_run (Some c :: cs) n (Some node :: r) m.

End TransformSlots.

(** Every token type of the tree is the key of a leaf class in [TREE_MAP],
    and every rule name the key of a trunk class. *)
Fixpoint well_tagged (tree : Lark) : bool :=
  match tree with
  | LToken tk =>
      match TREE_MAP !! Token.type tk with
      | Some (LeafCls _) => true
      | _ => false
      end
  | LTree data children =>
      match TREE_MAP !! data with
      | Some (TrunkCls _) => true
      | _ => false
      end
      && (fix over (cs : list (option Lark)) : bool :=
            match cs with
            | [] => true
            | None :: cs' => over cs'
            | Some child :: cs' => well_tagged child && over cs'
            end) children
  end.

(** The token types and rule names of the tree. *)
Fixpoint lark_tags (tree : Lark) : list string :=
  match tree with
  | LToken tk => [Token.type tk]
  | LTree data children =>
      data :: (fix over (cs : list (option Lark)) : list string :=
                 match cs with
                 | [] => []
                 | None :: cs' => over cs'
                 | Some child :: cs' => lark_tags child ++ over cs'
                 end) children
  end.

(** The number of tokens and rules of the tree. *)
Fixpoint lark_size (tree : Lark) : nat :=
  match tree with
  | LToken _ => 1%nat
  | LTree _ children =>
      S ((fix over (cs : list (option Lark)) : nat :=
            match cs with
            | [] => 0%nat
            | None :: cs' => over cs'
            | Some child :: cs' => (lark_size child + over cs')%nat
            end) children)
  end.

(** The shape of a node that [transform_tree] builds: no [Model] and no
    [Function], and below a [DeclModifiers] two slots, the first empty or a
    [VarModifier] and the second no [VarModifier]. *)
Fixpoint built (node : TreeNode) : bool :=
  match node with
  | Leaf _ => true
  | Trunk _ cls _ children =>
      negb (is_scope_class cls)
      && (if bool_decide (cls = DeclModifiers) then
            match children with
            | [v; t] =>
                match v with None => true | Some _ => is_VarModifier v end
                && negb (is_VarModifier t)
            | _ => false
            end
          else true)
      && (fix over (cs : list (option TreeNode)) : bool :=
            match cs with
            | [] => true
            | None :: cs' => over cs'
            | Some child :: cs' => built child && over cs'
            end) children
  end.

Section BuiltFrom.

Variable get_token_range : Token.t -> SrcRange.
Variable get_tree_range : Lark -> SrcRange.

(** [node] is what [transform_tree] makes of [tree], up to the identities
    of the nodes. *)
Inductive built_from : Lark -> TreeNode -> Prop :=
| built_from_token tk id cls :
    TREE_MAP !! Token.type tk = Some (LeafCls cls) ->
    built_from (LToken tk)
      (Leaf (mkLeaf id cls (get_token_range tk) (Token.value tk)))
| built_from_tree data children id cls r :
    TREE_MAP !! data = Some (TrunkCls cls) ->
    Forall2 (option_Forall2 built_from) children r ->
    built_from (LTree data children)
      (Trunk id cls (get_tree_range (LTree data children))
         (if bool_decide (cls = DeclModifiers)
          then decl_modifier_children r else r)).

End BuiltFrom.

(** The last child of a [decl_modifiers] rule that is no [VAR_MODIFIER]
    token. *)
Definition type_token (children : list (option Lark)) : option (option Lark) :=
  last (filter (fun c => is_var_token c = false) children).

(** The variability that the last [VAR_MODIFIER] token among the children
    of a [decl_modifiers] rule stands for. *)
Definition variab_of_tokens (children : list (option Lark)) : Variability :=
  match last (filter (fun c => is_var_token c = true) children) with
  | Some (Some (LToken tk)) =>
      if bool_decide (Token.value tk = "const") then CONSTANT else VARIABLE
  | _ => UNKNOWN
  end.

(** ** Auxiliary definitions for the statements about parents *)

(** The nodes below [root], each with its parent, in the order in which
    [set_parents] sets the field [parent]. *)
Fixpoint parent_edges (root : TreeNode) : list (TreeNode * TreeNode) :=
  match root with
  | Leaf _ => []
  | Trunk _ _ _ children =>
      (fix over (cs : list (option TreeNode)) : list (TreeNode * TreeNode) :=
         match cs with
         | [] => []
         | None :: cs' => over cs'
         | Some child :: cs' => (child, root) :: parent_edges child ++ over cs'
         end) children
  end.

(** No object occurs twice in the tree: the nodes have distinct
    identities. *)
Definition distinct_nodes (root : TreeNode) : Prop :=
  NoDup (node_id <$> descendants_from root).

(** ** Further scenarios *)

Module MoreScenarios.

Import Scenarios.

(** The annotation [A identity "http://identifiers.org/x"]. *)
Definition quoted (s : string) : string :=
  String (Ascii.ascii_of_nat 34) (s +:+ String (Ascii.ascii_of_nat 34) EmptyString).

Definition annotated_A : LeafNode := leaf 0 Name 1 1 2 "A".

Definition annotation_A : TreeNode :=
  Trunk 4 Annotation (rng 1 1 38)
    [Some (Trunk 1 VarName (rng 1 1 2) [None; Some (Leaf annotated_A)]);
     Some (Leaf (leaf 2 Keyword 1 3 11 "identity"));
     Some (Leaf (leaf 3 StringLiteral 1 12 38
                   (quoted "http://identifiers.org/x")))].

End MoreScenarios.

(** ** Auxiliary definitions for the statements about references *)

(** The tokens and nodes that a symbol refers to are tokens and nodes of
    the tree below [root]. *)
Definition symbol_below (root : TreeNode) (sym : Symbol.t) : Prop :=
  Symbol.type_name sym ∈ scan_leaves root
  /\ (forall d, Symbol.decl_name sym = Some d -> d ∈ scan_leaves root)
  /\ (forall n, Symbol.decl_node sym = Some n -> n ∈ descendants_from root)
  /\ (forall n, Symbol.value_node sym = Some n -> n ∈ descendants_from root)
  /\ Forall (fun n => n ∈ descendants_from root) (Symbol.annotations sym).

(** Every qname of the log names a leaf of the tree, and every symbol of
    the table refers to the tree. *)
Definition points_into (root : TreeNode) (table : SymbolTable) : Prop :=
  (forall q, q ∈ _qnames table ->
     exists l, QName.name q = Some (Leaf l) /\ l ∈ scan_leaves root)
  /\ (forall scope (name : string) sym,
        leaf_table_of table scope !! name = Some sym -> symbol_below root sym).

(** The fields of a symbol that an [insert] without declaration and value
    node leaves as they are. *)
Definition same_nodes (sym sym' : Symbol.t) : Prop :=
  Symbol.value_node sym' = Symbol.value_node sym
  /\ Symbol.decl_node sym' = Symbol.decl_node sym
  /\ Symbol.decl_name sym' = Symbol.decl_name sym
  /\ Symbol.annotations sym' = Symbol.annotations sym.

(** The table has a symbol for the name whose nodes are those of [sym]. *)
Definition keeps_nodes (scope : AbstractScope) (name : string)
    (sym : Symbol.t) (table : SymbolTable) : Prop :=
  exists sym',
    leaf_table_of table scope !! name = Some sym' /\ same_nodes sym sym'.

(** * The type lattice *)

Lemma derives_from_refl (a : SymbolType.t) :
  SymbolType.derives_from a a = true.
Proof. by destruct a. Qed.

Lemma derives_from_antisym (a b : SymbolType.t) :
  SymbolType.derives_from a b = true -> SymbolType.derives_from b a = true ->
  a = b.
Proof. destruct a, b; vm_compute; congruence. Qed.

Lemma derives_from_trans (a b c : SymbolType.t) :
  SymbolType.derives_from a b = true -> SymbolType.derives_from b c = true ->
  SymbolType.derives_from a c = true.
Proof. destruct a, b, c; vm_compute; congruence. Qed.

(** C2: [SymbolType.derives_from] is a partial order on the enumeration with
    [Unknown] on top: it is reflexive; two types derive from each other
    exactly when they are equal; every type derives from [Unknown]; and it
    is transitive. *)
Theorem derives_from_partial_order :
  (forall a, SymbolType.derives_from a a = true)
  /\ (forall a b,
        SymbolType.derives_from a b = true /\ SymbolType.derives_from b a = true
        <-> a = b)
  /\ (forall x, SymbolType.derives_from x SymbolType.Unknown = true)
  /\ (forall a b c,
        SymbolType.derives_from a b = true ->
        SymbolType.derives_from b c = true ->
        SymbolType.derives_from a c = true).
Proof.
  split; [apply derives_from_refl | split; [| split]].
  - intros a b; split.
    + intros [Hab Hba]. by apply derives_from_antisym.
    + intros ->. split; apply derives_from_refl.
  - by intros [].
  - apply derives_from_trans.
Qed.

(** * The symbol table *)

Section SymbolTableFacts.

Implicit Types (self : SymbolTable) (scope : AbstractScope) (nm : LeafNode).
Implicit Types (typ : SymbolType.t) (sym : Symbol.t).
Implicit Types (decl_node value_node : option TreeNode).

Lemma _leaf_table_fst self scope :
  (_leaf_table self scope).1 = leaf_table_of self scope.
Proof.
  unfold _leaf_table, leaf_table_of.
  by destruct (_table self !! scope).
Qed.

Lemma _leaf_table_snd self scope :
  (_leaf_table self scope).2
  = mkTable (<[scope := leaf_table_of self scope]> (_table self))
            (_issues self) (_qnames self).
Proof.
  unfold _leaf_table, leaf_table_of.
  destruct (_table self !! scope) eqn:E; simpl; [|done].
  rewrite insert_id; [by destruct self | done].
Qed.

Lemma _leaf_table_present self scope leaf_table :
  _table self !! scope = Some leaf_table ->
  _leaf_table self scope = (leaf_table, self).
Proof. intros E. unfold _leaf_table. by rewrite E. Qed.

Lemma insert_decl_value_eq self scope nm sym decl_node value_node :
  insert_decl_value self scope nm sym decl_node value_node
  = mkTable
      (<[scope := <[text nm := with_decl_value sym nm decl_node value_node]>
                    (leaf_table_of self scope)]> (_table self))
      (_issues self ++ obscured_value sym nm value_node)
      (_qnames self).
Proof.
  unfold insert_decl_value, with_decl_value, obscured_value, store_symbol,
    leaf_table_of.
  destruct decl_node, value_node, sym as [? ? ? ? ? [?|] ?]; simpl;
    rewrite ?app_nil_r; done.
Qed.

Lemma leaf_table_of_logged self scope qname :
  leaf_table_of (logged self scope qname) scope = leaf_table_of self scope.
Proof. unfold leaf_table_of, logged; simpl. by rewrite lookup_insert_eq. Qed.

Lemma insert_new self scope nm typ decl_node value_node :
  leaf_table_of self scope !! text nm = None ->
  let qname := QName.mk scope (Some (Leaf nm)) in
  insert self qname typ decl_node value_node
  = Return (insert_decl_value (logged self scope qname) scope nm
              (Symbol.init (text nm) typ nm) decl_node value_node).
Proof.
  intros E qname. unfold insert; simpl.
  rewrite (surjective_pairing (_leaf_table _ _)), _leaf_table_fst, _leaf_table_snd.
  unfold leaf_table_of in *; simpl. by rewrite E.
Qed.

Lemma insert_narrower self scope nm typ decl_node value_node sym :
  leaf_table_of self scope !! text nm = Some sym ->
  SymbolType.derives_from typ (Symbol.type sym) = true ->
  let qname := QName.mk scope (Some (Leaf nm)) in
  insert self qname typ decl_node value_node
  = Return (insert_decl_value (logged self scope qname) scope nm
              (Symbol.set_type sym typ nm) decl_node value_node).
Proof.
  intros E D qname. unfold insert; simpl.
  rewrite (surjective_pairing (_leaf_table _ _)), _leaf_table_fst, _leaf_table_snd.
  unfold leaf_table_of in *; simpl. by rewrite E, D.
Qed.

Lemma insert_wider self scope nm typ decl_node value_node sym :
  leaf_table_of self scope !! text nm = Some sym ->
  SymbolType.derives_from typ (Symbol.type sym) = false ->
  SymbolType.derives_from (Symbol.type sym) typ = true ->
  let qname := QName.mk scope (Some (Leaf nm)) in
  insert self qname typ decl_node value_node
  = Return (insert_decl_value (logged self scope qname) scope nm sym
              decl_node value_node).
Proof.
  intros E D1 D2 qname. unfold insert; simpl.
  rewrite (surjective_pairing (_leaf_table _ _)), _leaf_table_fst, _leaf_table_snd.
  unfold leaf_table_of in *; simpl. by rewrite E, D1, D2.
Qed.

Lemma insert_unrelated self scope nm typ decl_node value_node sym :
  leaf_table_of self scope !! text nm = Some sym ->
  SymbolType.derives_from typ (Symbol.type sym) = false ->
  SymbolType.derives_from (Symbol.type sym) typ = false ->
  let qname := QName.mk scope (Some (Leaf nm)) in
  insert self qname typ decl_node value_node
  = Return (append_issue (logged self scope qname)
              (IncompatibleType (Symbol.type sym)
                 (leaf_range (Symbol.type_name sym)) typ (leaf_range nm))).
Proof.
  intros E D1 D2 qname. unfold insert; simpl.
  rewrite (surjective_pairing (_leaf_table _ _)), _leaf_table_fst, _leaf_table_snd.
  unfold leaf_table_of in *; simpl. by rewrite E, D1, D2.
Qed.

Lemma leaf_table_of_insert_decl_value self scope nm sym decl_node value_node :
  leaf_table_of (insert_decl_value self scope nm sym decl_node value_node) scope
  = <[text nm := with_decl_value sym nm decl_node value_node]>
      (leaf_table_of self scope).
Proof.
  rewrite insert_decl_value_eq. unfold leaf_table_of at 1; simpl.
  by rewrite lookup_insert_eq.
Qed.

Lemma get_present self scope nm sym :
  leaf_table_of self scope !! text nm = Some sym ->
  exists self', get self (QName.mk scope (Some (Leaf nm))) = Return ([sym], self').
Proof.
  intros E. unfold get; simpl.
  rewrite (surjective_pairing (_leaf_table _ _)), _leaf_table_fst; simpl.
  rewrite E. eauto.
Qed.

End SymbolTableFacts.

Section InsertFacts.

Implicit Types (self : SymbolTable) (scope : AbstractScope) (nm : LeafNode).
Implicit Types (typ : SymbolType.t) (sym : Symbol.t).
Implicit Types (decl_node value_node : option TreeNode).

Lemma leaf_table_of_present self scope leaf_table :
  _table self !! scope = Some leaf_table -> leaf_table_of self scope = leaf_table.
Proof. intros E. unfold leaf_table_of. by rewrite E. Qed.

Lemma logged_present self scope qname leaf_table :
  _table self !! scope = Some leaf_table ->
  logged self scope qname
  = mkTable (_table self) (_issues self) (_qnames self ++ [qname]).
Proof.
  intros E. unfold logged.
  rewrite (leaf_table_of_present _ _ _ E). by rewrite insert_id.
Qed.

Lemma get_in_table self scope nm leaf_table sym :
  _table self !! scope = Some leaf_table ->
  leaf_table !! text nm = Some sym ->
  get self (QName.mk scope (Some (Leaf nm))) = Return ([sym], self).
Proof.
  intros Hscope Hname. unfold get, _leaf_table; simpl.
  rewrite Hscope; simpl. by rewrite Hname.
Qed.

Lemma table_insert_decl_value self scope nm sym decl_node value_node :
  _table (insert_decl_value self scope nm sym decl_node value_node) !! scope
  = Some (<[text nm := with_decl_value sym nm decl_node value_node]>
            (leaf_table_of self scope)).
Proof. rewrite insert_decl_value_eq; simpl. by rewrite lookup_insert_eq. Qed.

Lemma issues_insert_decl_value self scope nm sym decl_node value_node :
  _issues (insert_decl_value self scope nm sym decl_node value_node)
  = _issues self ++ obscured_value sym nm value_node.
Proof. by rewrite insert_decl_value_eq. Qed.

Lemma type_with_decl_value sym nm decl_node value_node :
  Symbol.type (with_decl_value sym nm decl_node value_node) = Symbol.type sym.
Proof. by destruct decl_node, value_node. Qed.

Lemma value_node_with_decl_value sym nm decl_node value_node :
  Symbol.value_node (with_decl_value sym nm decl_node value_node)
  = match value_node with
    | Some _ => value_node
    | None => Symbol.value_node sym
    end.
Proof. by destruct decl_node, value_node. Qed.

Lemma obscured_value_no_type_issue sym nm value_node (issues : list Issue) :
  filter (fun i => is_IncompatibleType i = true)
    (issues ++ obscured_value sym nm value_node)
  = filter (fun i => is_IncompatibleType i = true) issues.
Proof.
  rewrite filter_app. unfold obscured_value.
  destruct value_node, (Symbol.value_node sym); simpl;
    rewrite ?filter_nil, ?app_nil_r; done.
Qed.

Lemma obscured_value_none sym nm value_node :
  Symbol.value_node sym = None \/ value_node = None ->
  obscured_value sym nm value_node = [].
Proof.
  unfold obscured_value.
  intros [-> | ->]; [by destruct value_node | done].
Qed.

(** Two insertions for a name that is new to the scope, with types of which
    one derives from the other. *)
Lemma insert_twice_comparable self scope nm1 nm2 (first second : SymbolType.t)
    decl_node1 value_node1 decl_node2 value_node2 :
  leaf_table_of self scope !! text nm1 = None ->
  text nm2 = text nm1 ->
  SymbolType.derives_from second first = true
  \/ SymbolType.derives_from first second = true ->
  let qname1 := QName.mk scope (Some (Leaf nm1)) in
  let qname2 := QName.mk scope (Some (Leaf nm2)) in
  exists self1 self2 sym1 sym2,
    insert self qname1 first decl_node1 value_node1 = Return self1
    /\ insert self1 qname2 second decl_node2 value_node2 = Return self2
    /\ get self1 qname1 = Return ([sym1], self1)
    /\ Symbol.type sym1 = first
    /\ get self2 qname2 = Return ([sym2], self2)
    /\ Symbol.type sym2
       = (if SymbolType.derives_from second first then second else first)
    /\ filter (fun i => is_IncompatibleType i = true) (_issues self2)
       = filter (fun i => is_IncompatibleType i = true) (_issues self)
    /\ (value_node1 = None \/ value_node2 = None ->
        _issues self2 = _issues self).
Proof.
  intros Hnew Htext Hcmp qname1 qname2.
  pose (sym1 := with_decl_value (Symbol.init (text nm1) first nm1) nm1
                  decl_node1 value_node1).
  pose (self1 := insert_decl_value (logged self scope qname1) scope nm1
                   (Symbol.init (text nm1) first nm1) decl_node1 value_node1).
  assert (Hself1 : insert self qname1 first decl_node1 value_node1 = Return self1)
    by (by apply insert_new).
  assert (Htab1 : _table self1 !! scope
                  = Some (<[text nm1 := sym1]> (leaf_table_of self scope))).
  { unfold self1. by rewrite table_insert_decl_value, leaf_table_of_logged. }
  assert (Hlook1 : leaf_table_of self1 scope !! text nm2 = Some sym1).
  { rewrite (leaf_table_of_present _ _ _ Htab1), Htext. apply lookup_insert_eq. }
  assert (Hty1 : Symbol.type sym1 = first) by apply type_with_decl_value.
  assert (Hval1 : Symbol.value_node sym1 = value_node1).
  { unfold sym1. rewrite value_node_with_decl_value. by destruct value_node1. }
  assert (Hiss1 : _issues self1 = _issues self).
  { unfold self1. rewrite issues_insert_decl_value; simpl.
    rewrite obscured_value_none; [by rewrite app_nil_r | by left]. }
  destruct (SymbolType.derives_from second first) eqn:D.
  - pose (sym := Symbol.set_type sym1 second nm2).
    exists self1,
      (insert_decl_value (logged self1 scope qname2) scope nm2 sym
         decl_node2 value_node2),
      sym1, (with_decl_value sym nm2 decl_node2 value_node2).
    split; [done|]. split.
    { apply insert_narrower; [done | by rewrite Hty1]. }
    split. { eapply get_in_table; [done | apply lookup_insert_eq]. }
    split; [done|]. split.
    { eapply get_in_table; [apply table_insert_decl_value | apply lookup_insert_eq]. }
    split. { by rewrite type_with_decl_value. }
    rewrite issues_insert_decl_value; simpl. split.
    { by rewrite obscured_value_no_type_issue, Hiss1. }
    intros Hnone. rewrite obscured_value_none, app_nil_r; [done|].
    simpl. rewrite Hval1. tauto.
  - destruct Hcmp as [Hc | Hc]; [done|].
    exists self1,
      (insert_decl_value (logged self1 scope qname2) scope nm2 sym1
         decl_node2 value_node2),
      sym1, (with_decl_value sym1 nm2 decl_node2 value_node2).
    split; [done|]. split.
    { apply insert_wider; [done | by rewrite Hty1 | by rewrite Hty1]. }
    split. { eapply get_in_table; [done | apply lookup_insert_eq]. }
    split; [done|]. split.
    { eapply get_in_table; [apply table_insert_decl_value | apply lookup_insert_eq]. }
    split. { by rewrite type_with_decl_value. }
    rewrite issues_insert_decl_value; simpl. split.
    { by rewrite obscured_value_no_type_issue, Hiss1. }
    intros Hnone. rewrite obscured_value_none, app_nil_r; [done|].
    rewrite Hval1. tauto.
Qed.

(** C1: when a symbol exists for the scope and the name and neither type
    derives from the other, [insert] appends exactly one [IncompatibleType]
    issue, which carries the old type, the range of the token that defined
    it, the new type and the range of the new occurrence; the table, and so
    the type, [decl_node], [decl_name] and [value_node] of the symbol, is
    unchanged; the one issue appended is no [ObscuredValue]; and the qname is
    appended to the log. *)
Theorem insert_incompatible_type self scope nm typ decl_node value_node
    leaf_table sym :
  _table self !! scope = Some leaf_table ->
  leaf_table !! text nm = Some sym ->
  SymbolType.derives_from typ (Symbol.type sym) = false ->
  SymbolType.derives_from (Symbol.type sym) typ = false ->
  let qname := QName.mk scope (Some (Leaf nm)) in
  let issue :=
    IncompatibleType (Symbol.type sym) (leaf_range (Symbol.type_name sym))
      typ (leaf_range nm) in
  exists self',
    insert self qname typ decl_node value_node = Return self'
    /\ _issues self' = _issues self ++ [issue]
    /\ is_ObscuredValue issue = false
    /\ _table self' = _table self
    /\ get self' qname = Return ([sym], self')
    /\ _qnames self' = _qnames self ++ [qname].
Proof.
  intros Hscope Hname D1 D2 qname issue.
  eexists. split.
  { apply insert_unrelated; [|done..].
    by rewrite (leaf_table_of_present _ _ _ Hscope). }
  rewrite (logged_present _ _ _ _ Hscope). simpl.
  repeat split; try done.
  unfold get, _leaf_table; simpl. rewrite Hscope; simpl. by rewrite Hname.
Qed.

(** C3: for a name with no symbol yet in the scope and types [A], [B] with
    [B] deriving from [A]: inserting [A] then [B] gives a symbol of type
    [B], and so does inserting [B] then [A]; inserting [A] twice gives a
    symbol of type [A], the type it had after the first insertion.  None of
    the six calls appends an [IncompatibleType] issue, and unless both calls
    of a pair pass a value node they append no issue at all (so none when
    only the qname and the type are passed). *)
Theorem insert_narrowing self scope nm1 nm2 (A B : SymbolType.t)
    decl_node1 value_node1 decl_node2 value_node2 :
  leaf_table_of self scope !! text nm1 = None ->
  text nm2 = text nm1 ->
  SymbolType.derives_from B A = true ->
  let qname1 := QName.mk scope (Some (Leaf nm1)) in
  let qname2 := QName.mk scope (Some (Leaf nm2)) in
  let narrowed (first second : SymbolType.t) (result : SymbolType.t) :=
    exists self1 self2 sym1 sym2,
      insert self qname1 first decl_node1 value_node1 = Return self1
      /\ insert self1 qname2 second decl_node2 value_node2 = Return self2
      /\ get self1 qname1 = Return ([sym1], self1)
      /\ Symbol.type sym1 = first
      /\ get self2 qname2 = Return ([sym2], self2)
      /\ Symbol.type sym2 = result
      /\ filter (fun i => is_IncompatibleType i = true) (_issues self2)
         = filter (fun i => is_IncompatibleType i = true) (_issues self)
      /\ (value_node1 = None \/ value_node2 = None ->
          _issues self2 = _issues self) in
  narrowed A B B /\ narrowed B A B /\ narrowed A A A.
Proof.
  intros Hnew Htext D qname1 qname2 narrowed.
  assert (DA : SymbolType.derives_from A A = true)
    by apply derives_from_refl.
  split; [|split].
  - destruct (insert_twice_comparable self scope nm1 nm2 A B decl_node1
      value_node1 decl_node2 value_node2 Hnew Htext (or_introl D))
      as (self1 & self2 & sym1 & sym2 & H).
    exists self1, self2, sym1, sym2. by rewrite D in H.
  - destruct (insert_twice_comparable self scope nm1 nm2 B A decl_node1
      value_node1 decl_node2 value_node2 Hnew Htext (or_intror D))
      as (self1 & self2 & sym1 & sym2 & H).
    exists self1, self2, sym1, sym2.
    destruct (SymbolType.derives_from A B) eqn:D'; [|done].
    assert (A = B) as -> by (by apply derives_from_antisym).
    done.
  - destruct (insert_twice_comparable self scope nm1 nm2 A A decl_node1
      value_node1 decl_node2 value_node2 Hnew Htext (or_introl DA))
      as (self1 & self2 & sym1 & sym2 & H).
    exists self1, self2, sym1, sym2. by rewrite DA in H.
Qed.

End InsertFacts.

Section ObscuredValue.

Import Scenarios.

(** C4: when [insert] is given a value node for a symbol that has one
    already, and the types do not conflict, it appends exactly one
    [ObscuredValue] warning with the range of the old value node, the range
    of the new one and the name, and the symbol's value node is the new one
    afterwards.  For [const species A = 5; A = 10;] the analyzer ends with
    one symbol, [A] of type [Species]; its value node is the declaration
    item after the first statement and the assignment after the second; the
    only issue is the [ObscuredValue] with the ranges of these two nodes. *)
Theorem insert_obscured_value :
  (forall (self : SymbolTable) (scope : AbstractScope) (nm : LeafNode)
     (typ : SymbolType.t) (decl_node : option TreeNode) (v old : TreeNode)
     (leaf_table : gmap string Symbol.t) (sym : Symbol.t),
     _table self !! scope = Some leaf_table ->
     leaf_table !! text nm = Some sym ->
     Symbol.value_node sym = Some old ->
     SymbolType.derives_from typ (Symbol.type sym) = true
     \/ SymbolType.derives_from (Symbol.type sym) typ = true ->
     let qname := QName.mk scope (Some (Leaf nm)) in
     let issue := ObscuredValue (node_range old) (node_range v) (text nm) in
     exists self' sym',
       insert self qname typ decl_node (Some v) = Return self'
       /\ _issues self' = _issues self ++ [issue]
       /\ issue_severity issue = Warning
       /\ get self' qname = Return ([sym'], self')
       /\ Symbol.value_node sym' = Some v)
  /\ (exists (declared : SymbolTable) (a : AntTreeAnalyzer),
        analyze_child BaseScope SymbolTable_init
          (Some declaration_stmt)
        = Return declared
        /\ _table declared = {[ BaseScope := {[ "A" := symbol_A_declared ]} ]}
        /\ _issues declared = []
        /\ AntTreeAnalyzer_init (linked const_species_root) const_species_root
           = Return a
        /\ _table (table a) = {[ BaseScope := {[ "A" := symbol_A ]} ]}
        /\ get_issues a
           = [ObscuredValue (node_range decl_item) (node_range assignment) "A"]).
Proof.
  split.
  - intros self scope nm typ decl_node v old leaf_table sym Hscope Hname Hold
      Hcmp qname issue.
    assert (Hlook : leaf_table_of self scope !! text nm = Some sym)
      by (by rewrite (leaf_table_of_present _ _ _ Hscope)).
    destruct (SymbolType.derives_from typ (Symbol.type sym)) eqn:D.
    + eexists _, _. split; [by apply insert_narrower|].
      rewrite issues_insert_decl_value; simpl.
      unfold obscured_value; simpl. rewrite Hold.
      repeat split.
      * eapply get_in_table;
          [apply table_insert_decl_value | apply lookup_insert_eq].
      * by rewrite value_node_with_decl_value.
    + destruct Hcmp as [Hc | Hc]; [done|].
      eexists _, _. split; [by apply insert_wider|].
      rewrite issues_insert_decl_value; simpl.
      unfold obscured_value; simpl. rewrite Hold.
      repeat split.
      * eapply get_in_table;
          [apply table_insert_decl_value | apply lookup_insert_eq].
      * by rewrite value_node_with_decl_value.
  - eexists _, _.
    split; [vm_compute; reflexivity|].
    split; [vm_compute; reflexivity|].
    split; [vm_compute; reflexivity|].
    split; [vm_compute; reflexivity|].
    split; vm_compute; reflexivity.
Qed.

End ObscuredValue.

Section InsertWitnesses.

Import Scenarios.

(** The tree used for [const species A = 5; A = 10;] is the one that
    [transform_tree] builds from the tree of the parser. *)
Lemma const_species_root_transformed :
  transform_tree token_range tree_span (Some lark_const_species) 0
  = Return (Some const_species_root, 22%nat).
Proof. vm_compute. reflexivity. Qed.

Lemma insert_incompatible_type_witness :
  exists self',
    insert species_x_table (QName.mk BaseScope (Some (Leaf second_x)))
      SymbolType.Compartment None (Some value_7) = Return self'
    /\ _issues self'
       = [IncompatibleType SymbolType.Species (leaf_range first_x)
            SymbolType.Compartment (leaf_range second_x)]
    /\ is_ObscuredValue
         (IncompatibleType SymbolType.Species (leaf_range first_x)
            SymbolType.Compartment (leaf_range second_x)) = false
    /\ _table self' = _table species_x_table
    /\ get self' (QName.mk BaseScope (Some (Leaf second_x)))
       = Return ([species_x], self')
    /\ _qnames self'
       = [QName.mk BaseScope (Some (Leaf first_x));
          QName.mk BaseScope (Some (Leaf second_x))].
Proof.
  apply (insert_incompatible_type species_x_table BaseScope second_x
           SymbolType.Compartment None (Some value_7)
           {[ "x" := species_x ]} species_x);
    vm_compute; reflexivity.
Defined.

Lemma insert_narrowing_witness :
  SymbolType.derives_from SymbolType.Species SymbolType.Parameter_ = true
  /\ exists self1 self2 sym2,
       insert SymbolTable_init (QName.mk BaseScope (Some (Leaf first_x)))
         SymbolType.Parameter_ None None = Return self1
       /\ insert self1 (QName.mk BaseScope (Some (Leaf second_x)))
            SymbolType.Species None None = Return self2
       /\ get self2 (QName.mk BaseScope (Some (Leaf second_x)))
          = Return ([sym2], self2)
       /\ Symbol.type sym2 = SymbolType.Species
       /\ _issues self2 = [].
Proof.
  split; [reflexivity|].
  destruct (insert_narrowing SymbolTable_init BaseScope first_x second_x
              SymbolType.Parameter_ SymbolType.Species None None None None
              eq_refl eq_refl eq_refl)
    as [(self1 & self2 & sym1 & sym2 & H1 & H2 & _ & _ & H3 & H4 & _ & H5) _].
  exists self1, self2, sym2.
  repeat split; [exact H1 | exact H2 | exact H3 | exact H4 |].
  exact (H5 (or_introl eq_refl)).
Defined.

Lemma insert_obscured_value_witness :
  exists self' sym',
    insert species_x_table (QName.mk BaseScope (Some (Leaf second_x)))
      SymbolType.Parameter_ None (Some value_7) = Return self'
    /\ _issues self'
       = [ObscuredValue (node_range value_5) (node_range value_7) "x"]
    /\ issue_severity
         (ObscuredValue (node_range value_5) (node_range value_7) "x") = Warning
    /\ get self' (QName.mk BaseScope (Some (Leaf second_x)))
       = Return ([sym'], self')
    /\ Symbol.value_node sym' = Some value_7.
Proof.
  apply (proj1 insert_obscured_value species_x_table BaseScope second_x
           SymbolType.Parameter_ None value_7 value_5
           {[ "x" := species_x ]} species_x);
    [vm_compute; reflexivity | vm_compute; reflexivity | reflexivity |].
  right. vm_compute; reflexivity.
Defined.

End InsertWitnesses.

(** * Unique names *)

Section UniqueName.

Local Open Scope nat_scope.

Implicit Types (prefix : string) (used : gset string).

Lemma candidate_inj prefix : Inj (=) (=) (candidate prefix).
Proof.
  intros i j E. unfold candidate in E.
  apply (inj (String.app prefix)) in E. by apply (inj pretty) in E.
Qed.

(** Among the first [size used + 1] candidates one is not in [used]. *)
Lemma candidate_free_exists prefix used :
  exists j, (j <= size used) /\ candidate prefix j ∉ used.
Proof.
  destruct (decide (Exists (fun j => candidate prefix j ∉ used)
                      (seq 0 (S (size used))))) as [E | E].
  - apply Exists_exists in E as (j & Hj & Hfree).
    apply elem_of_seq in Hj. exists j. split; [lia | done].
  - exfalso. apply not_Exists_Forall in E; [|intros j; apply _].
    assert (Hsub : list_to_set (candidate prefix <$> seq 0 (S (size used)))
                   ⊆ used).
    { intros x Hx. apply elem_of_list_to_set, list_elem_of_fmap in Hx
        as (j & -> & Hj).
      rewrite Forall_forall in E. specialize (E j Hj). simpl in E.
      by apply dec_stable in E. }
    apply subseteq_size in Hsub.
    rewrite size_list_to_set in Hsub.
    + rewrite length_fmap, length_seq in Hsub. lia.
    + apply (NoDup_fmap_2 _), NoDup_seq.
Qed.

(** The first candidate that is not in [used]. *)
Lemma candidate_first_free prefix used :
  exists k, (k <= size used)
    /\ (candidate prefix k ∉ used)
    /\ forall j, j < k -> candidate prefix j ∈ used.
Proof.
  destruct (candidate_free_exists prefix used) as (j & Hj & Hfree).
  revert Hj Hfree. generalize (size used) as n. intros n.
  induction j as [j IH] using lt_wf_ind. intros Hj Hfree.
  destruct (decide (Exists (fun i => candidate prefix i ∉ used) (seq 0 j)))
    as [E | E].
  - apply Exists_exists in E as (i & Hi & Hfree').
    apply elem_of_seq in Hi. apply (IH i); [lia | lia | done].
  - exists j. split; [done|]. split; [done|].
    intros i Hi. apply not_Exists_Forall in E; [|intros ?; apply _].
    rewrite Forall_forall in E.
    assert (Hin : i ∈ seq 0 j) by (apply elem_of_seq; lia).
    specialize (E i Hin). simpl in E. by apply dec_stable in E.
Qed.

(** The loop returns the first free candidate at or after [i], as soon as
    the fuel reaches past it. *)
Lemma probe_first_free prefix used d : forall i fuel,
  candidate prefix (i + d) ∉ used ->
  (forall j, i <= j < i + d -> candidate prefix j ∈ used) ->
  d < fuel ->
  probe fuel prefix used i = Some (candidate prefix (i + d)).
Proof.
  induction d as [|d IH]; intros i fuel Hfree Hused Hfuel.
  - destruct fuel as [|fuel]; [lia|]. simpl.
    rewrite Nat.add_0_r in Hfree. fold (candidate prefix i).
    rewrite bool_decide_eq_true_2 by done. by rewrite Nat.add_0_r.
  - destruct fuel as [|fuel]; [lia|]. simpl. fold (candidate prefix i).
    rewrite bool_decide_eq_false_2.
    + replace (i + S d) with ((i + 1) + d) by lia.
      apply IH; [by replace (i + 1 + d) with (i + S d) by lia | | lia].
      intros j Hj. apply Hused. lia.
    + intros Hn. apply Hn, Hused. lia.
Qed.

Lemma probe_spec prefix used :
  exists k, (k <= size used)
    /\ (candidate prefix k ∉ used)
    /\ (forall j, j < k -> candidate prefix j ∈ used)
    /\ forall fuel, k < fuel -> probe fuel prefix used 0 = Some (candidate prefix k).
Proof.
  destruct (candidate_first_free prefix used) as (k & Hk & Hfree & Hused).
  exists k. repeat split; try done.
  intros fuel Hfuel.
  apply (probe_first_free prefix used k 0 fuel); [done | | done].
  intros j Hj. apply Hused. lia.
Qed.

Lemma elem_of_get_all_names (self : SymbolTable) (x : string) :
  x ∈ get_all_names self
  <-> exists scope leaf_table,
        _table self !! scope = Some leaf_table /\ is_Some (leaf_table !! x).
Proof.
  unfold get_all_names. rewrite elem_of_union_list. split.
  - intros (X & HX & Hx). apply list_elem_of_fmap in HX as ([scope lt] & -> & Hin).
    apply elem_of_map_to_list in Hin. exists scope, lt. split; [done|].
    by apply elem_of_dom.
  - intros (scope & lt & Hscope & Hx). exists (dom lt). split.
    + apply list_elem_of_fmap. exists (scope, lt). split; [done|].
      by apply elem_of_map_to_list.
    + by apply elem_of_dom.
Qed.

(** C9: [get_all_names] holds the names of every scope.  Without a scope,
    [get_unique_name] returns [prefix] followed by the least [k] whose
    candidate is not among them: that name is not in the table, every
    candidate before it is, and the loop ends after [k + 1] rounds.  With a
    scope the same holds for the names of that scope's dictionary.  With the
    names [k0] and [k1] in the table, [get_unique_name("k")] is [k2]. *)
Theorem get_unique_name_first_unused (self : SymbolTable) (prefix : string) :
  (forall x,
     x ∈ get_all_names self
     <-> exists scope leaf_table,
           _table self !! scope = Some leaf_table /\ is_Some (leaf_table !! x))
  /\ (exists k,
        (candidate prefix k ∉ get_all_names self)
        /\ (forall j, j < k -> candidate prefix j ∈ get_all_names self)
        /\ forall fuel, k < fuel ->
             get_unique_name fuel self prefix None
             = Some (candidate prefix k, self))
  /\ (forall scope, exists k,
        leaf_table_of self scope !! candidate prefix k = None
        /\ (forall j, j < k ->
              is_Some (leaf_table_of self scope !! candidate prefix j))
        /\ forall fuel, k < fuel ->
             get_unique_name fuel self prefix (Some scope)
             = Some (candidate prefix k, (_leaf_table self scope).2))
  /\ get_all_names Scenarios.names_k0_k1 = {[ "k0"; "k1" ]}
  /\ get_unique_name 3 Scenarios.names_k0_k1 "k" None
     = Some ("k2", Scenarios.names_k0_k1).
Proof.
  split; [apply elem_of_get_all_names|]. split; [|split].
  - destruct (probe_spec prefix (get_all_names self)) as (k & _ & Hfree & Hused & Hp).
    exists k. repeat split; try done.
    intros fuel Hfuel. unfold get_unique_name. by rewrite (Hp fuel Hfuel).
  - intros scope.
    destruct (probe_spec prefix (dom (leaf_table_of self scope)))
      as (k & _ & Hfree & Hused & Hp).
    exists k. split; [by apply not_elem_of_dom|]. split.
    + intros j Hj. by apply elem_of_dom, Hused.
    + intros fuel Hfuel. unfold get_unique_name.
      rewrite (surjective_pairing (_leaf_table self scope)), _leaf_table_fst.
      by rewrite (Hp fuel Hfuel).
  - split; by vm_compute.
Qed.

End UniqueName.

(** * Induction on trees *)

Section TreeInduction.

Variable P : TreeNode -> Prop.
Hypothesis Pleaf : forall l, P (Leaf l).
Hypothesis Ptrunk : forall id cls range children,
  Forall (fun c => match c with Some n => P n | None => True end) children ->
  P (Trunk id cls range children).

Fixpoint TreeNode_children_ind (n : TreeNode) : P n :=
  match n with
  | Leaf l => Pleaf l
  | Trunk id cls range children =>
      Ptrunk id cls range children
        ((fix over (cs : list (option TreeNode))
            : Forall (fun c => match c with Some n => P n | None => True end) cs :=
            match cs with
            | [] => Forall_nil_2 _
            | None :: cs' => Forall_cons_2 _ None cs' I (over cs')
            | Some c :: cs' =>
                Forall_cons_2 _ (Some c) cs' (TreeNode_children_ind c) (over cs')
            end) children)
  end.

End TreeInduction.

Lemma scan_leaves_trunk id cls range children :
  scan_leaves (Trunk id cls range children) = children_leaves children.
Proof.
  unfold children_leaves. simpl.
  induction children as [|[c|] cs IH]; simpl; [done | by rewrite IH | done].
Qed.

(** [last_leaf] follows the loop over [reversed(self.children)]: the first
    child, from the right, that gives a leaf. *)
Lemma last_leaf_reversed id cls range children :
  last_leaf (Trunk id cls range children)
  = head (omap (fun c => c ≫= last_leaf) (reverse children)).
Proof.
  simpl. induction children as [|c cs IH]; [done|].
  rewrite reverse_cons, omap_app, IH.
  destruct (omap _ (reverse cs)) as [|x xs]; simpl; [|done].
  destruct c as [c0|]; simpl; [by destruct (last_leaf c0) | done].
Qed.

(** [last_leaf] is the last of the leaves in source order. *)
Lemma last_leaf_last (n : TreeNode) : last_leaf n = last (scan_leaves n).
Proof.
  induction n as [l | id cls range children IH] using TreeNode_children_ind;
    [done|].
  rewrite scan_leaves_trunk. unfold children_leaves. simpl.
  induction children as [|c cs IHcs]; [done|].
  apply Forall_cons in IH as [Hc Hcs]. specialize (IHcs Hcs).
  simpl. rewrite IHcs, last_app.
  destruct (last (flat_map _ cs)); [done|].
  destruct c; [done|]. done.
Qed.

(** * Syntax issues *)

Section SyntaxIssues.

Import Scenarios.

Implicit Types (h : Heap) (flagged : gset Z) (issues : list Issue).

(** The loop of [_record_syntax_issues] keeps the first issue of each line. *)
Lemma fold_record_child h children flagged issues :
  fold_left (record_child h) children (flagged, issues)
  = (flagged ∪ list_to_set (issue_line <$> candidate_issues h children),
     issues ++ first_per_line flagged (candidate_issues h children)).
Proof.
  revert flagged issues.
  induction children as [|c cs IH]; intros flagged issues; simpl.
  - f_equal; [set_solver | by rewrite app_nil_r].
  - unfold candidate_issues in *; simpl.
    destruct c as [node|]; simpl; [|apply IH].
    destruct (syntax_issue_of h node) as [issue|] eqn:E; simpl; [|apply IH].
    fold (issue_line issue).
    destruct (decide (issue_line issue ∈ flagged)) as [Hin | Hin].
    + rewrite bool_decide_eq_false_2 by tauto.
      rewrite bool_decide_eq_true_2 by done.
      rewrite IH. f_equal. set_solver.
    + rewrite bool_decide_eq_true_2 by done.
      rewrite bool_decide_eq_false_2 by done.
      rewrite IH. f_equal; [set_solver | by rewrite <- app_assoc].
Qed.

Lemma first_per_line_unflagged flagged issues r :
  r ∈ first_per_line flagged issues -> issue_line r ∉ flagged.
Proof.
  revert flagged. induction issues as [|i is' IH]; intros flagged; simpl.
  - by intros ?%elem_of_nil.
  - case_bool_decide as Hin; [apply IH|].
    intros [-> | Hr]%elem_of_cons; [done|].
    apply IH in Hr. set_solver.
Qed.

Lemma first_per_line_NoDup flagged issues :
  NoDup (issue_line <$> first_per_line flagged issues).
Proof.
  revert flagged. induction issues as [|i is' IH]; intros flagged; simpl.
  - constructor.
  - case_bool_decide as Hin; [apply IH|].
    rewrite fmap_cons. constructor; [|apply IH].
    intros (r & Hline & Hr)%list_elem_of_fmap.
    apply first_per_line_unflagged in Hr. set_solver.
Qed.

Lemma first_per_line_sublist flagged issues :
  sublist (first_per_line flagged issues) issues.
Proof.
  revert flagged. induction issues as [|i is' IH]; intros flagged; simpl.
  - constructor.
  - case_bool_decide; [by apply sublist_cons | by apply sublist_skip].
Qed.

(** An issue is kept exactly when it is the first of the candidates on its
    line and that line was not flagged before. *)
Lemma first_per_line_first flagged issues r :
  r ∈ first_per_line flagged issues
  <-> find (fun c => bool_decide (issue_line c = issue_line r)) issues = Some r
      /\ issue_line r ∉ flagged.
Proof.
  revert flagged. induction issues as [|i is' IH]; intros flagged; simpl.
  - split; [by intros ?%elem_of_nil | by intros [? _]].
  - case_bool_decide as Hin.
    + rewrite IH. case_bool_decide as Heq; [|done].
      split; [intros [_ Hr]; congruence|].
      intros [[= ->] Hr]. done.
    + rewrite elem_of_cons, IH. case_bool_decide as Heq.
      * split.
        -- intros [-> | [_ Hr]]; [done | set_solver].
        -- intros [[= ->] _]. by left.
      * split.
        -- intros [-> | [Hf Hr]]; [done|]. split; [done | set_solver].
        -- intros [Hf Hr]. right. split; [done | set_solver].
Qed.

(** Every line that has a candidate has an issue. *)
Lemma first_per_line_covers flagged issues c :
  c ∈ issues -> issue_line c ∉ flagged ->
  exists r, r ∈ first_per_line flagged issues /\ issue_line r = issue_line c.
Proof.
  revert flagged. induction issues as [|i is' IH]; intros flagged; simpl.
  - by intros ?%elem_of_nil.
  - intros [-> | Hc]%elem_of_cons Hline.
    + rewrite bool_decide_eq_false_2 by done. exists i. split; [left | done].
    + case_bool_decide as Hin; [by apply IH|].
      destruct (decide (issue_line c = issue_line i)) as [E | E].
      * exists i. split; [left | done].
      * destruct (IH ({[issue_line i]} ∪ flagged) Hc) as (r & Hr & Hl);
          [set_solver|].
        exists r. split; [by right | done].
Qed.

Lemma filter_none {A : Type} (P : A -> Prop) `{forall x, Decision (P x)}
    (l : list A) :
  (forall x, x ∈ l -> ~ P x) -> filter P l = [].
Proof.
  induction l as [|x l IH]; intros Hl; [done|].
  rewrite filter_cons_False by (apply Hl; left).
  apply IH. intros y Hy. apply Hl. by right.
Qed.

(** On a line that is not flagged and on which [c] is the first candidate,
    [c] is the one issue kept. *)
Lemma first_per_line_on_line flagged pre c post :
  issue_line c ∉ flagged ->
  Forall (fun i => issue_line i <> issue_line c) pre ->
  filter (fun i => issue_line i = issue_line c)
    (first_per_line flagged (pre ++ c :: post)) = [c].
Proof.
  revert flagged. induction pre as [|i pre IH]; intros flagged Hline Hpre; simpl.
  - rewrite bool_decide_eq_false_2 by done.
    rewrite filter_cons_True by done. f_equal.
    apply filter_none. intros r Hr Heq.
    apply first_per_line_unflagged in Hr. set_solver.
  - apply Forall_cons in Hpre as [Hi Hpre].
    case_bool_decide as Hin; [by apply IH|].
    rewrite filter_cons_False by done. apply IH; [set_solver | done].
Qed.

(** C6: the syntax-issue pass keeps, among the issues that the children of
    the root give rise to, the first one of each line, in the order of the
    children: no two recorded issues start on the same line; the recorded
    issues are a sublist of the candidates; an issue is recorded exactly
    when it is the first candidate on its line; and every line with a
    candidate has a recorded issue.  In particular, when a non-whitespace
    [ErrorToken] is the first child with an issue on its line, the one issue
    recorded for that line is the [UnexpectedTokenIssue] of that token,
    whatever follows it on the line. *)
Theorem syntax_issues_one_per_line h id cls range :
  (forall children,
     let candidates := candidate_issues h children in
     exists issues,
       _record_syntax_issues h (Trunk id cls range children) = Return issues
       /\ issues = first_per_line ∅ candidates
       /\ NoDup (issue_line <$> issues)
       /\ sublist issues candidates
       /\ (forall r,
             r ∈ issues
             <-> find (fun c => bool_decide (issue_line c = issue_line r))
                   candidates = Some r)
       /\ (forall c, c ∈ candidates ->
             exists r, r ∈ issues /\ issue_line r = issue_line c))
  /\ (forall pre e1 post issues,
        leaf_cls e1 = ErrorToken ->
        strip (text e1) <> EmptyString ->
        Forall (fun i => issue_line i <> line (start (leaf_range e1)))
          (candidate_issues h pre) ->
        _record_syntax_issues h
          (Trunk id cls range (pre ++ Some (Leaf e1) :: post)) = Return issues ->
        filter (fun i => issue_line i = line (start (leaf_range e1))) issues
        = [UnexpectedTokenIssue (leaf_range e1) (text e1)]).
Proof.
  split.
  - intros children candidates.
    exists (first_per_line ∅ candidates).
    split.
    { unfold _record_syntax_issues; simpl.
      by rewrite fold_record_child. }
    split; [done|]. split; [apply first_per_line_NoDup|].
    split; [apply first_per_line_sublist|]. split.
    + intros r. rewrite first_per_line_first. set_solver.
    + intros c Hc. by apply first_per_line_covers.
  - intros pre e1 post issues Hcls Htext Hpre.
    unfold _record_syntax_issues; simpl. rewrite fold_record_child; simpl.
    intros [= <-].
    unfold candidate_issues. rewrite omap_app; simpl.
    rewrite Hcls, bool_decide_eq_true_2 by done.
    rewrite bool_decide_eq_false_2 by done.
    change (line (start (leaf_range e1)))
      with (issue_line (UnexpectedTokenIssue (leaf_range e1) (text e1))).
    by apply first_per_line_on_line.
Qed.

Lemma syntax_issues_one_per_line_witness :
  _record_syntax_issues (linked two_errors_root) two_errors_root
  = Return [UnexpectedTokenIssue (rng 1 1 2) "?"]
  /\ filter (fun i => issue_line i = 1)
       [UnexpectedTokenIssue (rng 1 1 2) "?"]
     = [UnexpectedTokenIssue (rng 1 1 2) "?"].
Proof.
  split; [vm_compute; reflexivity|].
  apply (proj2 (syntax_issues_one_per_line (linked two_errors_root) 2 FileNode
                  (rng 1 1 4))
           [] (leaf 0 ErrorToken 1 1 2 "?")
           [Some (Leaf (leaf 1 ErrorToken 1 3 4 "!"))]
           [UnexpectedTokenIssue (rng 1 1 2) "?"]).
  - reflexivity.
  - vm_compute. discriminate.
  - constructor.
  - vm_compute; reflexivity.
Defined.

Lemma lstrip_empty (s : string) : lstrip s = EmptyString <-> whitespace_only s.
Proof.
  unfold whitespace_only. induction s as [|c s IH]; simpl.
  - split; [constructor | done].
  - rewrite Forall_cons. destruct (isspace c); [rewrite IH; tauto|].
    split; [done | by intros [? _]].
Qed.

Lemma rstrip_empty (s : string) : rstrip s = EmptyString <-> whitespace_only s.
Proof.
  unfold whitespace_only. induction s as [|c s IH]; simpl.
  - split; [constructor | done].
  - rewrite Forall_cons. destruct (rstrip s) as [|c' r].
    + destruct (isspace c); [tauto|]. split; [done | by intros [? _]].
    + split; [done|]. intros [_ Hs]. by apply IH in Hs.
Qed.

Lemma rstrip_whitespace_only (s : string) :
  whitespace_only (rstrip s) <-> whitespace_only s.
Proof.
  induction s as [|c s IH]; simpl; [done|].
  pose proof (rstrip_empty s) as Hs.
  unfold whitespace_only in *; simpl.
  destruct (rstrip s) as [|c' r].
  - rewrite Forall_cons. destruct (isspace c) eqn:Hc; simpl.
    + split; [intros _; split; [done | by apply Hs] | constructor].
    + rewrite Forall_cons. rewrite Hc. split; intros [? _]; done.
  - simpl in *. rewrite !Forall_cons in *. tauto.
Qed.

(** [text.strip() == ''] holds exactly for a text of white space only. *)
Lemma strip_empty (s : string) : strip s = EmptyString <-> whitespace_only s.
Proof.
  unfold strip. by rewrite lstrip_empty, rstrip_whitespace_only.
Qed.

(** C7: in the syntax-issue pass, an [ErrorNode] whose last leaf has no
    [next] gives an [UnexpectedEOFIssue] with the range of that leaf, and an
    [ErrorNode] whose last leaf has a [next] gives no issue; an [ErrorToken]
    of white space only gives an [UnexpectedNewlineIssue] at its start, and
    any other [ErrorToken] an [UnexpectedTokenIssue] with its range and its
    text.  The issue of a child is appended once when its line has no issue
    yet (the rule of one issue per line drops it otherwise), and a child
    without issue leaves the state as it is.  [last_leaf] is the last leaf
    of the node in source order.  For a file that ends after [a =] the pass
    records the one [UnexpectedEOFIssue], at [=]; for [a = ?] and a line end
    it records the token and the line end, and nothing for the node. *)
Theorem syntax_issue_per_child h :
  (forall id range children last,
     last_leaf (Trunk id ErrorNode range children) = Some last ->
     next h !! leaf_id last = None ->
     syntax_issue_of h (Trunk id ErrorNode range children)
     = Some (UnexpectedEOFIssue (leaf_range last))
     /\ issue_range (UnexpectedEOFIssue (leaf_range last)) = leaf_range last)
  /\ (forall id range children last,
        last_leaf (Trunk id ErrorNode range children) = Some last ->
        is_Some (next h !! leaf_id last) ->
        syntax_issue_of h (Trunk id ErrorNode range children) = None)
  /\ (forall l,
        leaf_cls l = ErrorToken -> whitespace_only (text l) ->
        syntax_issue_of h (Leaf l)
        = Some (UnexpectedNewlineIssue (start (leaf_range l)))
        /\ start (issue_range (UnexpectedNewlineIssue (start (leaf_range l))))
           = start (leaf_range l))
  /\ (forall l,
        leaf_cls l = ErrorToken -> ~ whitespace_only (text l) ->
        syntax_issue_of h (Leaf l)
        = Some (UnexpectedTokenIssue (leaf_range l) (text l))
        /\ issue_range (UnexpectedTokenIssue (leaf_range l) (text l))
           = leaf_range l
        /\ issue_message (UnexpectedTokenIssue (leaf_range l) (text l))
           = "Unexpected token '" +:+ text l +:+ "'")
  /\ (forall flagged issues node issue,
        syntax_issue_of h node = Some issue ->
        issue_line issue ∉ flagged ->
        record_child h (flagged, issues) (Some node)
        = ({[ issue_line issue ]} ∪ flagged, issues ++ [issue]))
  /\ (forall flagged issues node,
        syntax_issue_of h node = None ->
        record_child h (flagged, issues) (Some node) = (flagged, issues))
  /\ (forall node, last_leaf node = last (scan_leaves node))
  /\ _record_syntax_issues (linked eof_root) eof_root
     = Return [UnexpectedEOFIssue (leaf_range dangling_equal)]
  /\ _record_syntax_issues (linked unexpected_root) unexpected_root
     = Return [UnexpectedTokenIssue (leaf_range question_mark) "?";
               UnexpectedNewlineIssue (start (leaf_range newline_token))].
Proof.
  split.
  { intros id range children last Hlast Hnext. split; [|done].
    unfold syntax_issue_of. by rewrite Hlast, Hnext. }
  split.
  { intros id range children last Hlast [l Hnext].
    unfold syntax_issue_of. by rewrite Hlast, Hnext. }
  split.
  { intros l Hcls Hws. split; [|done]. unfold syntax_issue_of.
    rewrite Hcls, bool_decide_eq_true_2 by done.
    by rewrite bool_decide_eq_true_2 by (by apply strip_empty). }
  split.
  { intros l Hcls Hws. split; [|done]. unfold syntax_issue_of.
    rewrite Hcls, bool_decide_eq_true_2 by done.
    rewrite bool_decide_eq_false_2; [done|].
    intros Hs. by apply Hws, strip_empty. }
  split.
  { intros flagged issues node issue Hissue Hline.
    unfold record_child. rewrite Hissue; simpl.
    by rewrite bool_decide_eq_true_2. }
  split.
  { intros flagged issues node Hissue.
    unfold record_child. by rewrite Hissue. }
  split; [apply last_leaf_last|].
  split; vm_compute; reflexivity.
Qed.

Lemma syntax_issue_per_child_witness :
  syntax_issue_of (linked eof_root) dangling_node
  = Some (UnexpectedEOFIssue (leaf_range dangling_equal))
  /\ syntax_issue_of (linked unexpected_root) dangling_node = None
  /\ syntax_issue_of (linked unexpected_root) (Leaf newline_token)
     = Some (UnexpectedNewlineIssue (start (leaf_range newline_token)))
  /\ syntax_issue_of (linked unexpected_root) (Leaf question_mark)
     = Some (UnexpectedTokenIssue (leaf_range question_mark) "?").
Proof.
  split.
  { apply (proj1 (syntax_issue_per_child (linked eof_root)) 4%nat (rng 1 1 4)
             _ dangling_equal); vm_compute; reflexivity. }
  split.
  { apply (proj1 (proj2 (syntax_issue_per_child (linked unexpected_root)))
             4%nat (rng 1 1 4) _ dangling_equal);
      [vm_compute; reflexivity | vm_compute; eauto]. }
  split.
  { apply (proj1 (proj2 (proj2 (syntax_issue_per_child (linked unexpected_root))))
             newline_token); [reflexivity|].
    repeat constructor. }
  apply (proj1 (proj2 (proj2 (proj2
           (syntax_issue_per_child (linked unexpected_root))))) question_mark);
    [reflexivity|].
  intros Hws. apply Forall_cons in Hws as [Hc _]. vm_compute in Hc. discriminate.
Defined.

End SyntaxIssues.

(** * The position query *)

Section PositionQueryFacts.

Import Scenarios.

Variable node_str : TreeNode -> string.

Implicit Types (pos : SrcPosition) (model func : option TreeNode).

(** The search for the child to descend into, once the class of the node
    has been handled. *)
Lemma qname_from_plain pos id cls range children model func :
  is_scope_class cls = false ->
  qname_from node_str pos (Trunk id cls range children) model func
  = (fix over (cs : list (option TreeNode)) : Result (option QName.t) :=
       match cs with
       | [] => Return None
       | None :: cs' => over cs'
       | Some child :: cs' =>
           if within_range pos child
           then qname_from node_str pos child model func
           else over cs'
       end) children.
Proof. intros Hcls. by destruct cls. Qed.





End PositionQueryFacts.

Section PositionQueryOnTrees.

Import Scenarios.





End PositionQueryOnTrees.

(** * The scope of the analysis *)

Section AnalysisScope.

Import Scenarios.

Implicit Types (self table : SymbolTable) (scope : AbstractScope).

Lemma bind_Return {A B : Type} (m : Result A) (k : A -> Result B) (b : B) :
  bind m k = Return b -> exists a, m = Return a /\ k a = Return b.
Proof. destruct m as [a|e]; [eauto | done]. Qed.

Ltac bind_inv H :=
  repeat match type of H with
  | bind _ _ = Return _ =>
      let a := fresh "a" in
      let Ha := fresh "Ha" in
      apply bind_Return in H as (a & Ha & H)
  end.

Lemma for_each_invariant {S A : Type} (I : S -> Prop)
    (body : S -> A -> Result S) (l : list A) :
  (forall s x s', body s x = Return s' -> I s -> I s') ->
  forall s s', for_each body l s = Return s' -> I s -> I s'.
Proof.
  intros Hbody. induction l as [|x l IH]; intros s s' H Hs; simpl in H.
  - by simplify_eq.
  - bind_inv H. eapply IH; [done|]. by eapply Hbody.
Qed.

(** [insert] for the name of a leaf returns, touches the dictionary of the
    scope of the qname only, and logs the qname. *)
Lemma insert_leaf_name self scope nm typ decl_node value_node :
  let qname := QName.mk scope (Some (Leaf nm)) in
  exists self',
    insert self qname typ decl_node value_node = Return self'
    /\ dom (_table self') = {[ scope ]} ∪ dom (_table self)
    /\ _qnames self' = _qnames self ++ [qname].
Proof.
  intros qname.
  destruct (leaf_table_of self scope !! text nm) as [sym|] eqn:Hlook.
  - destruct (SymbolType.derives_from typ (Symbol.type sym)) eqn:D1;
      [|destruct (SymbolType.derives_from (Symbol.type sym) typ) eqn:D2].
    + eexists. split; [by apply insert_narrower|].
      rewrite insert_decl_value_eq; simpl. rewrite !dom_insert_L.
      split; [set_solver | done].
    + eexists. split; [by apply insert_wider|].
      rewrite insert_decl_value_eq; simpl. rewrite !dom_insert_L.
      split; [set_solver | done].
    + eexists. split; [by apply insert_unrelated|].
      simpl. rewrite dom_insert_L. done.
  - eexists. split; [by apply insert_new|].
    rewrite insert_decl_value_eq; simpl. rewrite !dom_insert_L.
    split; [set_solver | done].
Qed.

Lemma insert_only_scope self self' scope name typ decl_node value_node :
  insert self (QName.mk scope name) typ decl_node value_node = Return self' ->
  only_scope scope self -> only_scope scope self'.
Proof.
  intros H [Hdom Hlog].
  destruct name as [[nm | id cls range children]|];
    [| unfold insert in H; simpl in H; by destruct (_leaf_table _ _) | done].
  destruct (insert_leaf_name self scope nm typ decl_node value_node)
    as (self'' & Hins & Hdom' & Hlog').
  rewrite Hins in H. injection H as <-. split.
  - rewrite Hdom'. set_solver.
  - rewrite Hlog'. apply Forall_app. split; [done|]. by constructor.
Qed.

Lemma insert_annotation_only_scope self self' scope name node :
  insert_annotation self (QName.mk scope name) node = Return self' ->
  only_scope scope self -> only_scope scope self'.
Proof.
  intros H [Hdom Hlog]. unfold insert_annotation in H; simpl in H.
  rewrite (surjective_pairing (_leaf_table self scope)), _leaf_table_snd in H.
  bind_inv H.
  destruct name as [[nm | id cls range children]|]; [| done | done].
  injection H as <-. split; simpl; [|done].
  rewrite !dom_insert_L. set_solver.
Qed.

Lemma handle_arith_expr_only_scope table table' scope expr :
  handle_arith_expr table scope expr = Return table' ->
  only_scope scope table -> only_scope scope table'.
Proof.
  intros H Hinv. unfold handle_arith_expr in H.
  destruct expr as [[leaf | id cls range children]|].
  - destruct (is_Name leaf); [(eapply insert_only_scope; eauto)|]. by simplify_eq.
  - eapply (for_each_invariant (only_scope scope)); [|exact H | done].
    intros s leaf s' Hbody Hs. simpl in Hbody.
    destruct (is_Name leaf); [(eapply insert_only_scope; eauto) | by simplify_eq].
  - by simplify_eq.
Qed.

Lemma handle_child_incomp_only_scope table table' scope node :
  handle_child_incomp table scope node = Return table' ->
  only_scope scope table -> only_scope scope table'.
Proof.
  intros H Hinv. unfold handle_child_incomp in H. bind_inv H.
  eapply (for_each_invariant (only_scope scope)); [|exact H | done].
  intros s child s' Hbody Hs. simpl in Hbody.
  destruct child as [l | id cls range children]; [by simplify_eq|].
  destruct cls; try (by simplify_eq).
  bind_inv Hbody. (eapply insert_only_scope; eauto).
Qed.

Lemma handle_reaction_only_scope table table' scope reaction :
  handle_reaction table scope reaction = Return table' ->
  only_scope scope table -> only_scope scope table'.
Proof.
  intros H Hinv. unfold handle_reaction in H. bind_inv H.
  eapply handle_arith_expr_only_scope; [exact H|].
  eapply (for_each_invariant (only_scope scope)); [|exact Ha3|].
  - intros s species s' Hbody Hs. simpl in Hbody. bind_inv Hbody.
    (eapply insert_only_scope; eauto).
  - destruct a as [name|]; [(eapply insert_only_scope; eauto) | by simplify_eq].
Qed.

Lemma handle_assignment_only_scope table table' scope assignment :
  handle_assignment table scope assignment = Return table' ->
  only_scope scope table -> only_scope scope table'.
Proof.
  intros H Hinv. unfold handle_assignment in H. bind_inv H.
  eapply handle_arith_expr_only_scope; [exact H|].
  (eapply insert_only_scope; eauto).
Qed.

Lemma handle_declaration_only_scope table table' scope declaration :
  handle_declaration table scope declaration = Return table' ->
  only_scope scope table -> only_scope scope table'.
Proof.
  intros H Hinv. unfold handle_declaration in H. bind_inv H.
  eapply (for_each_invariant (only_scope scope)); [|exact H | done].
  intros s item s' Hbody Hs. simpl in Hbody. bind_inv Hbody.
  assert (only_scope scope a7) by ((eapply insert_only_scope; eauto)).
  destruct a6; [(eapply handle_arith_expr_only_scope; eauto) | by simplify_eq].
Qed.

Lemma handle_annotation_only_scope table table' scope annotation :
  handle_annotation table scope annotation = Return table' ->
  only_scope scope table -> only_scope scope table'.
Proof.
  intros H Hinv. unfold handle_annotation in H. bind_inv H.
  eapply insert_annotation_only_scope; [exact H|].
  (eapply insert_only_scope; eauto).
Qed.

Lemma analyze_child_only_scope table table' scope child :
  analyze_child scope table child = Return table' ->
  only_scope scope table -> only_scope scope table'.
Proof.
  intros H Hinv. unfold analyze_child in H.
  destruct child as [[l | id cls range children]|];
    [by simplify_eq | | by simplify_eq].
  destruct cls; try (by simplify_eq).
  bind_inv H.
  destruct a as [[l | id' cls' range' children']|];
    [done | | by simplify_eq].
  bind_inv H.
  eapply handle_child_incomp_only_scope; [exact H|].
  destruct cls'; try done.
  - (eapply handle_reaction_only_scope; eauto).
  - (eapply handle_assignment_only_scope; eauto).
  - (eapply handle_declaration_only_scope; eauto).
  - (eapply handle_annotation_only_scope; eauto).
Qed.

Lemma SymbolTable_init_only_scope scope : only_scope scope SymbolTable_init.
Proof. split; simpl; [set_solver | constructor]. Qed.

(** C10: everything the analyzer builds lives in [BaseScope].  When
    [AntTreeAnalyzer.__init__] returns, the table has no dictionary for any
    other scope, so every symbol is stored under [BaseScope], and every
    qname in the log has [BaseScope].  Each handler, the compartment scan
    and the expression scan insert under the scope they are given and under
    no other, and [__init__] gives them [BaseScope]. *)
Theorem analyzer_only_base_scope :
  (forall h root a,
     AntTreeAnalyzer_init h root = Return a ->
     dom (_table (table a)) ⊆ {[ BaseScope ]}
     /\ Forall (fun q => QName.scope q = BaseScope) (get_all_qnames (table a))
     /\ (forall scope leaf_table name sym,
           _table (table a) !! scope = Some leaf_table ->
           leaf_table !! name = Some sym -> scope = BaseScope))
  /\ (forall scope table table' node,
        only_scope scope table ->
        (handle_reaction table scope node = Return table'
         \/ handle_assignment table scope node = Return table'
         \/ handle_declaration table scope node = Return table'
         \/ handle_annotation table scope node = Return table'
         \/ handle_child_incomp table scope node = Return table'
         \/ handle_arith_expr table scope (Some node) = Return table') ->
        only_scope scope table')
  /\ (forall table table' child,
        only_scope BaseScope table ->
        analyze_child BaseScope table child = Return table' ->
        only_scope BaseScope table').
Proof.
  split; [|split].
  - intros h root a H. unfold AntTreeAnalyzer_init in H. bind_inv H.
    injection H as <-; simpl.
    assert (Hinv : only_scope BaseScope a1).
    { eapply (for_each_invariant (only_scope BaseScope)); [|exact Ha0|].
      - intros s child s' Hbody Hs. by eapply analyze_child_only_scope.
      - apply SymbolTable_init_only_scope. }
    destruct Hinv as [Hdom Hlog]. split; [done|]. split; [done|].
    intros scope leaf_table name sym Hscope _.
    assert (Hin : scope ∈ dom (_table a1)) by (by apply elem_of_dom).
    set_solver.
  - intros scope table table' node Hinv [H | [H | [H | [H | [H | H]]]]].
    + by eapply handle_reaction_only_scope.
    + by eapply handle_assignment_only_scope.
    + by eapply handle_declaration_only_scope.
    + by eapply handle_annotation_only_scope.
    + by eapply handle_child_incomp_only_scope.
    + by eapply handle_arith_expr_only_scope.
  - intros table table' child Hinv H.
    by eapply analyze_child_only_scope.
Qed.

Lemma analyzer_only_base_scope_witness :
  exists a,
    AntTreeAnalyzer_init (linked const_species_root) const_species_root = Return a
    /\ dom (_table (table a)) ⊆ {[ BaseScope ]}
    /\ Forall (fun q => QName.scope q = BaseScope) (get_all_qnames (table a))
    /\ (forall scope leaf_table name sym,
          _table (table a) !! scope = Some leaf_table ->
          leaf_table !! name = Some sym -> scope = BaseScope).
Proof.
  eexists. split; [vm_compute; reflexivity|].
  apply (proj1 analyzer_only_base_scope (linked const_species_root)
           const_species_root).
  vm_compute; reflexivity.
Defined.

End AnalysisScope.

(** * The leaf chain *)

Section LeafChain.

Import Scenarios.

Local Open Scope nat_scope.

Implicit Types (h : Heap) (last : option LeafNode) (leaves : list LeafNode).

Lemma link_leaves_app leaves1 leaves2 last h :
  link_leaves (leaves1 ++ leaves2) last h
  = link_leaves leaves2 (link_leaves leaves1 last h).2
      (link_leaves leaves1 last h).1.
Proof.
  revert last h. induction leaves1 as [|l ls IH]; intros last h; [done|].
  simpl. apply IH.
Qed.

Lemma link_leaves_snd leaves last h :
  (link_leaves leaves last h).2
  = match list.last leaves with
    | Some l => Some l
    | None => last
    end.
Proof.
  revert last h. induction leaves as [|l ls IH]; intros last h; [done|].
  simpl. rewrite IH, last_cons. by destruct (list.last ls).
Qed.

(** [set_leaf_pointers] links the leaves of the tree in the order of
    [scan_leaves]. *)
Lemma set_leaf_pointers_node_link (root : TreeNode) : forall last h,
  set_leaf_pointers_node root last h = link_leaves (scan_leaves root) last h.
Proof.
  induction root as [l | id cls range children IH] using TreeNode_children_ind;
    intros last h; [done|].
  rewrite scan_leaves_trunk. unfold children_leaves. simpl.
  revert last h. induction IH as [|[c|] cs Hc _ IHcs]; intros last h; simpl.
  - done.
  - rewrite link_leaves_app, IHcs, Hc. f_equal.
    rewrite link_leaves_snd. by destruct (list.last (scan_leaves c)), last.
  - apply IHcs.
Qed.

Lemma link_leaves_snoc leaves l h :
  link_leaves (leaves ++ [l]) None h
  = let r := link_leaves leaves None h in
    (match list.last leaves with
     | Some p => set_next (set_prev r.1 l (Some p)) p (Some l)
     | None => set_prev r.1 l None
     end, Some l).
Proof.
  rewrite link_leaves_app, link_leaves_snd; simpl.
  by destruct (list.last leaves).
Qed.

Lemma leaf_id_lookup_inj leaves i j a b :
  NoDup (leaf_id <$> leaves) ->
  leaves !! i = Some a -> leaves !! j = Some b -> leaf_id a = leaf_id b ->
  i = j.
Proof.
  intros Hnd Ha Hb Hid.
  eapply NoDup_lookup; [exact Hnd | |].
  - rewrite list_lookup_fmap, Ha. done.
  - rewrite list_lookup_fmap, Hb; simpl. by rewrite Hid.
Qed.

(** Linking a list of leaves with distinct identities, from the empty heap,
    gives the chain described by [linked_chain]. *)
Lemma link_leaves_chain leaves :
  NoDup (leaf_id <$> leaves) ->
  linked_chain (link_leaves leaves None empty_heap).1 leaves.
Proof.
  induction leaves as [|l ls IH] using rev_ind; intros Hnd.
  { repeat split; intros; simpl; by rewrite ?lookup_empty. }
  rewrite fmap_app in Hnd. apply NoDup_app in Hnd as (Hnd & Hfresh & _).
  assert (Hl : leaf_id l ∉ leaf_id <$> ls).
  { intros Hin. apply (Hfresh _ Hin). simpl. left. }
  specialize (IH Hnd). destruct IH as (Hnext & Hprev & Hrest).
  rewrite link_leaves_snoc; simpl.
  set (h := (link_leaves ls None empty_heap).1) in *.
  assert (Hlen : length (ls ++ [l]) = S (length ls))
    by (rewrite length_app; simpl; lia).
  destruct (list.last ls) as [p|] eqn:Hlast.
  - (* the list so far ends in [p] *)
    rewrite last_lookup in Hlast.
    assert (Hpos : 0 < length ls).
    { destruct ls; [done | simpl; lia]. }
    assert (Hpl : leaf_id p <> leaf_id l).
    { intros E. apply Hl. rewrite <- E.
      apply list_elem_of_fmap. exists p. split; [done|].
      by eapply list_elem_of_lookup_2. }
    split; [|split]; simpl.
    + intros i a Hi.
      destruct (decide (i < length ls)) as [Hlt | Hge].
      * rewrite lookup_app_l in Hi by done.
        destruct (decide (S i = length ls)) as [Hend | Hmid].
        -- assert (a = p) as -> by (replace i with (pred (length ls)) in Hi by lia;
                                    congruence).
           rewrite lookup_insert_eq.
           rewrite lookup_app_r by lia.
           by replace (S i - length ls) with 0 by lia.
        -- assert (leaf_id p <> leaf_id a).
           { intros E.
             assert (pred (length ls) = i)
               by (by eapply (leaf_id_lookup_inj ls _ _ p a)).
             lia. }
           rewrite lookup_insert_ne by done.
           rewrite (Hnext i a Hi).
           rewrite lookup_app_l by lia. done.
      * assert (i = length ls).
        { apply lookup_lt_Some in Hi. lia. }
        subst i. rewrite lookup_app_r in Hi by lia.
        replace (length ls - length ls) with 0 in Hi by lia.
        injection Hi as <-.
        rewrite lookup_insert_ne by done.
        rewrite (proj1 (Hrest _ Hl)).
        symmetry. apply lookup_ge_None. lia.
    + intros i a Hi.
      destruct (decide (i < length ls)) as [Hlt | Hge].
      * rewrite lookup_app_l in Hi by done.
        assert (leaf_id l <> leaf_id a).
        { intros E. apply Hl. rewrite E.
          apply list_elem_of_fmap. exists a. split; [done|].
          by eapply list_elem_of_lookup_2. }
        rewrite lookup_insert_ne by done.
        rewrite (Hprev i a Hi).
        destruct i as [|j]; [done|].
        rewrite lookup_app_l by lia. done.
      * assert (i = length ls).
        { apply lookup_lt_Some in Hi. lia. }
        subst i. rewrite lookup_app_r in Hi by lia.
        replace (length ls - length ls) with 0 in Hi by lia.
        injection Hi as <-.
        rewrite lookup_insert_eq.
        destruct (length ls) as [|j] eqn:Hj; [lia|].
        rewrite lookup_app_l by lia. by rewrite <- Hlast.
    + intros k Hk. rewrite fmap_app, elem_of_app in Hk.
      assert (k <> leaf_id p).
      { intros ->. apply Hk. left. apply list_elem_of_fmap. exists p.
        split; [done|]. by eapply list_elem_of_lookup_2. }
      assert (k <> leaf_id l).
      { intros ->. apply Hk. right. simpl. left. }
      rewrite !lookup_insert_ne by done. apply Hrest. tauto.
  - (* the first leaf *)
    apply last_None in Hlast. subst ls. simpl in *.
    subst h; simpl.
    split; [|split]; simpl.
    + intros [|i] a Hi; [by rewrite lookup_empty | done].
    + intros [|i] a Hi; [|done]. injection Hi as <-. by rewrite lookup_delete_eq.
    + intros k Hk. rewrite lookup_empty. split; [done|].
      rewrite lookup_delete_ne, lookup_empty; [done | set_solver].
Qed.

(** Reading a chain through [next] from its [i]-th leaf gives the leaves
    from there on, and ends with them. *)
Lemma follow_next_chain h leaves fuel : forall i,
  linked_chain h leaves ->
  length leaves - i <= fuel ->
  follow_next h fuel (leaves !! i) = drop i leaves.
Proof.
  induction fuel as [|fuel IH]; intros i Hchain Hfuel.
  - rewrite drop_ge by lia. by destruct (leaves !! i).
  - destruct (leaves !! i) as [a|] eqn:Hi; simpl.
    + rewrite (proj1 Hchain i a Hi), IH by (done || lia).
      symmetry. by apply drop_S.
    + apply lookup_ge_None in Hi. by rewrite drop_ge.
Qed.

(** Reading a chain through [prev] from its [i]-th leaf gives the leaves up
    to there, in reverse. *)
Lemma follow_prev_chain h leaves i : forall fuel a,
  linked_chain h leaves ->
  leaves !! i = Some a ->
  i < fuel ->
  follow_prev h fuel (Some a) = reverse (take (S i) leaves).
Proof.
  induction i as [|j IH]; intros fuel a Hchain Hi Hfuel.
  - destruct fuel as [|fuel]; [lia|]. simpl.
    rewrite (proj1 (proj2 Hchain) 0 a Hi).
    destruct leaves as [|b ls]; [done|]. injection Hi as <-.
    by destruct fuel.
  - destruct fuel as [|fuel]; [lia|]. simpl.
    rewrite (proj1 (proj2 Hchain) (S j) a Hi).
    destruct (leaves !! j) as [b|] eqn:Hj.
    + rewrite (IH fuel b Hchain eq_refl) by lia.
      rewrite (take_S_r leaves (S j) a Hi), reverse_app. done.
    + apply lookup_ge_None in Hj. apply lookup_lt_Some in Hi. lia.
Qed.

(** On a chain, [next] and [prev] are inverses of each other. *)
Lemma chain_inverse h leaves a b :
  linked_chain h leaves -> a ∈ leaves -> b ∈ leaves ->
  next h !! leaf_id a = Some b <-> prev h !! leaf_id b = Some a.
Proof.
  intros (Hnext & Hprev & _) Ha Hb.
  apply list_elem_of_lookup in Ha as [i Hi], Hb as [j Hj]. split.
  - rewrite (Hnext i a Hi). intros Hb'. by rewrite (Hprev (S i) b Hb').
  - rewrite (Hprev j b Hj). destruct j as [|j']; [done|].
    intros Ha'. by rewrite (Hnext j' a Ha').
Qed.

(** ** Identities of the leaves that [transform_tree] builds *)

Section LarkInduction.

Variable P : Lark -> Prop.
Hypothesis Ptoken : forall tk, P (LToken tk).
Hypothesis Ptree : forall data children,
  Forall (fun c => match c with Some t => P t | None => True end) children ->
  P (LTree data children).

Fixpoint Lark_children_ind (t : Lark) : P t :=
  match t with
  | LToken tk => Ptoken tk
  | LTree data children =>
      Ptree data children
        ((fix over (cs : list (option Lark))
            : Forall (fun c => match c with Some t => P t | None => True end) cs :=
            match cs with
            | [] => Forall_nil_2 _
            | None :: cs' => Forall_cons_2 _ None cs' I (over cs')
            | Some c :: cs' =>
                Forall_cons_2 _ (Some c) cs' (Lark_children_ind c) (over cs')
            end) children)
  end.

End LarkInduction.

Lemma children_leaves_cons (c : option TreeNode) cs :
  children_leaves (c :: cs) = slot_leaves c ++ children_leaves cs.
Proof. done. Qed.

Lemma fresh_leaves_app n1 n2 n3 leaves1 leaves2 :
  n1 <= n2 -> n2 <= n3 ->
  fresh_leaves n1 n2 leaves1 -> fresh_leaves n2 n3 leaves2 ->
  fresh_leaves n1 n3 (leaves1 ++ leaves2).
Proof.
  intros H12 H23 [Hnd1 Hb1] [Hnd2 Hb2]. split.
  - rewrite fmap_app. apply NoDup_app. split; [done|]. split; [|done].
    intros k (a & -> & Ha)%list_elem_of_fmap (b & Hab & Hb)%list_elem_of_fmap.
    specialize (Hb1 a Ha). specialize (Hb2 b Hb). lia.
  - intros l [Hl | Hl]%elem_of_app.
    + specialize (Hb1 l Hl). lia.
    + specialize (Hb2 l Hl). lia.
Qed.

(** The two slots that [transform_tree] keeps of the children of a
    [DeclModifiers] node are two of these children. *)
Lemma decl_modifier_slots cs : forall (v t : option TreeNode),
  NoDup (leaf_id <$> (slot_leaves v ++ slot_leaves t ++ children_leaves cs)) ->
  let slots :=
    fold_left
      (fun (acc : option TreeNode * option TreeNode) child =>
         if is_VarModifier child then (child, acc.2) else (acc.1, child))
      cs (v, t) in
  NoDup (leaf_id <$> (slot_leaves slots.1 ++ slot_leaves slots.2))
  /\ forall l, l ∈ slot_leaves slots.1 ++ slot_leaves slots.2 ->
       l ∈ slot_leaves v ++ slot_leaves t ++ children_leaves cs.
Proof.
  induction cs as [|c cs IH]; intros v t Hnd; simpl.
  - unfold children_leaves in *; simpl in *.
    rewrite app_nil_r in Hnd. split; [done|].
    intros l Hl. by rewrite app_nil_r.
  - rewrite children_leaves_cons in *.
    destruct (is_VarModifier c); simpl.
    + destruct (IH c t) as [Hnd' Hin'].
      { rewrite !fmap_app in *.
        apply NoDup_app in Hnd as (_ & _ & Hnd).
        by rewrite Permutation_app_swap_app. }
      split; [done|]. intros l Hl. specialize (Hin' l Hl).
      rewrite !elem_of_app in *. tauto.
    + destruct (IH v c) as [Hnd' Hin'].
      { rewrite !fmap_app in *.
        rewrite Permutation_app_swap_app in Hnd.
        by apply NoDup_app in Hnd as (_ & _ & Hnd). }
      split; [done|]. intros l Hl. specialize (Hin' l Hl).
      rewrite !elem_of_app in *. tauto.
Qed.

Lemma decl_modifier_children_fresh n n' cs :
  fresh_leaves n n' (children_leaves cs) ->
  fresh_leaves n n' (children_leaves (decl_modifier_children cs)).
Proof.
  intros [Hnd Hb].
  destruct (decl_modifier_slots cs None None Hnd) as [Hnd' Hin'].
  unfold decl_modifier_children, children_leaves; simpl.
  rewrite app_nil_r. split; [done|].
  intros l Hl. apply Hb. by apply Hin'.
Qed.

Section TransformIds.

#[local] Opaque TREE_MAP.

Variable get_token_range : Token.t -> SrcRange.
Variable get_tree_range : Lark -> SrcRange.

Lemma transform_node_fresh (tree : Lark) : forall n node n',
  transform_node get_token_range get_tree_range tree n = Return (node, n') ->
  n <= n' /\ fresh_leaves n n' (scan_leaves node).
Proof.
  induction tree as [tk | data children IH] using Lark_children_ind;
    intros n node n' H; simpl in H.
  - destruct (TREE_MAP !! Token.type tk) as [[cls | cls]|]; try done.
    injection H as <- <-. split; [lia|]. split; simpl.
    + apply NoDup_singleton.
    + intros l ->%list_elem_of_singleton. simpl. lia.
  - destruct (TREE_MAP !! data) as [[cls | cls]|]; try done.
    apply bind_Return in H as ([cs m] & Hcs & H).
    injection H as <- <-.
    assert (Hover : n <= m /\ fresh_leaves n m (children_leaves cs)).
    { clear cls. revert n cs m Hcs.
      induction IH as [|[c|] rest Hc _ IHrest]; intros n cs m Hcs.
      - injection Hcs as <- <-. split; [lia|]. split; [constructor|].
        by intros l ?%elem_of_nil.
      - apply bind_Return in Hcs as ([node1 n1] & Hnode & Hcs).
        simpl in Hcs.
        apply bind_Return in Hcs as ([cs' m'] & Hrest & Hcs).
        simpl in Hcs. injection Hcs as <- <-.
        destruct (Hc _ _ _ Hnode) as [Hle1 Hfresh1].
        destruct (IHrest _ _ _ Hrest) as [Hle2 Hfresh2].
        split; [lia|]. rewrite children_leaves_cons.
        by eapply fresh_leaves_app.
      - apply bind_Return in Hcs as ([cs' m'] & Hrest & Hcs).
        simpl in Hcs. injection Hcs as <- <-.
        destruct (IHrest _ _ _ Hrest) as [Hle2 Hfresh2].
        split; [lia | done]. }
    destruct Hover as [Hle Hfresh]. split; [lia|].
    rewrite scan_leaves_trunk.
    assert (Hm : fresh_leaves n (S m) (children_leaves cs)).
    { destruct Hfresh as [Hnd Hb]. split; [done|].
      intros l Hl. specialize (Hb l Hl). lia. }
    case_bool_decide; [by apply decl_modifier_children_fresh | done].
Qed.

End TransformIds.

(** ** Leaves and tokens *)

Section TransformTokens.

#[local] Opaque TREE_MAP.

Variable get_token_range : Token.t -> SrcRange.
Variable get_tree_range : Lark -> SrcRange.

Lemma lark_tokens_tree data children :
  lark_tokens (LTree data children) = flat_map slot_tokens children.
Proof.
  simpl. induction children as [|[c|] cs IH]; simpl; [done | by rewrite IH | done].
Qed.

Lemma is_VarModifier_transform child n node n' :
  transform_node get_token_range get_tree_range child n = Return (node, n') ->
  is_VarModifier (Some node) = is_var_token (Some child).
Proof.
  destruct child as [tk | data children]; simpl.
  - destruct (TREE_MAP !! Token.type tk) as [[cls | cls]|]; try done.
    intros [= <- <-]; simpl.
    apply bool_decide_ext. split; [by intros -> | by intros [= ->]].
  - destruct (TREE_MAP !! data) as [[cls | cls]|]; try done.
    intros H. apply bind_Return in H as (r & _ & H). by injection H as <- <-.
Qed.

(** With its two slots filled in order, [DeclModifiers] keeps the leaves of
    the children it was given. *)
Lemma decl_modifier_children_in_order (cs : list (option Lark))
    (r : list (option TreeNode)) :
  Forall2 (fun c t => is_VarModifier t = is_var_token c) cs r ->
  modifiers_in_order cs = true ->
  children_leaves (decl_modifier_children r) = children_leaves r.
Proof.
  intros Hrel Hord. unfold decl_modifier_children, children_leaves.
  destruct Hrel as [|c1 t1 cs1 r1 H1 Hrel]; [done|].
  destruct Hrel as [|c2 t2 cs2 r2 H2 Hrel]; simpl.
  - destruct (is_VarModifier t1); simpl; by rewrite ?app_nil_r.
  - destruct Hrel; [|done]. simpl in Hord.
    rewrite H1, H2. apply andb_true_iff in Hord as [-> Hn].
    apply negb_true_iff in Hn as ->. simpl. by rewrite app_nil_r.
Qed.

Lemma transform_node_tokens (tree : Lark) : forall n node n',
  transform_node get_token_range get_tree_range tree n = Return (node, n') ->
  modifiers_ordered tree = true ->
  leaf_data <$> scan_leaves node
  = token_data get_token_range <$> lark_tokens tree.
Proof.
  induction tree as [tk | data children IH] using Lark_children_ind;
    intros n node n' H Hord.
  - simpl in H.
    destruct (TREE_MAP !! Token.type tk) as [[cls | cls]|]; try done.
    by injection H as <- <-.
  - rewrite lark_tokens_tree. simpl in H, Hord.
    apply andb_true_iff in Hord as [Hmods Hord].
    destruct (TREE_MAP !! data) as [[cls | cls]|] eqn:Hmap; try done.
    apply bind_Return in H as ([cs m] & Hcs & H).
    injection H as <- <-. rewrite scan_leaves_trunk.
    assert (Hover :
      leaf_data <$> children_leaves cs
      = token_data get_token_range <$> flat_map slot_tokens children
      /\ Forall2 (fun c t => is_VarModifier t = is_var_token c) children cs).
    { clear Hmods Hmap cls. revert n cs m Hcs Hord.
      induction IH as [|[c|] rest Hc _ IHrest]; intros n cs m Hcs Hord.
      - injection Hcs as <- <-. split; [done | constructor].
      - apply bind_Return in Hcs as ([node1 n1] & Hnode & Hcs).
        simpl in Hcs.
        apply bind_Return in Hcs as ([cs' m'] & Hrest & Hcs).
        simpl in Hcs. injection Hcs as <- <-.
        apply andb_true_iff in Hord as [Hord1 Hord2].
        destruct (IHrest _ _ _ Hrest Hord2) as [Heq Hrel].
        split.
        + rewrite children_leaves_cons; simpl.
          rewrite !fmap_app, Heq. f_equal. by eapply Hc.
        + constructor; [by eapply is_VarModifier_transform | done].
      - apply bind_Return in Hcs as ([cs' m'] & Hrest & Hcs).
        simpl in Hcs. injection Hcs as <- <-.
        destruct (IHrest _ _ _ Hrest Hord) as [Heq Hrel].
        split; [done | by constructor]. }
    destruct Hover as [Heq Hrel].
    simpl. destruct (decide (cls = DeclModifiers)) as [-> | Hne].
    + rewrite bool_decide_eq_true_2 in Hmods by done.
      rewrite bool_decide_eq_true_2 by done.
      by rewrite (decl_modifier_children_in_order children cs).
    + by rewrite bool_decide_eq_false_2 by done.
Qed.

End TransformTokens.

(** C8: after [transform_tree] and [set_leaf_pointers] on the root, the
    leaves of the tree, from left to right, have distinct identities and
    form one chain: reading [next] from the first leaf gives every leaf
    once, in that order, and ends at the last leaf, whose [next] is [None];
    reading [prev] from the last leaf gives the same leaves in reverse and
    ends at the first, whose [prev] is [None]; on two adjacent leaves, and
    on any two leaves, [next] and [prev] are inverses.  [set_leaf_pointers]
    returns the last leaf.  When every [decl_modifiers] rule of the parser
    has its children in the order in which [DeclModifiers] keeps them, the
    leaves are the tokens of the source, in source order. *)
Theorem leaf_chain_complete (get_token_range : Token.t -> SrcRange)
    (get_tree_range : Lark -> SrcRange) (tree : Lark) (n n' : nat)
    (root : TreeNode) :
  transform_tree get_token_range get_tree_range (Some tree) n
  = Return (Some root, n') ->
  let r := set_leaf_pointers (Some root) None empty_heap in
  let leaves := scan_leaves root in
  NoDup (leaf_id <$> leaves)
  /\ r.2 = list.last leaves
  /\ (forall fuel, length leaves <= fuel ->
        follow_next r.1 fuel (head leaves) = leaves)
  /\ (forall a, list.last leaves = Some a -> next r.1 !! leaf_id a = None)
  /\ (forall fuel, length leaves <= fuel ->
        follow_prev r.1 fuel (list.last leaves) = reverse leaves)
  /\ (forall a, head leaves = Some a -> prev r.1 !! leaf_id a = None)
  /\ (forall i a b, leaves !! i = Some a -> leaves !! S i = Some b ->
        next r.1 !! leaf_id a = Some b /\ prev r.1 !! leaf_id b = Some a)
  /\ (forall a b, a ∈ leaves -> b ∈ leaves ->
        (next r.1 !! leaf_id a = Some b <-> prev r.1 !! leaf_id b = Some a))
  /\ (modifiers_ordered tree = true ->
        leaf_data <$> leaves
        = token_data get_token_range <$> lark_tokens tree).
Proof.
  intros H r leaves. unfold transform_tree in H.
  apply bind_Return in H as ([node m] & Hnode & H).
  simpl in H. injection H as -> ->.
  destruct (transform_node_fresh _ _ _ _ _ _ Hnode) as [_ [Hnd _]].
  fold leaves in Hnd.
  assert (Hr : r = link_leaves leaves None empty_heap)
    by apply set_leaf_pointers_node_link.
  assert (Hchain : linked_chain r.1 leaves)
    by (rewrite Hr; by apply link_leaves_chain).
  split; [done|]. split.
  { rewrite Hr, link_leaves_snd. by destruct (list.last leaves). }
  split.
  { intros fuel Hfuel. rewrite head_lookup.
    rewrite (follow_next_chain r.1 leaves fuel 0) by (done || lia). done. }
  split.
  { intros a Ha. rewrite last_lookup in Ha.
    rewrite (proj1 Hchain _ a Ha). apply lookup_ge_None.
    apply lookup_lt_Some in Ha. lia. }
  split.
  { intros fuel Hfuel. destruct (list.last leaves) as [a|] eqn:Ha.
    - rewrite last_lookup in Ha.
      pose proof (lookup_lt_Some _ _ _ Ha) as Hlt.
      rewrite (follow_prev_chain r.1 leaves _ fuel a Hchain Ha) by lia.
      rewrite take_ge by lia. done.
    - apply last_None in Ha. rewrite Ha. by destruct fuel. }
  split.
  { intros a Ha. rewrite head_lookup in Ha.
    by rewrite (proj1 (proj2 Hchain) 0 a Ha). }
  split.
  { intros i a b Ha Hb. split.
    - by rewrite (proj1 Hchain i a Ha).
    - by rewrite (proj1 (proj2 Hchain) (S i) b Hb). }
  split.
  { intros a b Ha Hb. by eapply chain_inverse. }
  intros Hord. by eapply transform_node_tokens.
Qed.

Lemma leaf_chain_complete_witness :
  exists root n',
    transform_tree token_range tree_span (Some lark_declaration) 0
    = Return (Some root, n')
    /\ modifiers_ordered lark_declaration = true
    /\ text <$> scan_leaves root = ["var"; "species"; "a"; "="; "b"; ";"]
    /\ follow_next (linked root) 6 (head (scan_leaves root)) = scan_leaves root
    /\ follow_prev (linked root) 6 (list.last (scan_leaves root))
       = reverse (scan_leaves root)
    /\ leaf_data <$> scan_leaves root
       = token_data token_range <$> lark_tokens lark_declaration.
Proof.
  eexists _, _. split; [vm_compute; reflexivity|].
  split; [vm_compute; reflexivity|].
  split; [vm_compute; reflexivity|].
  match goal with
  | |- follow_next (linked ?root) _ _ = _ /\ _ =>
      destruct (leaf_chain_complete token_range tree_span
                  lark_declaration 0 14 root)
        as (_ & _ & Hnext & _ & Hprev & _ & _ & _ & Htok);
        [vm_compute; reflexivity|]
  end.
  split; [apply Hnext; vm_compute; lia|].
  split; [apply Hprev; vm_compute; lia|].
  apply Htok. vm_compute; reflexivity.
Defined.

End LeafChain.

(** * Positions and ranges *)

Section Positions.

Lemma pos_lt_spec (a b : SrcPosition) :
  pos_lt a b = true
  <-> line a < line b \/ (line a = line b /\ column a < column b).
Proof.
  unfold pos_lt.
  destruct (Z.ltb_spec (line a) (line b)); [intuition lia|].
  destruct (Z.eqb_spec (line a) (line b)).
  - rewrite Z.ltb_lt. intuition lia.
  - intuition lia.
Qed.

Lemma pos_ge_spec (a b : SrcPosition) :
  pos_ge a b = true
  <-> line b < line a \/ (line a = line b /\ column b <= column a).
Proof.
  unfold pos_ge.
  destruct (Z.ltb_spec (line b) (line a)); [intuition lia|].
  destruct (Z.eqb_spec (line a) (line b)).
  - rewrite Z.leb_le. intuition lia.
  - intuition lia.
Qed.

Lemma pos_gt_lt (a b : SrcPosition) : pos_gt a b = pos_lt b a.
Proof.
  unfold pos_gt, pos_lt. destruct (line b <? line a); [done|].
  by rewrite (Z.eqb_sym (line a) (line b)).
Qed.

Lemma pos_ge_not_lt (a b : SrcPosition) : pos_ge a b = negb (pos_lt a b).
Proof.
  apply eq_true_iff_eq. rewrite negb_true_iff, <- not_true_iff_false.
  rewrite pos_ge_spec, pos_lt_spec. lia.
Qed.

Lemma pos_le_not_gt (a b : SrcPosition) : pos_le a b = negb (pos_lt b a).
Proof.
  apply eq_true_iff_eq. rewrite negb_true_iff, <- not_true_iff_false.
  rewrite pos_lt_spec. unfold pos_le.
  destruct (Z.ltb_spec (line a) (line b)); [intuition lia|].
  destruct (Z.eqb_spec (line a) (line b)).
  - rewrite Z.leb_le. intuition lia.
  - intuition lia.
Qed.

(** X1: the comparisons of [SrcPosition] order the positions by line and
    then by column.  [__lt__] is irreflexive and transitive, and of two
    positions one is before the other or they are equal; [__gt__] is
    [__lt__] with the arguments exchanged, [__ge__] is the negation of
    [__lt__], and [__le__] the negation of [__gt__]. *)
Theorem SrcPosition_total_order :
  (forall a b,
     pos_lt a b = true
     <-> line a < line b \/ (line a = line b /\ column a < column b))
  /\ (forall a, pos_lt a a = false)
  /\ (forall a b c,
        pos_lt a b = true -> pos_lt b c = true -> pos_lt a c = true)
  /\ (forall a b, pos_lt a b = true \/ a = b \/ pos_lt b a = true)
  /\ (forall a b, pos_gt a b = pos_lt b a)
  /\ (forall a b, pos_ge a b = negb (pos_lt a b))
  /\ (forall a b, pos_le a b = negb (pos_gt a b)).
Proof.
  split; [apply pos_lt_spec|]. split.
  { intros a. apply not_true_iff_false. rewrite pos_lt_spec. lia. }
  split.
  { intros a b c. rewrite !pos_lt_spec. lia. }
  split.
  { intros [la ca] [lb cb]. rewrite !pos_lt_spec; simpl.
    destruct (decide (la = lb)) as [-> | ?]; [|lia].
    destruct (decide (ca = cb)) as [-> | ?]; [by right; left | lia]. }
  split; [apply pos_gt_lt|]. split; [apply pos_ge_not_lt|].
  intros a b. by rewrite pos_gt_lt, pos_le_not_gt.
Qed.

Lemma within_range_spec (pos : SrcPosition) (node : TreeNode) :
  within_range pos node = true
  <-> pos_lt pos (start (node_range node)) = false
      /\ pos_lt pos (end_ (node_range node)) = true.
Proof.
  unfold within_range. rewrite andb_true_iff, pos_ge_not_lt, negb_true_iff.
  done.
Qed.

(** X2: a range is half open.  Its end is never within it, its start is
    within it exactly when the range is not empty, and only a range that is
    not empty contains a position.  When a node ends at or before the start
    of another, no position is within both, so at most one of two siblings
    in source order contains a position. *)
Theorem within_range_half_open :
  (forall node, within_range (end_ (node_range node)) node = false)
  /\ (forall node,
        within_range (start (node_range node)) node
        = pos_lt (start (node_range node)) (end_ (node_range node)))
  /\ (forall pos node,
        within_range pos node = true ->
        pos_lt (start (node_range node)) (end_ (node_range node)) = true)
  /\ (forall pos node1 node2,
        pos_le (end_ (node_range node1)) (start (node_range node2)) = true ->
        within_range pos node1 = true ->
        within_range pos node2 = false).
Proof.
  split.
  { intros node. apply not_true_iff_false. rewrite within_range_spec.
    intros [_ H]. rewrite pos_lt_spec in H. lia. }
  split.
  { intros node. unfold within_range. rewrite pos_ge_not_lt.
    assert (pos_lt (start (node_range node)) (start (node_range node)) = false)
      as ->; [|done].
    apply not_true_iff_false. rewrite pos_lt_spec. lia. }
  split.
  { intros pos node. rewrite within_range_spec.
    rewrite <- not_true_iff_false, !pos_lt_spec. lia. }
  intros pos node1 node2 Hle H1. apply not_true_iff_false.
  rewrite within_range_spec. rewrite within_range_spec in H1.
  rewrite pos_le_not_gt, negb_true_iff in Hle.
  rewrite <- !not_true_iff_false, !pos_lt_spec in *. lia.
Qed.

Lemma within_range_half_open_witness :
  within_range (mkPos 1 10) (Leaf Scenarios.reactant_S1) = true
  /\ within_range (mkPos 1 10)
       (Leaf (Scenarios.leaf 7 Name 1 16 18 "S2")) = false.
Proof.
  split; [reflexivity|].
  apply (proj2 (proj2 (proj2 within_range_half_open)) (mkPos 1 10)
           (Leaf Scenarios.reactant_S1)); reflexivity.
Defined.

End Positions.

(** * More on the type lattice *)

(** X3: the types above a type form a chain: two types from which one type
    derives are comparable.  So a symbol whose type derives from two types
    can be inserted with both, in any order, without a type conflict. *)
Theorem derives_from_supertypes_chain (a b c : SymbolType.t) :
  SymbolType.derives_from c a = true ->
  SymbolType.derives_from c b = true ->
  SymbolType.derives_from a b = true \/ SymbolType.derives_from b a = true.
Proof. destruct a, b, c; vm_compute; intros; (by left) || (by right) || done. Qed.

Lemma derives_from_supertypes_chain_witness :
  SymbolType.derives_from SymbolType.Parameter_ SymbolType.Variable_ = true
  \/ SymbolType.derives_from SymbolType.Variable_ SymbolType.Parameter_ = true.
Proof.
  apply (derives_from_supertypes_chain _ _ SymbolType.Species); reflexivity.
Defined.

(** * Accessors of the tree *)

Section Accessors.

Local Open Scope nat_scope.

Lemma slice_step2_lookup {A : Type} (l : list A) : forall i,
  slice_step2 l !! i = l !! (2 * i).
Proof.
  induction l as [l IH] using (induction_ltof1 _ length); unfold ltof in IH.
  intros i. destruct l as [|x [|y l']]; [done | by destruct i |].
  destruct i as [|i]; [done|]. simpl slice_step2.
  replace (2 * S i) with (S (S (2 * i))) by lia. simpl.
  apply IH. simpl. lia.
Qed.

Lemma slice_step2_length {A : Type} (l : list A) :
  length (slice_step2 l) = Nat.div2 (S (length l)).
Proof.
  induction l as [l IH] using (induction_ltof1 _ length); unfold ltof in IH.
  destruct l as [|x [|y l']]; [done | done |].
  simpl slice_step2. simpl length. rewrite IH by (simpl; lia). done.
Qed.

(** X4: [SpeciesList.get_all_species] returns the children at the even
    positions, and [Declaration.get_items] those at the odd positions: the
    species without the [+] between them, and the declared items without
    the modifiers and the commas.  Neither raises, whatever the number of
    children. *)
Theorem slices_pick_alternate_children id range
    (children : list (option TreeNode)) :
  (exists species,
     get_all_species (Trunk id SpeciesList range children) = Return species
     /\ length species = Nat.div2 (S (length children))
     /\ forall i, species !! i = children !! (2 * i))
  /\ (exists items,
        get_items (Trunk id Declaration range children) = Return items
        /\ length items = Nat.div2 (length children)
        /\ forall i, items !! i = children !! (2 * i + 1)).
Proof.
  split.
  - eexists. split; [done|]. split; [apply slice_step2_length|].
    apply slice_step2_lookup.
  - eexists. split; [done|]. unfold slice_from1_step2. split.
    + rewrite slice_step2_length. by destruct children.
    + intros i. rewrite slice_step2_lookup. destruct children as [|c cs].
      * by rewrite !lookup_nil.
      * replace (2 * i + 1) with (S (2 * i)) by lia. done.
Qed.

Lemma descendants_from_trunk id cls range children :
  descendants_from (Trunk id cls range children)
  = Trunk id cls range children
    :: flat_map (fun c => match c with
                          | Some n => descendants_from n
                          | None => []
                          end) children.
Proof.
  simpl. f_equal.
  induction children as [|[c|] cs IH]; simpl; [done | by rewrite IH | done].
Qed.

Lemma leaves_of_descendants_from (node : TreeNode) :
  leaves_of (descendants_from node) = scan_leaves node.
Proof.
  induction node as [l | id cls range children IH]
    using TreeNode_children_ind; [done|].
  rewrite descendants_from_trunk, scan_leaves_trunk.
  unfold leaves_of, children_leaves; simpl.
  induction IH as [|[c|] cs Hc _ IHcs]; simpl; [done | | done].
  rewrite omap_app. f_equal; [apply Hc | apply IHcs].
Qed.

(** X5: [TrunkNode.descendants] yields the node itself first, and the
    leaves it yields are those of [scan_leaves], in the same order; on a
    leaf the method does not exist. *)
Theorem descendants_leaves_in_order :
  (forall id cls range children,
     exists rest,
       descendants (Trunk id cls range children)
       = Return (Trunk id cls range children :: rest)
       /\ leaves_of rest = scan_leaves (Trunk id cls range children))
  /\ (forall l, descendants (Leaf l) = Raise AttributeError).
Proof.
  split; [|done]. intros id cls range children.
  eexists. split; [unfold descendants; by rewrite descendants_from_trunk|].
  rewrite <- leaves_of_descendants_from, descendants_from_trunk. done.
Qed.

Lemma substring_prefix (s t : string) :
  String.substring 0 (String.length s) (s +:+ t) = s.
Proof.
  induction s as [|c s IH]; simpl; [by destruct t|]. by rewrite IH.
Qed.

Lemma substring_length (s : string) : forall n m,
  n + m <= String.length s -> String.length (String.substring n m s) = m.
Proof.
  induction s as [|c s IH]; intros n m H; simpl in *.
  - assert (n = 0) as -> by lia. assert (m = 0) as -> by lia. done.
  - destruct n as [|n].
    + destruct m as [|m]; [done|]. simpl. rewrite IH; [done | lia].
    + apply IH. lia.
Qed.

Lemma app_length (s t : string) :
  String.length (s +:+ t) = String.length s + String.length t.
Proof. induction s as [|c s IH]; [done|]. simpl. by rewrite IH. Qed.

(** X6: [StringLiteral.get_str] removes the first and the last character:
    for a text in quotes it gives back what is between them, and for a text
    of fewer than two characters the empty string.  [Annotation.get_uri] is
    [get_str] of the third child, and fails with [IndexError] when there
    are fewer than three children. *)
Theorem get_str_between_quotes :
  (forall id range (q1 q2 : Ascii.ascii) (s : string),
     get_str (Leaf (mkLeaf id StringLiteral range
                      (String q1 (s +:+ String q2 EmptyString))))
     = Return s)
  /\ (forall id range (s : string),
        String.length s < 2 ->
        get_str (Leaf (mkLeaf id StringLiteral range s)) = Return EmptyString)
  /\ (forall l,
        String.length (text l) >= 2 ->
        leaf_cls l = StringLiteral ->
        exists s, get_str (Leaf l) = Return s
          /\ String.length s = String.length (text l) - 2)
  /\ (forall id range c0 c1 literal rest,
        get_uri (Trunk id Annotation range (c0 :: c1 :: literal :: rest))
        = call get_str literal)
  /\ (forall id range children,
        length children < 3 ->
        get_uri (Trunk id Annotation range children) = Raise IndexError).
Proof.
  split.
  { intros id range q1 q2 s. unfold get_str, slice_1_m1; simpl.
    rewrite app_length; simpl.
    replace (String.length s + 1 - 1) with (String.length s) by lia.
    by rewrite substring_prefix. }
  split.
  { intros id range s Hs. unfold get_str, slice_1_m1; simpl.
    destruct s as [|c [|c' s]]; simpl in *; [done | done | lia]. }
  split.
  { intros l Hlen Hcls. unfold get_str, slice_1_m1.
    rewrite Hcls; simpl. eexists. split; [done|].
    apply substring_length. lia. }
  split; [done|].
  intros id range children Hlen. unfold get_uri, item.
  rewrite (proj2 (lookup_ge_None children 2)) by lia. done.
Qed.

End Accessors.

(** * More on the symbol table *)

Section InsertOutcomes.

Implicit Types (self : SymbolTable) (scope : AbstractScope) (nm : LeafNode).
Implicit Types (typ : SymbolType.t) (sym : Symbol.t).
Implicit Types (decl_node value_node : option TreeNode).

Lemma insert_cases self scope nm typ decl_node value_node :
  exists self',
    insert self (QName.mk scope (Some (Leaf nm))) typ decl_node value_node
    = Return self'
    /\ insert_case self scope nm typ decl_node value_node self'.
Proof.
  destruct (leaf_table_of self scope !! text nm) as [sym|] eqn:Hlook.
  - destruct (SymbolType.derives_from typ (Symbol.type sym)) eqn:D1;
      [|destruct (SymbolType.derives_from (Symbol.type sym) typ) eqn:D2].
    + eexists. split; [by apply insert_narrower | by econstructor].
    + eexists. split; [by apply insert_wider | by eapply insert_case_wider].
    + eexists. split; [by apply insert_unrelated | by eapply insert_case_unrelated].
  - eexists. split; [by apply insert_new | by constructor].
Qed.

Lemma leaf_table_of_logged_ne self scope scope' qname :
  scope' <> scope ->
  leaf_table_of (logged self scope qname) scope' = leaf_table_of self scope'.
Proof.
  intros Hne. unfold leaf_table_of, logged; simpl.
  by rewrite lookup_insert_ne.
Qed.

Lemma leaf_table_of_insert_decl_value_ne self scope scope' nm sym decl_node
    value_node :
  scope' <> scope ->
  leaf_table_of (insert_decl_value self scope nm sym decl_node value_node) scope'
  = leaf_table_of self scope'.
Proof.
  intros Hne. rewrite insert_decl_value_eq. unfold leaf_table_of; simpl.
  by rewrite lookup_insert_ne.
Qed.

Lemma leaf_table_of_append_issue self scope issue :
  leaf_table_of (append_issue self issue) scope = leaf_table_of self scope.
Proof. done. Qed.

(** The dictionary of the scope of the qname after [insert]: the entry of
    the name is written, or nothing is. *)
Lemma insert_case_leaf_table self scope nm typ decl_node value_node self' :
  insert_case self scope nm typ decl_node value_node self' ->
  (forall scope', scope' <> scope ->
     leaf_table_of self' scope' = leaf_table_of self scope')
  /\ exists sym',
       leaf_table_of self' scope
       = <[text nm := sym']> (leaf_table_of self scope)
       /\ _table self' !! scope = Some (leaf_table_of self' scope).
Proof.
  intros Hcase. split.
  - intros scope' Hne. destruct Hcase;
      rewrite ?leaf_table_of_insert_decl_value_ne,
        ?leaf_table_of_append_issue, ?leaf_table_of_logged_ne by done; done.
  - destruct Hcase as [Hl | sym Hl D | sym Hl D1 D2 | sym Hl D1 D2].
    1-3: eexists; rewrite leaf_table_of_insert_decl_value, leaf_table_of_logged;
      split; [done|]; rewrite table_insert_decl_value, leaf_table_of_logged;
      done.
    exists sym. rewrite leaf_table_of_append_issue, leaf_table_of_logged.
    split; [by rewrite insert_id|].
    simpl. by rewrite lookup_insert_eq.
Qed.

Lemma get_leaf_table_of self scope nm :
  get self (QName.mk scope (Some (Leaf nm)))
  = Return (match leaf_table_of self scope !! text nm with
            | Some sym => [sym]
            | None => []
            end, (_leaf_table self scope).2).
Proof.
  unfold get; simpl.
  rewrite (surjective_pairing (_leaf_table self scope)), _leaf_table_fst; simpl.
  by destruct (leaf_table_of self scope !! text nm).
Qed.

Lemma get_all_names_leaf_table_of self (x : string) :
  x ∈ get_all_names self
  <-> exists scope, is_Some (leaf_table_of self scope !! x).
Proof.
  rewrite elem_of_get_all_names. unfold leaf_table_of. split.
  - intros (scope & lt & Hs & Hx). exists scope. by rewrite Hs.
  - intros (scope & Hx). destruct (_table self !! scope) as [lt|] eqn:Hs.
    + eauto.
    + simpl in Hx. rewrite lookup_empty in Hx. by destruct Hx.
Qed.

(** X7: a lookup after an insertion finds the symbol.  After [insert] has
    returned, [get] with the same scope and a name of the same text returns
    exactly one symbol and leaves the table as it is; for a first
    occurrence that symbol has the type and the nodes that were passed and
    the occurrence as defining token.  [get] for a name that has no symbol
    returns the empty list; it may create the empty dictionary of the
    scope, but the names in the table stay the same. *)
Theorem insert_then_get self scope nm nm' typ decl_node value_node :
  text nm' = text nm ->
  (exists self' sym,
     insert self (QName.mk scope (Some (Leaf nm))) typ decl_node value_node
     = Return self'
     /\ get self' (QName.mk scope (Some (Leaf nm'))) = Return ([sym], self')
     /\ (leaf_table_of self scope !! text nm = None ->
         sym = Symbol.mk (text nm) typ nm
                 (match decl_node with Some _ => Some nm | None => None end)
                 decl_node value_node []))
  /\ (leaf_table_of self scope !! text nm = None ->
      exists self0,
        get self (QName.mk scope (Some (Leaf nm'))) = Return ([], self0)
        /\ get_all_names self0 = get_all_names self
        /\ _issues self0 = _issues self /\ _qnames self0 = _qnames self).
Proof.
  intros Htext. split.
  - destruct (insert_cases self scope nm typ decl_node value_node)
      as (self' & Hins & Hcase).
    destruct (insert_case_leaf_table _ _ _ _ _ _ _ Hcase)
      as [_ (sym' & Hlt & Htab)].
    exists self'.
    assert (Hlook : leaf_table_of self' scope !! text nm' = Some sym')
      by (by rewrite Hlt, Htext, lookup_insert_eq).
    exists sym'. split; [done|]. split.
    + eapply get_in_table; [exact Htab | done].
    + intros Hnew. destruct Hcase; try congruence.
      rewrite leaf_table_of_insert_decl_value, Htext, lookup_insert_eq in Hlook.
      injection Hlook as <-. by destruct decl_node, value_node.
  - intros Hnew. eexists. split.
    { by rewrite get_leaf_table_of, Htext, Hnew. }
    rewrite _leaf_table_snd; simpl. split; [|done].
    apply set_eq. intros x. rewrite !get_all_names_leaf_table_of.
    split; intros [scope' Hx]; exists scope'.
    + destruct (decide (scope' = scope)) as [-> | Hne].
      * unfold leaf_table_of in Hx at 1; simpl in Hx.
        by rewrite lookup_insert_eq in Hx.
      * unfold leaf_table_of in Hx at 1; simpl in Hx.
        by rewrite lookup_insert_ne in Hx.
    + destruct (decide (scope' = scope)) as [-> | Hne].
      * unfold leaf_table_of at 1; simpl. by rewrite lookup_insert_eq.
      * unfold leaf_table_of at 1; simpl. by rewrite lookup_insert_ne.
Qed.

End InsertOutcomes.

Section InsertProperties.

Implicit Types (self : SymbolTable) (scope : AbstractScope) (nm : LeafNode).
Implicit Types (typ : SymbolType.t) (sym : Symbol.t).
Implicit Types (decl_node value_node : option TreeNode).

(** X8: [insert] touches one symbol only.  The symbols of every other
    scope, and of every other name in the scope of the qname, are after the
    call what they were before. *)
Theorem insert_frame self scope nm typ decl_node value_node self' scope'
    (name' : string) :
  insert self (QName.mk scope (Some (Leaf nm))) typ decl_node value_node
  = Return self' ->
  scope' <> scope \/ name' <> text nm ->
  leaf_table_of self' scope' !! name' = leaf_table_of self scope' !! name'.
Proof.
  intros Hins Hne.
  destruct (insert_cases self scope nm typ decl_node value_node)
    as (self'' & Hins' & Hcase).
  rewrite Hins in Hins'. injection Hins' as <-.
  destruct (insert_case_leaf_table _ _ _ _ _ _ _ Hcase)
    as [Hother (sym' & Hlt & _)].
  destruct (decide (scope' = scope)) as [-> | Hscope].
  - destruct Hne as [? | Hname]; [done|].
    by rewrite Hlt, lookup_insert_ne.
  - by rewrite Hother.
Qed.

Lemma insert_frame_witness :
  exists self',
    insert Scenarios.species_x_table
      (QName.mk (ModelScope "m") (Some (Leaf Scenarios.second_x)))
      SymbolType.Compartment None None = Return self'
    /\ leaf_table_of self' BaseScope !! "x"
       = leaf_table_of Scenarios.species_x_table BaseScope !! "x".
Proof.
  eexists. split; [vm_compute; reflexivity|].
  eapply (insert_frame Scenarios.species_x_table (ModelScope "m")
            Scenarios.second_x SymbolType.Compartment None None).
  - vm_compute; reflexivity.
  - left. discriminate.
Defined.

(** X9: the type of a symbol only narrows.  After [insert] for a symbol
    that exists, the type of the symbol is the new type when that derives
    from the old one, and the old type otherwise; either way it derives
    from the old type.  The name and the annotations of the symbol are
    kept. *)
Theorem insert_type_narrows self scope nm typ decl_node value_node sym :
  leaf_table_of self scope !! text nm = Some sym ->
  exists self' sym',
    insert self (QName.mk scope (Some (Leaf nm))) typ decl_node value_node
    = Return self'
    /\ leaf_table_of self' scope !! text nm = Some sym'
    /\ Symbol.type sym'
       = (if SymbolType.derives_from typ (Symbol.type sym)
          then typ else Symbol.type sym)
    /\ SymbolType.derives_from (Symbol.type sym') (Symbol.type sym) = true
    /\ Symbol.name sym' = Symbol.name sym
    /\ Symbol.annotations sym' = Symbol.annotations sym.
Proof.
  intros Hlook.
  destruct (insert_cases self scope nm typ decl_node value_node)
    as (self' & Hins & Hcase).
  exists self'.
  destruct Hcase as [Hl | sym0 Hl D | sym0 Hl D1 D2 | sym0 Hl D1 D2];
    [congruence | | |]; rewrite Hlook in Hl; injection Hl as <-.
  - eexists. split; [done|].
    rewrite leaf_table_of_insert_decl_value, lookup_insert_eq.
    split; [done|]. rewrite type_with_decl_value, D; simpl.
    repeat split; try done; by destruct decl_node, value_node.
  - eexists. split; [done|].
    rewrite leaf_table_of_insert_decl_value, lookup_insert_eq.
    split; [done|]. rewrite type_with_decl_value, D1.
    split; [done|]. split; [apply derives_from_refl|].
    by destruct decl_node, value_node.
  - exists sym. split; [done|].
    rewrite leaf_table_of_append_issue, leaf_table_of_logged.
    split; [done|]. rewrite D1. split; [done|].
    split; [apply derives_from_refl | done].
Qed.

Lemma insert_type_narrows_witness :
  exists self' sym',
    insert Scenarios.species_x_table
      (QName.mk BaseScope (Some (Leaf Scenarios.second_x)))
      SymbolType.Variable_ None None = Return self'
    /\ leaf_table_of self' BaseScope !! "x" = Some sym'
    /\ Symbol.type sym' = SymbolType.Species.
Proof.
  destruct (insert_type_narrows Scenarios.species_x_table BaseScope
              Scenarios.second_x SymbolType.Variable_ None None
              Scenarios.species_x ltac:(vm_compute; reflexivity))
    as (self' & sym' & H1 & H2 & H3 & _).
  exists self', sym'. repeat split; [exact H1 | exact H2 | exact H3].
Defined.

(** X10: the issues of one call of [insert].  The call appends, after the
    issues that were there, exactly one [IncompatibleType] error with the
    old type, the range of the old defining token, the new type and the
    range of the name when the symbol exists and the types are unrelated;
    else exactly one [ObscuredValue] warning with the ranges of the old and
    of the new value node and the name when the symbol has a value node and
    a value node is passed; else nothing.  So it appends at most one issue,
    nothing for a first occurrence, and never an [ObscuredDeclaration]. *)
Theorem insert_issues self scope nm typ decl_node value_node :
  exists self' new,
    insert self (QName.mk scope (Some (Leaf nm))) typ decl_node value_node
    = Return self'
    /\ _issues self' = _issues self ++ new
    /\ new
       = match leaf_table_of self scope !! text nm with
         | None => []
         | Some sym =>
             if SymbolType.derives_from typ (Symbol.type sym)
                || SymbolType.derives_from (Symbol.type sym) typ
             then
               match value_node, Symbol.value_node sym with
               | Some new_value, Some old_value =>
                   [ObscuredValue (node_range old_value)
                      (node_range new_value) (text nm)]
               | _, _ => []
               end
             else
               [IncompatibleType (Symbol.type sym)
                  (leaf_range (Symbol.type_name sym)) typ (leaf_range nm)]
         end
    /\ (length new <= 1)%nat
    /\ Forall (fun i =>
                 (is_IncompatibleType i = true /\ issue_severity i = Error)
                 \/ (is_ObscuredValue i = true /\ issue_severity i = Warning))
         new.
Proof.
  destruct (insert_cases self scope nm typ decl_node value_node)
    as (self' & Hins & Hcase).
  exists self'.
  assert (Hobs : forall sym,
    (length (obscured_value sym nm value_node) <= 1)%nat
    /\ Forall (fun i =>
                 (is_IncompatibleType i = true /\ issue_severity i = Error)
                 \/ (is_ObscuredValue i = true /\ issue_severity i = Warning))
         (obscured_value sym nm value_node)).
  { intros sym. unfold obscured_value.
    destruct value_node as [v|], (Symbol.value_node sym) as [old|]; simpl;
      (split; [lia|]); [|constructor..].
    constructor; [by right | constructor]. }
  destruct Hcase as [Hl | sym0 Hl D | sym0 Hl D1 D2 | sym0 Hl D1 D2].
  - exists []. rewrite issues_insert_decl_value; simpl.
    rewrite obscured_value_none by (by left). rewrite Hl.
    split; [done|]. split; [done|]. split; [done|].
    split; [simpl; lia | constructor].
  - exists (obscured_value sym0 nm value_node).
    split; [done|]. rewrite issues_insert_decl_value; simpl.
    split; [done|]. rewrite Hl, D. simpl.
    split; [done|]. apply Hobs.
  - exists (obscured_value sym0 nm value_node).
    split; [done|]. rewrite issues_insert_decl_value; simpl.
    split; [done|]. rewrite Hl, D1, D2. simpl.
    split; [done|]. apply Hobs.
  - eexists. split; [done|]. simpl. split; [done|].
    rewrite Hl, D1, D2. simpl. split; [done|].
    split; [lia|]. constructor; [by left | constructor].
Qed.

End InsertProperties.

Section AnnotationsAndNames.

Implicit Types (self : SymbolTable) (scope : AbstractScope) (nm : LeafNode).
Implicit Types (typ : SymbolType.t) (sym : Symbol.t).
Implicit Types (decl_node value_node : option TreeNode).

Lemma insert_annotation_leaf self scope nm (node : TreeNode) :
  exists self',
    insert_annotation self (QName.mk scope (Some (Leaf nm))) node = Return self'
    /\ _issues self' = _issues self
    /\ _qnames self' = _qnames self
    /\ leaf_table_of self' scope !! text nm
       = Some (Symbol.append_annotation
                 (default (Symbol.init (text nm) SymbolType.Unknown nm)
                    (leaf_table_of self scope !! text nm)) node)
    /\ (forall scope' (name' : string),
          scope' <> scope \/ name' <> text nm ->
          leaf_table_of self' scope' !! name'
          = leaf_table_of self scope' !! name').
Proof.
  unfold insert_annotation; simpl.
  rewrite (surjective_pairing (_leaf_table self scope)),
    _leaf_table_fst, _leaf_table_snd; simpl.
  eexists. split; [done|]. split; [done|]. split; [done|].
  assert (Hdef : default ∅
            (<[scope := leaf_table_of self scope]> (_table self) !! scope)
          = leaf_table_of self scope) by (by rewrite lookup_insert_eq).
  split.
  { unfold leaf_table_of at 1, store_symbol; simpl.
    rewrite lookup_insert_eq; simpl. rewrite lookup_insert_eq.
    by destruct (leaf_table_of self scope !! text nm). }
  intros scope' name' Hne.
  unfold leaf_table_of at 1, store_symbol; simpl.
  destruct (decide (scope' = scope)) as [-> | Hscope].
  + destruct Hne as [? | Hname]; [done|].
    rewrite lookup_insert_eq; simpl. rewrite lookup_insert_ne by done.
    by rewrite Hdef.
  + rewrite !lookup_insert_ne by done. done.
Qed.

(** X11: [insert_annotation] for the name of a leaf always returns.  It
    appends the node to the annotations of the symbol, which it creates with
    type [Unknown] when there is none; it changes no other field of the
    symbol and no other symbol, appends no issue and does not log the qname.
    Without a leaf as name it fails with [AttributeError]. *)
Theorem insert_annotation_appends self scope nm (node : TreeNode) :
  (exists self' sym',
     insert_annotation self (QName.mk scope (Some (Leaf nm))) node = Return self'
     /\ _issues self' = _issues self
     /\ _qnames self' = _qnames self
     /\ leaf_table_of self' scope !! text nm = Some sym'
     /\ sym' = Symbol.append_annotation
                 (default (Symbol.init (text nm) SymbolType.Unknown nm)
                    (leaf_table_of self scope !! text nm)) node
     /\ Symbol.annotations sym'
        = default [] (Symbol.annotations <$> leaf_table_of self scope !! text nm)
          ++ [node]
     /\ (forall scope' (name' : string),
           scope' <> scope \/ name' <> text nm ->
           leaf_table_of self' scope' !! name'
           = leaf_table_of self scope' !! name'))
  /\ insert_annotation self (QName.mk scope None) node = Raise AttributeError
  /\ (forall id cls range children,
        insert_annotation self
          (QName.mk scope (Some (Trunk id cls range children))) node
        = Raise AttributeError).
Proof.
  split; [|split].
  - destruct (insert_annotation_leaf self scope nm node)
      as (self' & Hret & Hissues & Hqnames & Hlook & Hframe).
    eexists _, _. split; [exact Hret|]. split; [done|]. split; [done|].
    split; [exact Hlook|]. split; [done|]. split; [|done].
    by destruct (leaf_table_of self scope !! text nm).
  - unfold insert_annotation; simpl. by destruct (_leaf_table self scope).
  - intros id cls range children. unfold insert_annotation; simpl.
    by destruct (_leaf_table self scope).
Qed.

Lemma insert_first_occurrence self scope nm typ decl_node value_node :
  leaf_table_of self scope !! text nm = None ->
  exists self',
    insert self (QName.mk scope (Some (Leaf nm))) typ decl_node value_node
    = Return self'
    /\ get self' (QName.mk scope (Some (Leaf nm)))
       = Return ([with_decl_value (Symbol.init (text nm) typ nm) nm decl_node
                    value_node], self')
    /\ _issues self' = _issues self.
Proof.
  intros Hnew. eexists. split; [by apply insert_new|]. split.
  - eapply get_in_table; [apply table_insert_decl_value|].
    apply lookup_insert_eq.
  - rewrite issues_insert_decl_value; simpl.
    rewrite obscured_value_none by (by left). by rewrite app_nil_r.
Qed.

Lemma insert_names self scope nm typ decl_node value_node self' :
  insert self (QName.mk scope (Some (Leaf nm))) typ decl_node value_node
  = Return self' ->
  get_all_names self' = {[ text nm ]} ∪ get_all_names self.
Proof.
  intros Hins.
  destruct (insert_cases self scope nm typ decl_node value_node)
    as (self'' & Hins' & Hcase).
  rewrite Hins in Hins'. injection Hins' as <-.
  destruct (insert_case_leaf_table _ _ _ _ _ _ _ Hcase)
    as [Hother (sym' & Hlt & _)].
  apply set_eq. intros x.
  rewrite elem_of_union, elem_of_singleton, !get_all_names_leaf_table_of.
  split.
  - intros (scope' & Hx).
    destruct (decide (scope' = scope)) as [-> | Hne].
    + rewrite Hlt in Hx. destruct (decide (x = text nm)) as [-> | Hx'];
        [by left|]. rewrite lookup_insert_ne in Hx by done. right. eauto.
    + rewrite Hother in Hx by done. right. eauto.
  - intros [-> | (scope' & Hx)].
    + exists scope. rewrite Hlt, lookup_insert_eq. eauto.
    + exists scope'. destruct (decide (scope' = scope)) as [-> | Hne].
      * rewrite Hlt. destruct (decide (x = text nm)) as [-> | Hx'].
        -- rewrite lookup_insert_eq. eauto.
        -- by rewrite lookup_insert_ne.
      * by rewrite Hother.
Qed.

Lemma probe_Some_free fuel prefix (used : gset string) : forall i name,
  probe fuel prefix used i = Some name ->
  (name ∉ used) /\ exists k, name = candidate prefix k.
Proof.
  induction fuel as [|fuel IH]; intros i name H; simpl in H; [done|].
  case_bool_decide as Hfree.
  - injection H as <-. split; [done|]. by exists i.
  - by apply IH in H.
Qed.

(** X12: the names of the table after [insert] are those before and the
    name inserted.  A name that [get_unique_name] returned is none of the
    names of the table, so inserting it in any scope creates a new symbol
    of the given type without any issue. *)
Theorem unique_name_inserts_fresh fuel self prefix (name : string) self0
    scope nm typ decl_node value_node :
  get_unique_name fuel self prefix None = Some (name, self0) ->
  text nm = name ->
  self0 = self
  /\ (name ∉ get_all_names self)
  /\ (exists k, name = candidate prefix k)
  /\ exists self' sym,
       insert self (QName.mk scope (Some (Leaf nm))) typ decl_node value_node
       = Return self'
       /\ _issues self' = _issues self
       /\ get self' (QName.mk scope (Some (Leaf nm))) = Return ([sym], self')
       /\ Symbol.type sym = typ
       /\ Symbol.name sym = name
       /\ get_all_names self' = {[ name ]} ∪ get_all_names self.
Proof.
  intros Huniq Htext. unfold get_unique_name in Huniq.
  destruct (probe fuel prefix (get_all_names self) 0) as [name0|] eqn:Hp;
    [|done].
  simpl in Huniq. injection Huniq as -> <-.
  destruct (probe_Some_free _ _ _ _ _ Hp) as [Hfree Hk].
  split; [done|]. split; [done|]. split; [done|].
  assert (Hnew : leaf_table_of self scope !! text nm = None).
  { destruct (leaf_table_of self scope !! text nm) as [sym|] eqn:E; [|done].
    exfalso. apply Hfree. rewrite <- Htext.
    apply get_all_names_leaf_table_of. exists scope. by rewrite E. }
  destruct (insert_first_occurrence self scope nm typ decl_node value_node Hnew)
    as (self' & Hins & Hget & Hiss).
  exists self'. eexists. split; [done|]. split; [done|].
  split; [exact Hget|]. split; [apply type_with_decl_value|].
  split; [by destruct decl_node, value_node|].
  rewrite <- Htext. by eapply insert_names.
Qed.

End AnnotationsAndNames.

Section SymbolTableWitnesses.

Import Scenarios.

Lemma insert_then_get_witness :
  exists self' sym,
    insert SymbolTable_init (QName.mk BaseScope (Some (Leaf first_x)))
      SymbolType.Species None None = Return self'
    /\ get self' (QName.mk BaseScope (Some (Leaf second_x)))
       = Return ([sym], self')
    /\ sym = Symbol.mk "x" SymbolType.Species first_x None None None [].
Proof.
  destruct (proj1 (insert_then_get SymbolTable_init BaseScope first_x second_x
                     SymbolType.Species None None eq_refl))
    as (self' & sym & Hins & Hget & Hnew).
  exists self', sym. split; [exact Hins|]. split; [exact Hget|].
  apply Hnew. vm_compute; reflexivity.
Defined.

Lemma unique_name_inserts_fresh_witness :
  exists self' sym,
    insert names_k0_k1
      (QName.mk BaseScope (Some (Leaf (leaf 2 Name 3 1 3 "k2"))))
      SymbolType.Parameter_ None None = Return self'
    /\ _issues self' = []
    /\ Symbol.type sym = SymbolType.Parameter_
    /\ get_all_names self' = {[ "k2" ]} ∪ get_all_names names_k0_k1.
Proof.
  destruct (unique_name_inserts_fresh 3 names_k0_k1 "k" "k2" names_k0_k1
              BaseScope (leaf 2 Name 3 1 3 "k2") SymbolType.Parameter_
              None None ltac:(vm_compute; reflexivity) eq_refl)
    as (_ & _ & _ & self' & sym & Hins & Hiss & _ & Hty & _ & Hnames).
  exists self', sym. split; [exact Hins|]. split; [exact Hiss|].
  split; [exact Hty | exact Hnames].
Defined.

End SymbolTableWitnesses.

(** * Invariants of the analysis *)

Lemma bind_Return_inv {A B : Type} (m : Result A) (k : A -> Result B) (b : B) :
  bind m k = Return b -> exists a, m = Return a /\ k a = Return b.
Proof. destruct m as [a|e]; [eauto | done]. Qed.

Ltac invert_bind H :=
  repeat match type of H with
  | bind _ _ = Return _ =>
      let a := fresh "a" in
      let Ha := fresh "Ha" in
      apply bind_Return_inv in H as (a & Ha & H)
  end.

Lemma for_each_preserves {S A : Type} (I : S -> Prop)
    (body : S -> A -> Result S) (l : list A) :
  (forall s x s', x ∈ l -> body s x = Return s' -> I s -> I s') ->
  forall s s', for_each body l s = Return s' -> I s -> I s'.
Proof.
  induction l as [|x l IH]; intros Hbody s s' H Hs; simpl in H.
  - by simplify_eq.
  - invert_bind H. eapply IH; [|done|].
    + intros s0 y s0' Hy. apply Hbody. by right.
    + eapply Hbody; [by left | done | done].
Qed.

Lemma insert_leaf_only (self self' : SymbolTable) (q : QName.t) typ
    (decl_node value_node : option TreeNode) :
  insert self q typ decl_node value_node = Return self' ->
  exists nm, QName.name q = Some (Leaf nm).
Proof.
  destruct q as [scope [[nm | id cls range children]|]];
    unfold insert; simpl; [eauto | | done].
  by destruct (_leaf_table _ _).
Qed.

Lemma insert_symbol_exists (self self' : SymbolTable) scope nm typ
    (decl_node value_node : option TreeNode) :
  insert self (QName.mk scope (Some (Leaf nm))) typ decl_node value_node
  = Return self' ->
  is_Some (leaf_table_of self' scope !! text nm).
Proof.
  intros Hins.
  destruct (insert_cases self scope nm typ decl_node value_node)
    as (self'' & Hins' & Hcase).
  rewrite Hins in Hins'. injection Hins' as <-.
  destruct (insert_case_leaf_table _ _ _ _ _ _ _ Hcase)
    as [_ (sym' & Hlt & _)].
  rewrite Hlt, lookup_insert_eq. eauto.
Qed.

Lemma elem_of_flat_map {A B : Type} (f : A -> list B) (l : list A) (x : B) :
  x ∈ flat_map f l <-> exists y, y ∈ l /\ x ∈ f y.
Proof.
  induction l as [|a l IH]; simpl.
  - split; [by intros ?%not_elem_of_nil|].
    by intros (y & ?%not_elem_of_nil & _).
  - rewrite elem_of_app, IH. split.
    + intros [Hx | (y & Hy & Hx)]; [exists a | exists y];
        (split; [|done]); by constructor.
    + intros (y & [-> | Hy]%elem_of_cons & Hx); [by left | right; eauto].
Qed.

(** ** The nodes below a node *)

Lemma descendants_from_head (node : TreeNode) :
  descendants_from node = node :: tail (descendants_from node).
Proof. by destruct node. Qed.

Lemma descendants_from_self (node : TreeNode) :
  node ∈ descendants_from node.
Proof. rewrite descendants_from_head. by left. Qed.

Lemma descendants_from_sublist (root node : TreeNode) :
  node ∈ descendants_from root ->
  descendants_from node `sublist_of` descendants_from root.
Proof.
  induction root as [l | id cls range children IH]
    using TreeNode_children_ind.
  - intros ->%list_elem_of_singleton. done.
  - rewrite descendants_from_trunk.
    intros [->|Hin]%elem_of_cons; [by rewrite descendants_from_trunk|].
    apply sublist_cons.
    induction IH as [|[c|] cs Hc _ IHcs]; simpl in *.
    + by apply not_elem_of_nil in Hin.
    + apply elem_of_app in Hin as [Hin|Hin].
      * by apply sublist_inserts_r, Hc.
      * by apply sublist_inserts_l, IHcs.
    + by apply IHcs.
Qed.

Lemma descendants_from_trans (root node d : TreeNode) :
  d ∈ descendants_from node -> node ∈ descendants_from root ->
  d ∈ descendants_from root.
Proof.
  intros Hd Hnode. eapply elem_of_sublist; [exact Hd|].
  by apply descendants_from_sublist.
Qed.

Lemma child_in_descendants id cls range (children : list (option TreeNode)) c :
  Some c ∈ children -> c ∈ descendants_from (Trunk id cls range children).
Proof.
  intros Hc. rewrite descendants_from_trunk. right.
  apply elem_of_flat_map. exists (Some c). split; [done|].
  apply descendants_from_self.
Qed.

Lemma leaf_in_descendants (node : TreeNode) (l : LeafNode) :
  l ∈ scan_leaves node <-> Leaf l ∈ descendants_from node.
Proof.
  rewrite <- leaves_of_descendants_from. unfold leaves_of.
  rewrite list_elem_of_omap. split.
  - intros ([l' | ? ? ? ?] & Hin & Heq); [|done]. by injection Heq as ->.
  - intros Hin. by exists (Leaf l).
Qed.

(** Induction with the property at hand for every node below. *)
Lemma descendants_ind (P : TreeNode -> Prop) :
  (forall node, (forall d, d ∈ tail (descendants_from node) -> P d) -> P node) ->
  forall node, P node.
Proof.
  intros Hstep node.
  assert (Hall : Forall P (descendants_from node)).
  { induction node as [l | id cls range children IH]
      using TreeNode_children_ind.
    - constructor; [|constructor]. apply Hstep.
      by intros d ?%not_elem_of_nil.
    - assert (Hbelow : Forall P (tail (descendants_from
                                         (Trunk id cls range children)))).
      { rewrite descendants_from_trunk. simpl.
        induction IH as [|[c|] cs Hc _ IHcs]; simpl; [constructor | | done].
        by apply Forall_app. }
      rewrite descendants_from_head. constructor; [|done].
      apply Hstep. by apply Forall_forall. }
  rewrite descendants_from_head in Hall. by apply Forall_cons in Hall as [? _].
Qed.

Lemma item_in (children : list (option TreeNode)) (i : nat) c :
  item children i = Return c -> c ∈ children.
Proof.
  unfold item. destruct (children !! i) as [c'|] eqn:Hi; [|done].
  intros [= <-]. by eapply list_elem_of_lookup_2.
Qed.

Lemma slice_step2_in {A : Type} (l : list A) (x : A) :
  x ∈ slice_step2 l -> x ∈ l.
Proof.
  intros [i Hi]%list_elem_of_lookup. rewrite slice_step2_lookup in Hi.
  by eapply list_elem_of_lookup_2.
Qed.

Lemma tail_in {A : Type} (l : list A) (x : A) : x ∈ tail l -> x ∈ l.
Proof. destruct l; [done|]. by right. Qed.

(** ** What the accessors return is below the node *)

Section AccessorsBelow.

Implicit Types (self c : TreeNode).

Lemma get_var_name_below self c :
  get_var_name self = Return (Some c) -> c ∈ descendants_from self.
Proof.
  destruct self as [l | id cls range children]; [done|].
  destruct cls; try done; simpl; intros H%item_in;
    by apply child_in_descendants.
Qed.

Lemma get_maybein_below self c :
  get_maybein self = Return (Some c) -> c ∈ descendants_from self.
Proof.
  destruct self as [l | id cls range children]; [done|].
  destruct cls; try done; simpl; intros H%item_in;
    by apply child_in_descendants.
Qed.

Lemma get_comp_below self c :
  get_comp self = Return (Some c) -> c ∈ descendants_from self.
Proof.
  destruct self as [l | id cls range children]; [done|].
  destruct cls; try done; simpl; intros H%item_in;
    by apply child_in_descendants.
Qed.

Lemma get_stmt_below self c :
  get_stmt self = Return (Some c) -> c ∈ descendants_from self.
Proof.
  destruct self as [l | id cls range children]; [done|].
  destruct cls; try done; simpl; intros H%item_in;
    by apply child_in_descendants.
Qed.

Lemma get_rate_law_below self c :
  get_rate_law self = Return (Some c) -> c ∈ descendants_from self.
Proof.
  destruct self as [l | id cls range children]; [done|].
  destruct cls; try done; simpl; intros H%item_in;
    by apply child_in_descendants.
Qed.

Lemma get_modifiers_below self c :
  get_modifiers self = Return (Some c) -> c ∈ descendants_from self.
Proof.
  destruct self as [l | id cls range children]; [done|].
  destruct cls; try done; simpl; intros H%item_in;
    by apply child_in_descendants.
Qed.

Lemma get_items_below self items c :
  get_items self = Return items -> Some c ∈ items ->
  c ∈ descendants_from self.
Proof.
  destruct self as [l | id cls range children]; [done|].
  destruct cls; try done; simpl. intros [= <-] Hc.
  apply child_in_descendants. unfold slice_from1_step2 in Hc.
  by apply tail_in, slice_step2_in.
Qed.

Lemma get_all_species_below self species c :
  get_all_species self = Return species -> Some c ∈ species ->
  c ∈ descendants_from self.
Proof.
  destruct self as [l | id cls range children]; [done|].
  destruct cls; try done; simpl. intros [= <-] Hc.
  by apply child_in_descendants, slice_step2_in.
Qed.

Lemma get_reactants_below self species c :
  get_reactants self = Return species -> Some c ∈ species ->
  c ∈ descendants_from self.
Proof.
  unfold get_reactants. intros H Hc.
  apply bind_Return_inv in H as ([slist|] & Hlist & H).
  - eapply descendants_from_trans; [by eapply get_all_species_below|].
    destruct self as [l | id cls range children]; [done|].
    destruct cls; try done. simpl in Hlist.
    by apply child_in_descendants, item_in with 1%nat.
  - injection H as <-. by apply not_elem_of_nil in Hc.
Qed.

Lemma get_products_below self species c :
  get_products self = Return species -> Some c ∈ species ->
  c ∈ descendants_from self.
Proof.
  unfold get_products. intros H Hc.
  apply bind_Return_inv in H as ([slist|] & Hlist & H).
  - eapply descendants_from_trans; [by eapply get_all_species_below|].
    destruct self as [l | id cls range children]; [done|].
    destruct cls; try done. simpl in Hlist.
    by apply child_in_descendants, item_in with 3%nat.
  - injection H as <-. by apply not_elem_of_nil in Hc.
Qed.

Lemma below_tail id cls range (children : list (option TreeNode)) c d :
  Some c ∈ children -> d ∈ descendants_from c ->
  d ∈ tail (descendants_from (Trunk id cls range children)).
Proof.
  intros Hc Hd. rewrite descendants_from_trunk. simpl.
  apply elem_of_flat_map. by exists (Some c).
Qed.

Lemma get_name_below self : forall c,
  get_name self = Return (Some c) -> c ∈ descendants_from self.
Proof.
  induction self as [self IH] using descendants_ind. intros c H.
  destruct self as [l | id cls range children]; [done|].
  assert (Hchild : forall c0 d, Some c0 ∈ children ->
            get_name c0 = Return (Some d) ->
            d ∈ descendants_from (Trunk id cls range children)).
  { intros c0 d Hc0 Hd. eapply descendants_from_trans;
      [|by apply child_in_descendants].
    apply IH; [|done]. eapply below_tail; [done|].
    apply descendants_from_self. }
  assert (Hgrand : forall id0 cls0 range0 children0 v d,
            Some (Trunk id0 cls0 range0 children0) ∈ children ->
            Some v ∈ children0 ->
            get_name v = Return (Some d) ->
            d ∈ descendants_from (Trunk id cls range children)).
  { intros id0 cls0 range0 children0 v d Hc0 Hv Hd.
    assert (Hvin : v ∈ tail (descendants_from (Trunk id cls range children))).
    { eapply below_tail; [done|]. by apply child_in_descendants. }
    eapply descendants_from_trans; [by apply IH|]. by apply tail_in. }
  destruct cls; try done; simpl in H.
  - destruct children as [|c0 [|c1 cs]]; try done. injection H as ->.
    apply child_in_descendants. right. by left.
  - destruct children as [|c0 [|c1 [|c2 cs]]]; try done. injection H as ->.
    apply child_in_descendants. right. right. by left.
  - destruct children as [|[[l | id0 cls0 range0 [|[v|] children0]]|] cs];
      try done; destruct cls0; try done;
      (eapply Hgrand; [by left | by left | done]).
  - destruct children as [|[c0|] cs]; try done.
    eapply Hchild; [by left | done].
  - destruct children as [|[[l | id0 cls0 range0 [|[v|] children0]]|] cs];
      try done; destruct cls0; try done;
      (eapply Hgrand; [by left | by left | done]).
  - destruct children as [|[[l | id0 cls0 range0 [|[v|] children0]]|] cs];
      try done; destruct cls0; try done;
      (eapply Hgrand; [by left | by left | done]).
Qed.

Lemma get_value_below self : forall c,
  get_value self = Return (Some c) -> c ∈ descendants_from self.
Proof.
  induction self as [self IH] using descendants_ind. intros c H.
  destruct self as [l | id cls range children];
    [simpl in H; by destruct (leaf_cls l)|].
  destruct cls; try done; simpl in H.
  - destruct children as [|c0 [|c1 [|c2 cs]]]; try done. injection H as ->.
    apply child_in_descendants. right. right. by left.
  - destruct children as [|c0 [|c1 cs]]; try done. injection H as ->.
    apply child_in_descendants. right. by left.
  - destruct children as [|c0 [|[c1|] cs]]; try done.
    eapply descendants_from_trans;
      [|apply (child_in_descendants _ _ _ _ c1); right; by left].
    apply IH; [|done]. eapply below_tail; [right; by left|].
    apply descendants_from_self.
Qed.

End AccessorsBelow.

(** ** A property of the table that the analysis keeps *)

(** A property of the table holds after the analysis of a tree when
    [insert] keeps it for a name and for nodes of the tree, and
    [insert_annotation] keeps it for a symbol that exists and a node of the
    tree. *)
Section AnalysisInvariantOn.

Variable ok : TreeNode -> Prop.
Variable I : SymbolTable -> Prop.

Hypothesis Iinsert : forall self scope nm typ decl_node value_node self',
  ok (Leaf nm) ->
  (forall c, decl_node = Some c -> ok c) ->
  (forall c, value_node = Some c -> ok c) ->
  insert self (QName.mk scope (Some (Leaf nm))) typ decl_node value_node
  = Return self' ->
  I self -> I self'.

Hypothesis Iannotation : forall self scope nm node self',
  ok (Leaf nm) -> ok node ->
  is_Some (leaf_table_of self scope !! text nm) ->
  insert_annotation self (QName.mk scope (Some (Leaf nm))) node = Return self' ->
  I self -> I self'.

Lemma insert_preserves_on self self' scope name typ decl_node value_node :
  (forall c, name = Some c -> ok c) ->
  (forall c, decl_node = Some c -> ok c) ->
  (forall c, value_node = Some c -> ok c) ->
  insert self (QName.mk scope name) typ decl_node value_node = Return self' ->
  I self -> I self'.
Proof.
  intros Hname Hd Hv H Hinv.
  destruct (insert_leaf_only _ _ _ _ _ _ H) as [nm Hq].
  simpl in Hq; subst name.
  eapply Iinsert; [by apply Hname | exact Hd | exact Hv | exact H | exact Hinv].
Qed.

Lemma handle_arith_expr_preserves_on table table' scope expr :
  (forall c d, expr = Some c -> d ∈ descendants_from c -> ok d) ->
  handle_arith_expr table scope expr = Return table' -> I table -> I table'.
Proof.
  intros Hsub H Hinv. unfold handle_arith_expr in H.
  destruct expr as [[leaf | id cls range children]|].
  - destruct (is_Name leaf); [|by simplify_eq].
    eapply insert_preserves_on; [| | |exact H|done]; try done.
    intros c [= <-]. eapply Hsub; [done|]. apply descendants_from_self.
  - eapply (for_each_preserves I); [|exact H | done].
    intros s leaf s' Hleaf Hbody Hs. simpl in Hbody.
    destruct (is_Name leaf); [|by simplify_eq].
    eapply insert_preserves_on; [| | |exact Hbody|done]; try done.
    intros c [= <-]. eapply Hsub; [done|]. by apply leaf_in_descendants.
  - by simplify_eq.
Qed.

Lemma handle_child_incomp_preserves_on table table' scope node :
  (forall d, d ∈ descendants_from node -> ok d) ->
  handle_child_incomp table scope node = Return table' -> I table -> I table'.
Proof.
  intros Hsub H Hinv. unfold handle_child_incomp in H.
  apply bind_Return_inv in H as (ds & Hds & H).
  destruct node as [l | id cls range children]; [done|].
  simpl in Hds. injection Hds as <-.
  eapply (for_each_preserves I); [|exact H | done].
  intros s child s' Hchild Hbody Hs. simpl in Hbody.
  destruct child as [l | id' cls' range' children']; [by simplify_eq|].
  destruct cls'; try (by simplify_eq).
  apply bind_Return_inv in Hbody as (comp & Hcomp & Hbody).
  apply bind_Return_inv in Hbody as (name & Hname & Hbody).
  eapply insert_preserves_on; [| | |exact Hbody|done]; try done.
  intros c ->. apply Hsub. destruct comp as [comp|]; [|done]. simpl in Hname.
  eapply descendants_from_trans; [by apply get_name_below|].
  eapply descendants_from_trans; [by apply get_comp_below|]. done.
Qed.

Lemma handle_reaction_preserves_on table table' scope reaction :
  (forall d, d ∈ descendants_from reaction -> ok d) ->
  handle_reaction table scope reaction = Return table' -> I table -> I table'.
Proof.
  intros Hsub H Hinv. unfold handle_reaction in H.
  apply bind_Return_inv in H as (name & Hname & H).
  apply bind_Return_inv in H as (table1 & Htable1 & H).
  apply bind_Return_inv in H as (reactants & Hreactants & H).
  apply bind_Return_inv in H as (products & Hproducts & H).
  apply bind_Return_inv in H as (table2 & Htable2 & H).
  apply bind_Return_inv in H as (rate_law & Hrate & H).
  eapply handle_arith_expr_preserves_on; [|exact H|].
  { intros c d -> Hd. apply Hsub.
    eapply descendants_from_trans; [done|]. by apply get_rate_law_below. }
  eapply (for_each_preserves I); [|exact Htable2|].
  - intros s species s' Hin Hbody Hs. simpl in Hbody.
    apply bind_Return_inv in Hbody as (sname & Hsname & Hbody).
    eapply insert_preserves_on; [| | |exact Hbody|done]; try done.
    intros c ->. apply Hsub. destruct species as [species|]; [|done].
    simpl in Hsname.
    eapply descendants_from_trans; [by apply get_name_below|].
    apply elem_of_app in Hin as [Hin|Hin].
    + by eapply get_reactants_below.
    + by eapply get_products_below.
  - destruct name as [name|]; [|by simplify_eq].
    eapply insert_preserves_on; [| | |exact Htable1|done]; try done.
    + intros c [= <-]. by apply Hsub, get_name_below.
    + intros c [= <-]. apply Hsub, descendants_from_self.
Qed.

Lemma handle_assignment_preserves_on table table' scope assignment :
  (forall d, d ∈ descendants_from assignment -> ok d) ->
  handle_assignment table scope assignment = Return table' ->
  I table -> I table'.
Proof.
  intros Hsub H Hinv. unfold handle_assignment in H.
  apply bind_Return_inv in H as (name & Hname & H).
  apply bind_Return_inv in H as (table1 & Htable1 & H).
  apply bind_Return_inv in H as (value & Hvalue & H).
  eapply handle_arith_expr_preserves_on; [|exact H|].
  { intros c d -> Hd. apply Hsub.
    eapply descendants_from_trans; [done|]. by apply get_value_below. }
  eapply insert_preserves_on; [| | |exact Htable1|done]; try done.
  - intros c ->. by apply Hsub, get_name_below.
  - intros c [= <-]. apply Hsub, descendants_from_self.
Qed.

Lemma handle_declaration_preserves_on table table' scope declaration :
  (forall d, d ∈ descendants_from declaration -> ok d) ->
  handle_declaration table scope declaration = Return table' ->
  I table -> I table'.
Proof.
  intros Hsub H Hinv. unfold handle_declaration in H.
  apply bind_Return_inv in H as (modifiers & Hmodifiers & H).
  apply bind_Return_inv in H as (variab & Hvariab & H).
  apply bind_Return_inv in H as (stype & Hstype & H).
  apply bind_Return_inv in H as (items & Hitems & H).
  eapply (for_each_preserves I); [|exact H | done].
  intros s item s' Hin Hbody Hs. simpl in Hbody.
  apply bind_Return_inv in Hbody as (maybein & Hmaybein & Hbody).
  apply bind_Return_inv in Hbody as (var_name & Hvar_name & Hbody).
  apply bind_Return_inv in Hbody as (name & Hname & Hbody).
  apply bind_Return_inv in Hbody as (value & Hvalue & Hbody).
  apply bind_Return_inv in Hbody as (table1 & Htable1 & Hbody).
  destruct item as [item|]; [|done]. simpl in Hmaybein, Hvalue.
  assert (Hitem : item ∈ descendants_from declaration)
    by (by eapply get_items_below).
  assert (I table1).
  { eapply insert_preserves_on; [| | |exact Htable1|done].
    - intros c ->. apply Hsub.
      destruct maybein as [maybein|]; [|done]. simpl in Hvar_name.
      destruct var_name as [var_name|]; [|done]. simpl in Hname.
      eapply descendants_from_trans; [by apply get_name_below|].
      eapply descendants_from_trans; [by apply get_var_name_below|].
      eapply descendants_from_trans; [by apply get_maybein_below|]. done.
    - intros c [= <-]. apply Hsub, descendants_from_self.
    - intros c Hc. destruct value; [|done]. injection Hc as <-.
      by apply Hsub. }
  destruct value as [value|]; [|by simplify_eq].
  eapply handle_arith_expr_preserves_on; [|exact Hbody|done].
  intros c d [= <-] Hd. apply Hsub.
  eapply descendants_from_trans; [done|].
  eapply descendants_from_trans; [by apply get_value_below|]. done.
Qed.

Lemma handle_annotation_preserves_on table table' scope annotation :
  (forall d, d ∈ descendants_from annotation -> ok d) ->
  handle_annotation table scope annotation = Return table' ->
  I table -> I table'.
Proof.
  intros Hsub H Hinv. unfold handle_annotation in H.
  apply bind_Return_inv in H as (var_name & Hvar_name & H).
  apply bind_Return_inv in H as (name & Hname & H).
  apply bind_Return_inv in H as (table1 & Htable1 & H).
  destruct (insert_leaf_only _ _ _ _ _ _ Htable1) as [nm Hq].
  simpl in Hq. subst name.
  assert (Hnm : ok (Leaf nm)).
  { apply Hsub. destruct var_name as [var_name|]; [|done]. simpl in Hname.
    eapply descendants_from_trans; [by apply get_name_below|].
    by apply get_var_name_below. }
  eapply Iannotation; [done | |by eapply insert_symbol_exists|exact H|].
  - apply Hsub, descendants_from_self.
  - eapply Iinsert; [exact Hnm | | |exact Htable1|exact Hinv]; done.
Qed.

Lemma analyze_child_preserves_on table table' scope child :
  (forall c d, child = Some c -> d ∈ descendants_from c -> ok d) ->
  analyze_child scope table child = Return table' -> I table -> I table'.
Proof.
  intros Hsub H Hinv. unfold analyze_child in H.
  destruct child as [[l | id cls range children]|];
    [by simplify_eq | | by simplify_eq].
  destruct cls; try (by simplify_eq).
  apply bind_Return_inv in H as (stmt & Hstmt & H).
  destruct stmt as [[l | id' cls' range' children']|];
    [done | | by simplify_eq].
  assert (Hstmt_sub : forall d,
            d ∈ descendants_from (Trunk id' cls' range' children') -> ok d).
  { intros d Hd. eapply Hsub; [done|].
    eapply descendants_from_trans; [done|]. by apply get_stmt_below. }
  apply bind_Return_inv in H as (table1 & Htable1 & H).
  eapply handle_child_incomp_preserves_on; [done|exact H|].
  destruct cls'; try done.
  - by eapply handle_reaction_preserves_on.
  - by eapply handle_assignment_preserves_on.
  - by eapply handle_declaration_preserves_on.
  - by eapply handle_annotation_preserves_on.
Qed.

Lemma analysis_preserves_on h root a :
  (forall d, d ∈ descendants_from root -> ok d) ->
  I SymbolTable_init ->
  AntTreeAnalyzer_init h root = Return a -> I (table a).
Proof.
  intros Hsub Hinit H. unfold AntTreeAnalyzer_init in H.
  apply bind_Return_inv in H as (children & Hchildren & H).
  apply bind_Return_inv in H as (table1 & Htable1 & H).
  apply bind_Return_inv in H as (issues & Hissues & H).
  injection H as <-; simpl.
  destruct root as [l | id cls range cs]; [done|].
  simpl in Hchildren. injection Hchildren as <-.
  eapply (for_each_preserves I); [|exact Htable1 | done].
  intros s child s' Hin Hbody Hs.
  eapply analyze_child_preserves_on; [|exact Hbody|done].
  intros c d -> Hd. apply Hsub.
  eapply descendants_from_trans; [done|]. by apply child_in_descendants.
Qed.

End AnalysisInvariantOn.

(** The same for a property that [insert] and [insert_annotation] keep
    whatever the name and the nodes. *)
Lemma analysis_preserves (I : SymbolTable -> Prop) h root a :
  (forall self scope nm typ decl_node value_node self',
     insert self (QName.mk scope (Some (Leaf nm))) typ decl_node value_node
     = Return self' ->
     I self -> I self') ->
  (forall self scope nm node self',
     is_Some (leaf_table_of self scope !! text nm) ->
     insert_annotation self (QName.mk scope (Some (Leaf nm))) node
     = Return self' ->
     I self -> I self') ->
  I SymbolTable_init ->
  AntTreeAnalyzer_init h root = Return a -> I (table a).
Proof.
  intros Iinsert Iannotation.
  apply (analysis_preserves_on (fun _ => True) I); [| |done].
  - intros self scope nm typ decl_node value_node self' _ _ _.
    apply Iinsert.
  - intros self scope nm node self' _ _. apply Iannotation.
Qed.

(** * The table after the analysis *)

Section TableConsistent.

Import Scenarios.

Implicit Types (self : SymbolTable) (scope : AbstractScope) (nm : LeafNode).
Implicit Types (typ : SymbolType.t) (sym : Symbol.t).
Implicit Types (decl_node value_node : option TreeNode).

Lemma init_consistent nm typ :
  symbol_consistent (text nm) (Symbol.init (text nm) typ nm).
Proof.
  repeat split; simpl; try done; intros [? ?]; done.
Qed.

Lemma set_type_consistent sym nm typ :
  symbol_consistent (text nm) sym ->
  symbol_consistent (text nm) (Symbol.set_type sym typ nm).
Proof. intros (H1 & H2 & H3 & H4). by repeat split; simpl; try apply H4. Qed.

Lemma with_decl_value_consistent sym nm decl_node value_node :
  symbol_consistent (text nm) sym ->
  symbol_consistent (text nm) (with_decl_value sym nm decl_node value_node).
Proof.
  intros (H1 & H2 & H3 & H4).
  destruct decl_node, value_node; unfold with_decl_value, symbol_consistent;
    simpl; (split; [done|]); (split; [done|]); split; try done.
  all: try (intros d Hd; by simplify_eq).
  all: split; eauto.
Qed.

Lemma append_annotation_consistent (name : string) sym node :
  symbol_consistent name sym ->
  symbol_consistent name (Symbol.append_annotation sym node).
Proof. intros (H1 & H2 & H3 & H4). by repeat split; simpl; try apply H4. Qed.

Lemma qnames_insert_case self scope nm typ decl_node value_node self' :
  insert_case self scope nm typ decl_node value_node self' ->
  _qnames self' = _qnames self ++ [QName.mk scope (Some (Leaf nm))].
Proof. intros []; by rewrite ?insert_decl_value_eq. Qed.

(** The symbol that [insert] leaves under the name. *)
Lemma insert_case_symbol self scope nm typ decl_node value_node self' :
  insert_case self scope nm typ decl_node value_node self' ->
  (forall name sym, leaf_table_of self scope !! name = Some sym ->
     symbol_consistent name sym) ->
  exists sym',
    leaf_table_of self' scope !! text nm = Some sym'
    /\ symbol_consistent (text nm) sym'.
Proof.
  intros Hcase Hall.
  destruct Hcase as [Hl | sym Hl D | sym Hl D1 D2 | sym Hl D1 D2];
    rewrite ?leaf_table_of_insert_decl_value, ?leaf_table_of_append_issue,
      ?leaf_table_of_logged, ?lookup_insert_eq.
  - eexists; split; [done|].
    apply with_decl_value_consistent, init_consistent.
  - eexists; split; [done|].
    apply with_decl_value_consistent, set_type_consistent. by eapply Hall.
  - eexists; split; [done|].
    apply with_decl_value_consistent. by eapply Hall.
  - eexists; split; [done|]. by eapply Hall.
Qed.

Lemma insert_table_consistent self scope nm typ decl_node value_node self' :
  insert self (QName.mk scope (Some (Leaf nm))) typ decl_node value_node
  = Return self' ->
  table_consistent self -> table_consistent self'.
Proof.
  intros Hins [Hsyms Hlog].
  destruct (insert_cases self scope nm typ decl_node value_node)
    as (self'' & Hins' & Hcase).
  rewrite Hins in Hins'. injection Hins' as <-.
  pose proof (qnames_insert_case _ _ _ _ _ _ _ Hcase) as Hq.
  destruct (insert_case_symbol _ _ _ _ _ _ _ Hcase) as (new & Hnew & Hcons).
  { intros name sym Hl. by destruct (Hsyms _ _ _ Hl). }
  destruct (insert_case_leaf_table _ _ _ _ _ _ _ Hcase)
    as [Hother (sym' & Hlt & _)].
  assert (Hold : forall scope' (name' : string),
            scope' <> scope \/ name' <> text nm ->
            leaf_table_of self' scope' !! name'
            = leaf_table_of self scope' !! name').
  { intros scope' name' Hne.
    destruct (decide (scope' = scope)) as [->|Hs].
    - destruct Hne as [|Hne]; [done|]. by rewrite Hlt, lookup_insert_ne.
    - by rewrite Hother. }
  split.
  - intros scope' name' sym Hl. rewrite Hq.
    destruct (decide (scope' = scope /\ name' = text nm)) as [[-> ->]|Hne].
    + rewrite Hnew in Hl. injection Hl as <-. split; [done|].
      exists nm. split; [set_solver | done].
    + rewrite Hold in Hl by (apply not_and_l in Hne; tauto).
      destruct (Hsyms _ _ _ Hl) as [Hc (l & Hin & Ht)].
      split; [done|]. exists l. split; [set_solver | done].
  - intros q Hin. rewrite Hq in Hin.
    apply elem_of_app in Hin as [Hin|Hin].
    + destruct (Hlog _ Hin) as (l & sym & Hname & Hl).
      exists l.
      destruct (decide (QName.scope q = scope /\ text l = text nm))
        as [[Hs Ht]|Hne].
      * exists new. split; [done|]. by rewrite Hs, Ht.
      * exists sym. split; [done|].
        rewrite Hold by (apply not_and_l in Hne; tauto). done.
    + apply list_elem_of_singleton in Hin as ->. by exists nm, new.
Qed.

Lemma insert_annotation_table_consistent self scope nm node self' :
  is_Some (leaf_table_of self scope !! text nm) ->
  insert_annotation self (QName.mk scope (Some (Leaf nm))) node = Return self' ->
  table_consistent self -> table_consistent self'.
Proof.
  intros [sym Hsym] Hins [Hsyms Hlog].
  destruct (insert_annotation_leaf self scope nm node)
    as (self'' & Hret & _ & Hqnames & Hnew & Hframe).
  rewrite Hins in Hret. injection Hret as <-.
  rewrite Hsym in Hnew; simpl in Hnew.
  split.
  - intros scope' name' sym' Hl. rewrite Hqnames.
    destruct (decide (scope' = scope /\ name' = text nm)) as [[-> ->]|Hne].
    + rewrite Hnew in Hl. injection Hl as <-.
      destruct (Hsyms _ _ _ Hsym) as [Hc Hex].
      split; [by apply append_annotation_consistent | done].
    + rewrite Hframe in Hl by (apply not_and_l in Hne; tauto).
      by apply Hsyms.
  - intros q Hin. rewrite Hqnames in Hin.
    destruct (Hlog _ Hin) as (l & sym' & Hname & Hl).
    exists l.
    destruct (decide (QName.scope q = scope /\ text l = text nm))
      as [[Hs Ht]|Hne].
    + rewrite Hs, Ht. eauto.
    + rewrite Hframe by (apply not_and_l in Hne; tauto). eauto.
Qed.

Lemma init_table_consistent : table_consistent SymbolTable_init.
Proof.
  split.
  - intros scope name sym H. unfold leaf_table_of in H; simpl in H.
    rewrite lookup_empty in H; simpl in H. by rewrite lookup_empty in H.
  - intros q Hin. simpl in Hin. by apply not_elem_of_nil in Hin.
Qed.

(** X13: after the analysis the table and its log agree.  Every symbol is
    stored under its own name, its defining and declaring tokens have that
    name as text, it has a declaring token exactly when it has a declaration
    node, and the log holds an occurrence of it.  Every qname of the log
    resolves with [resolve_qname] to exactly one symbol, the one of its
    text, and the lookup leaves the table as it is. *)
Theorem analysis_table_consistent h root a :
  AntTreeAnalyzer_init h root = Return a ->
  table_consistent (table a)
  /\ forall q, q ∈ get_all_qnames (table a) ->
       exists l sym,
         QName.name q = Some (Leaf l)
         /\ resolve_qname a q = Return ([sym], table a)
         /\ Symbol.name sym = text l
         /\ text (Symbol.type_name sym) = text l.
Proof.
  intros H.
  assert (Hc : table_consistent (table a)).
  { eapply (analysis_preserves table_consistent); [| |exact init_table_consistent|exact H].
    - intros. by eapply insert_table_consistent.
    - intros. by eapply insert_annotation_table_consistent. }
  split; [done|]. intros q Hin. destruct Hc as [Hsyms Hlog].
  destruct (Hlog _ Hin) as (l & sym & Hname & Hl).
  exists l, sym. destruct (Hsyms _ _ _ Hl) as [(Hn & Ht & _) _].
  split; [done|]. split; [|done].
  destruct q as [scope name]; simpl in *; subst name.
  unfold resolve_qname. rewrite get_leaf_table_of, Hl.
  unfold _leaf_table. unfold leaf_table_of in Hl.
  destruct (_table (table a) !! scope); [done|].
  simpl in Hl. by rewrite lookup_empty in Hl.
Qed.

Lemma analysis_table_consistent_witness :
  exists a,
    AntTreeAnalyzer_init (linked const_species_root) const_species_root = Return a
    /\ table_consistent (table a)
    /\ forall q, q ∈ get_all_qnames (table a) ->
         exists l sym,
           QName.name q = Some (Leaf l)
           /\ resolve_qname a q = Return ([sym], table a)
           /\ Symbol.name sym = text l
           /\ text (Symbol.type_name sym) = text l.
Proof.
  eexists. split; [vm_compute; reflexivity|].
  apply (analysis_table_consistent (linked const_species_root)
           const_species_root).
  vm_compute; reflexivity.
Defined.

End TableConsistent.

(** * The handlers *)

Section Handlers.

Import Scenarios.

Implicit Types (self table : SymbolTable) (scope : AbstractScope).
Implicit Types (nm : LeafNode) (typ : SymbolType.t) (sym : Symbol.t).

(** [insert] without declaration and value node. *)
Lemma insert_plain self scope nm typ :
  exists self' new,
    insert self (QName.mk scope (Some (Leaf nm))) typ None None = Return self'
    /\ _qnames self' = _qnames self ++ [QName.mk scope (Some (Leaf nm))]
    /\ _issues self' = _issues self ++ new
    /\ (length new <= 1)%nat
    /\ Forall (fun i => is_IncompatibleType i = true) new
    /\ (forall scope' (name' : string),
          is_Some (leaf_table_of self' scope' !! name')
          <-> is_Some (leaf_table_of self scope' !! name')
              \/ (scope' = scope /\ name' = text nm)).
Proof.
  destruct (insert_cases self scope nm typ None None) as (self' & Hins & Hcase).
  exists self'.
  pose proof (qnames_insert_case _ _ _ _ _ _ _ Hcase) as Hq.
  destruct (insert_case_leaf_table _ _ _ _ _ _ _ Hcase)
    as [Hother (sym' & Hlt & _)].
  assert (Hdom : forall scope' (name' : string),
            is_Some (leaf_table_of self' scope' !! name')
            <-> is_Some (leaf_table_of self scope' !! name')
                \/ (scope' = scope /\ name' = text nm)).
  { intros scope' name'. destruct (decide (scope' = scope)) as [->|Hs].
    - rewrite Hlt. destruct (decide (name' = text nm)) as [->|Hn].
      + rewrite lookup_insert_eq. split; eauto.
      + rewrite lookup_insert_ne by done. split; [eauto|].
        intros [?|[_ ?]]; done.
    - rewrite Hother by done. split; [eauto|]. intros [?|[? _]]; done. }
  destruct Hcase as [Hl | sym Hl D | sym Hl D1 D2 | sym Hl D1 D2].
  1-3: exists []; rewrite issues_insert_decl_value; simpl;
    split; [done|]; split; [done|]; split; [done|]; split; [lia|];
    split; [constructor | done].
  eexists [_]. split; [done|]. split; [done|]. split; [done|].
  split; [simpl; lia|]. split; [|done]. by repeat constructor.
Qed.

(** The loop of [handle_arith_expr] over a list of leaves. *)
Lemma insert_names_loop scope (leaves : list LeafNode) : forall table,
  exists table' new,
    for_each
      (fun table leaf =>
         if is_Name leaf then
           insert table (QName.mk scope (Some (Leaf leaf)))
             SymbolType.Parameter_ None None
         else Return table) leaves table
    = Return table'
    /\ _qnames table'
       = _qnames table
         ++ ((fun l => QName.mk scope (Some (Leaf l)))
               <$> filter (fun l => leaf_cls l = Name) leaves)
    /\ _issues table' = _issues table ++ new
    /\ (length new <= length (filter (fun l => leaf_cls l = Name) leaves))%nat
    /\ Forall (fun i => is_IncompatibleType i = true) new
    /\ (forall scope' (name' : string),
          is_Some (leaf_table_of table' scope' !! name')
          <-> is_Some (leaf_table_of table scope' !! name')
              \/ (scope' = scope
                  /\ exists l, l ∈ filter (fun l => leaf_cls l = Name) leaves
                               /\ text l = name')).
Proof.
  induction leaves as [|leaf leaves IH]; intros table.
  - exists table, []. simpl. rewrite !app_nil_r.
    split; [done|]. split; [done|]. split; [done|]. split; [lia|].
    split; [constructor|]. intros scope' name'. split; [eauto|].
    intros [?|[_ (l & Hl & _)]]; [done|]. by apply not_elem_of_nil in Hl.
  - simpl. unfold is_Name at 1.
    destruct (decide (leaf_cls leaf = Name)) as [Hname|Hname].
    + rewrite bool_decide_eq_true_2 by done.
      rewrite filter_cons_True by done.
      destruct (insert_plain table scope leaf SymbolType.Parameter_)
        as (table1 & new1 & -> & Hq1 & Hi1 & Hlen1 & Hk1 & Hdom1).
      simpl.
      destruct (IH table1) as (table' & new & -> & Hq & Hi & Hlen & Hk & Hdom).
      exists table', (new1 ++ new).
      split; [done|]. split; [by rewrite Hq, Hq1, <- app_assoc|].
      split; [by rewrite Hi, Hi1, <- app_assoc|].
      split; [rewrite length_app; simpl; lia|].
      split; [by apply Forall_app|].
      intros scope' name'. rewrite Hdom, Hdom1. split.
      * intros [[?|[-> ->]]|[-> (l & Hl & <-)]]; [by left| |].
        -- right. split; [done|]. exists leaf. split; [by left | done].
        -- right. split; [done|]. exists l. split; [by right | done].
      * intros [?|[-> (l & Hl & <-)]]; [by left; left|].
        apply elem_of_cons in Hl as [->|Hl]; [left; right; done|].
        right. split; [done|]. by exists l.
    + rewrite bool_decide_eq_false_2 by done.
      rewrite filter_cons_False by done. simpl. apply IH.
Qed.

(** X14: [handle_arith_expr] never raises.  It logs one qname for each name
    among the leaves of the expression, in their order and with the scope
    given, and logs nothing else; afterwards the table has a symbol for each
    of these names, and for no name that it did not have before or that is
    not one of them.  It appends at most one issue for each name, and only
    [IncompatibleType] issues. *)
Theorem handle_arith_expr_names table scope (expr : option TreeNode) :
  exists table' new,
    handle_arith_expr table scope expr = Return table'
    /\ _qnames table'
       = _qnames table
         ++ ((fun l => QName.mk scope (Some (Leaf l))) <$> name_leaves expr)
    /\ _issues table' = _issues table ++ new
    /\ (length new <= length (name_leaves expr))%nat
    /\ Forall (fun i => is_IncompatibleType i = true) new
    /\ (forall scope' (name' : string),
          is_Some (leaf_table_of table' scope' !! name')
          <-> is_Some (leaf_table_of table scope' !! name')
              \/ (scope' = scope
                  /\ exists l, l ∈ name_leaves expr /\ text l = name')).
Proof.
  destruct expr as [[leaf | id cls range children]|].
  - destruct (insert_names_loop scope [leaf] table)
      as (table' & new & Hret & H).
    exists table', new. split; [|exact H].
    simpl in Hret. unfold handle_arith_expr.
    destruct (is_Name leaf); [|done].
    by destruct (insert _ _ _ _ _).
  - apply insert_names_loop.
  - apply (insert_names_loop scope [] table).
Qed.

End Handlers.

(** * The two passes of the analyzer *)

Section Passes.

Import Scenarios.

Implicit Types (h : Heap) (children : list (option TreeNode)).

Lemma for_each_skip {S A : Type} (P : A -> Prop) `{forall x, Decision (P x)}
    (body : S -> A -> Result S) (l : list A) :
  (forall s x, ~ P x -> body s x = Return s) ->
  forall s, for_each body l s = for_each body (filter P l) s.
Proof.
  intros Hskip. induction l as [|x l IH]; intros s; [done|].
  destruct (decide (P x)) as [HP|HP].
  - rewrite filter_cons_True by done. simpl.
    destruct (body s x); simpl; [apply IH | done].
  - rewrite filter_cons_False by done. simpl.
    rewrite Hskip by done. simpl. apply IH.
Qed.

Lemma fold_left_skip {S A : Type} (P : A -> Prop) `{forall x, Decision (P x)}
    (f : S -> A -> S) (l : list A) :
  (forall s x, ~ P x -> f s x = s) ->
  forall s, fold_left f l s = fold_left f (filter P l) s.
Proof.
  intros Hskip. induction l as [|x l IH]; intros s; [done|].
  destruct (decide (P x)) as [HP|HP].
  - rewrite filter_cons_True by done. simpl. apply IH.
  - rewrite filter_cons_False by done. simpl. rewrite Hskip by done. apply IH.
Qed.

Lemma analyze_child_skip scope table (child : option TreeNode) :
  is_SimpleStmt child <> true -> analyze_child scope table child = Return table.
Proof.
  destruct child as [[l | id cls range cs]|]; [done | | done].
  by destruct cls.
Qed.

Lemma record_child_skip h st (child : option TreeNode) :
  is_error_child child <> true -> record_child h st child = st.
Proof.
  destruct child as [[l | id cls range cs]|]; simpl; [| |done].
  - intros Hne. by rewrite bool_decide_eq_false_2
      by (intros E; by rewrite bool_decide_eq_true_2 in Hne).
  - by destruct cls.
Qed.

(** X15: the two passes of [AntTreeAnalyzer.__init__] read different
    children of the root.  The table is built from the [SimpleStmt] children
    alone and the syntax issues from the [ErrorToken] and [ErrorNode]
    children alone: [None], error children and any other child are skipped
    by the first pass, and all but error children by the second.  So a root
    without [SimpleStmt] children is analyzed without an exception and
    leaves the table empty, and a root without children has no issue at
    all; a leaf as root fails with [AttributeError]. *)
Theorem analysis_reads_children h id cls range children :
  AntTreeAnalyzer_init h (Trunk id cls range children)
  = (table <-- for_each (analyze_child BaseScope)
                 (filter (fun c => is_SimpleStmt c = true) children)
                 SymbolTable_init ;;
     Return (mkAnalyzer table (Trunk id cls range children)
               (fold_left (record_child h)
                  (filter (fun c => is_error_child c = true) children)
                  (∅, [])).2))
  /\ (Forall (fun c => is_SimpleStmt c = false) children ->
      exists issues,
        AntTreeAnalyzer_init h (Trunk id cls range children)
        = Return (mkAnalyzer SymbolTable_init (Trunk id cls range children)
                    issues))
  /\ (exists a,
        AntTreeAnalyzer_init h (Trunk id cls range []) = Return a
        /\ get_issues a = [])
  /\ (forall l, AntTreeAnalyzer_init h (Leaf l) = Raise AttributeError).
Proof.
  assert (Heq : AntTreeAnalyzer_init h (Trunk id cls range children)
    = (table <-- for_each (analyze_child BaseScope)
                   (filter (fun c => is_SimpleStmt c = true) children)
                   SymbolTable_init ;;
       Return (mkAnalyzer table (Trunk id cls range children)
                 (fold_left (record_child h)
                    (filter (fun c => is_error_child c = true) children)
                    (∅, [])).2))).
  { unfold AntTreeAnalyzer_init, _record_syntax_issues; simpl.
    rewrite (for_each_skip (fun c => is_SimpleStmt c = true))
      by (intros; by apply analyze_child_skip).
    rewrite (fold_left_skip (fun c => is_error_child c = true)
               (record_child h) children)
      by (intros; by apply record_child_skip).
    done. }
  split; [exact Heq|]. split; [|split; [|done]].
  - intros Hall. rewrite Heq. rewrite filter_none; [simpl; eauto|].
    intros c Hc Ht. rewrite Forall_forall in Hall.
    apply Hall in Hc. congruence.
  - eexists. split; [reflexivity | done].
Qed.

Lemma fold_left_invariant {S A : Type} (I : S -> Prop) (f : S -> A -> S)
    (l : list A) :
  (forall s x, x ∈ l -> I s -> I (f s x)) ->
  forall s, I s -> I (fold_left f l s).
Proof.
  induction l as [|x l IH]; intros Hf s Hs; [done|].
  simpl. apply IH.
  - intros s' y Hy. apply Hf. by right.
  - apply Hf; [by left | done].
Qed.

Lemma syntax_issue_of_kind h node issue :
  syntax_issue_of h node = Some issue ->
  is_syntax_issue issue /\ is_error_child (Some node) = true.
Proof.
  destruct node as [l | id cls range cs]; simpl.
  - destruct (bool_decide (leaf_cls l = ErrorToken)); [|done].
    destruct (bool_decide (strip (text l) = EmptyString));
      intros [= <-]; done.
  - destruct cls; try done.
    match goal with |- context [match ?x with _ => _ end] => destruct x end;
      [|done].
    destruct (next h !! _); [done|]. intros [= <-]. done.
Qed.

Lemma insert_semantic_issues self scope nm typ decl_node value_node self' :
  insert self (QName.mk scope (Some (Leaf nm))) typ decl_node value_node
  = Return self' ->
  Forall is_semantic_issue (_issues self) ->
  Forall is_semantic_issue (_issues self').
Proof.
  intros Hins Hall.
  destruct (insert_cases self scope nm typ decl_node value_node)
    as (self'' & Hins' & Hcase).
  rewrite Hins in Hins'. injection Hins' as <-.
  assert (Hobs : forall sym,
            Forall is_semantic_issue (obscured_value sym nm value_node)).
  { intros sym. unfold obscured_value.
    destruct value_node; [|constructor].
    destruct (Symbol.value_node sym); [|constructor].
    constructor; [by right | constructor]. }
  destruct Hcase; rewrite ?issues_insert_decl_value; simpl;
    apply Forall_app; (split; [done|]); try apply Hobs.
  constructor; [by left | constructor].
Qed.

(** X16: the kinds of the issues of an analysis.  Every semantic issue is an
    [IncompatibleType] error or an [ObscuredValue] warning, and every syntax
    issue is an [UnexpectedToken], [UnexpectedEOF] or [UnexpectedNewline]
    error that an [ErrorToken] or [ErrorNode] child of the root gives rise
    to.  So every warning of [get_issues] is an [ObscuredValue], and an
    [ObscuredDeclaration] is never reported. *)
Theorem analysis_issue_kinds h root a :
  AntTreeAnalyzer_init h root = Return a ->
  Forall is_semantic_issue (semantic_issues a)
  /\ Forall (fun i =>
               is_syntax_issue i
               /\ exists children child,
                    node_children root = Return children
                    /\ Some child ∈ children
                    /\ is_error_child (Some child) = true
                    /\ syntax_issue_of h child = Some i)
       (syntax_issues a)
  /\ Forall (fun i =>
               (issue_severity i = Warning -> is_ObscuredValue i = true)
               /\ forall old_range new_range name,
                    i <> ObscuredDeclaration old_range new_range name)
       (get_issues a).
Proof.
  intros H.
  assert (Hsem : Forall is_semantic_issue (semantic_issues a)).
  { eapply (analysis_preserves (fun t => Forall is_semantic_issue (_issues t)));
      [| |constructor|exact H].
    - intros. by eapply insert_semantic_issues.
    - intros self scope nm node self' _ Hins Hall.
      destruct (insert_annotation_leaf self scope nm node)
        as (self'' & Hret & Hissues & _).
      rewrite Hins in Hret. injection Hret as <-. by rewrite Hissues. }
  assert (Hsyn : Forall (fun i =>
               is_syntax_issue i
               /\ exists children child,
                    node_children root = Return children
                    /\ Some child ∈ children
                    /\ is_error_child (Some child) = true
                    /\ syntax_issue_of h child = Some i)
       (syntax_issues a)).
  { unfold AntTreeAnalyzer_init in H.
    apply bind_Return_inv in H as (children & Hchildren & H).
    apply bind_Return_inv in H as (table1 & Htable1 & H).
    apply bind_Return_inv in H as (issues & Hissues & H).
    injection H as <-; simpl. unfold _record_syntax_issues in Hissues.
    rewrite Hchildren in Hissues. simpl in Hissues. injection Hissues as <-.
    apply (fold_left_invariant (fun st => Forall _ st.2)); [|constructor].
    intros [flagged issues] [child|] Hin Hall; simpl; [|done].
    destruct (syntax_issue_of h child) as [issue|] eqn:E; [|done].
    destruct (bool_decide _); [|done]. simpl in *.
    apply Forall_app. split; [done|].
    destruct (syntax_issue_of_kind _ _ _ E) as [Hkind Herr].
    constructor; [|constructor]. split; [done|]. by exists children, child. }
  split; [done|]. split; [done|].
  unfold get_issues. apply Forall_app. split.
  - eapply Forall_impl; [exact Hsem|]. intros i [[Hk Hs]|[Hk Hs]].
    + split; [by rewrite Hs | by destruct i].
    + split; [done | by destruct i].
  - eapply Forall_impl; [exact Hsyn|]. intros i [Hk _].
    by destruct i.
Qed.

Lemma analysis_issue_kinds_witness :
  exists a,
    AntTreeAnalyzer_init (linked two_errors_root) two_errors_root = Return a
    /\ Forall is_semantic_issue (semantic_issues a)
    /\ Forall (fun i =>
                 is_syntax_issue i
                 /\ exists children child,
                      node_children two_errors_root = Return children
                      /\ Some child ∈ children
                      /\ is_error_child (Some child) = true
                      /\ syntax_issue_of (linked two_errors_root) child = Some i)
         (syntax_issues a)
    /\ Forall (fun i =>
                 (issue_severity i = Warning -> is_ObscuredValue i = true)
                 /\ forall old_range new_range name,
                      i <> ObscuredDeclaration old_range new_range name)
         (get_issues a).
Proof.
  eexists. split; [vm_compute; reflexivity|].
  apply (analysis_issue_kinds (linked two_errors_root) two_errors_root).
  vm_compute; reflexivity.
Defined.

End Passes.

(** * The tree builder *)

Section Builder.

Import Scenarios.

#[local] Opaque TREE_MAP.

Local Open Scope nat_scope.

Variable get_token_range : Token.t -> SrcRange.
Variable get_tree_range : Lark -> SrcRange.

Local Notation "'transform'" :=
  (transform_node get_token_range get_tree_range).

Lemma transform_node_token tk n :
  transform (LToken tk) n
  = match TREE_MAP !! Token.type tk with
    | None => Raise KeyError
    | Some (TrunkCls _) => Raise TypeError
    | Some (LeafCls cls) =>
        Return (Leaf (mkLeaf n cls (get_token_range tk) (Token.value tk)), S n)
    end.
Proof. done. Qed.

(** [transform_tree] on a rule: the class is looked up first, then the
    children are transformed from left to right. *)
Lemma transform_node_tree data children n :
  transform (LTree data children) n
  = match TREE_MAP !! data with
    | None => Raise KeyError
    | Some (LeafCls _) => Raise TypeError
    | Some (TrunkCls cls) =>
        r <-- transform_slots transform children n ;;
        Return (Trunk r.2 cls (get_tree_range (LTree data children))
                  (if bool_decide (cls = DeclModifiers)
                   then decl_modifier_children r.1 else r.1), S r.2)
    end.
Proof. simpl. by destruct (TREE_MAP !! data) as [[cls | cls]|]. Qed.

Lemma well_tagged_tree data children :
  well_tagged (LTree data children)
  = match TREE_MAP !! data with
    | Some (TrunkCls _) => true
    | _ => false
    end
    && forallb (fun c => match c with
                         | Some t => well_tagged t
                         | None => true
                         end) children.
Proof.
  simpl. f_equal.
  induction children as [|[c|] cs IH]; simpl; [done | by rewrite IH | done].
Qed.

Lemma lark_size_tree data children :
  lark_size (LTree data children)
  = S (sum_list ((fun c => match c with
                           | Some t => lark_size t
                           | None => 0
                           end) <$> children)).
Proof.
  simpl. f_equal.
  induction children as [|[c|] cs IH]; simpl; [done | by rewrite IH | done].
Qed.

Lemma lark_tags_tree data children :
  lark_tags (LTree data children)
  = data :: flat_map (fun c => match c with
                               | Some t => lark_tags t
                               | None => []
                               end) children.
Proof.
  simpl. f_equal.
  induction children as [|[c|] cs IH]; simpl; [done | by rewrite IH | done].
Qed.

Lemma built_trunk id cls range children :
  built (Trunk id cls range children)
  = negb (is_scope_class cls)
    && (if bool_decide (cls = DeclModifiers) then
          match children with
          | [v; t] =>
              match v with None => true | Some _ => is_VarModifier v end
              && negb (is_VarModifier t)
          | _ => false
          end
        else true)
    && forallb (fun c => match c with
                         | Some n => built n
                         | None => true
                         end) children.
Proof.
  simpl. f_equal.
  induction children as [|[c|] cs IH]; simpl; [done | by rewrite IH | done].
Qed.

#[local] Opaque transform_node well_tagged lark_size lark_tags built.


Lemma transform_slots_run (f : Lark -> nat -> Result (TreeNode * nat)) cs :
  forall n r m,
    transform_slots f cs n = Return (r, m) -> slots_run f cs n r m.
Proof.
  induction cs as [|[c|] cs IH]; intros n r m H; simpl in H.
  - injection H as <- <-. constructor.
  - apply bind_Return_inv in H as ([node n1] & Hnode & H). simpl in H.
    apply bind_Return_inv in H as ([r' m'] & Hrest & H). simpl in H.
    injection H as <- <-. econstructor; [done|]. by apply IH.
  - apply bind_Return_inv in H as ([r' m'] & Hrest & H). simpl in H.
    injection H as <- <-. constructor. by apply IH.
Qed.

(** What a run of the loop gives, from what each child gives. *)
Lemma slots_run_Forall2 (P : Lark -> TreeNode -> Prop) cs n r m :
  Forall (fun c => match c with
                   | Some t => forall n node n',
                       transform t n = Return (node, n') -> P t node
                   | None => True
                   end) cs ->
  slots_run transform cs n r m ->
  Forall2 (option_Forall2 P) cs r.
Proof.
  intros IH Hrun. induction Hrun as [n | cs n r m Hrun IHrun
    | c cs n node n1 r m Hnode Hrun IHrun].
  - constructor.
  - apply Forall_cons in IH as [_ IH]. constructor; [constructor | auto].
  - apply Forall_cons in IH as [Hc IH].
    constructor; [constructor; by eapply Hc | auto].
Qed.

Lemma slots_run_counter cs n r m :
  Forall (fun c => match c with
                   | Some t => forall n node n',
                       transform t n = Return (node, n') ->
                       n' = n + lark_size t
                   | None => True
                   end) cs ->
  slots_run transform cs n r m ->
  m = n + sum_list ((fun c => match c with
                              | Some t => lark_size t
                              | None => 0
                              end) <$> cs).
Proof.
  intros IH Hrun. induction Hrun as [n | cs n r m Hrun IHrun
    | c cs n node n1 r m Hnode Hrun IHrun]; simpl.
  - lia.
  - apply Forall_cons in IH as [_ IH]. auto.
  - apply Forall_cons in IH as [Hc IH].
    rewrite (IHrun IH), (Hc _ _ _ Hnode). by rewrite Nat.add_assoc.
Qed.

Lemma transform_node_built_from (tree : Lark) : forall n node n',
  transform tree n = Return (node, n') ->
  built_from get_token_range get_tree_range tree node.
Proof.
  induction tree as [tk | data children IH] using Lark_children_ind;
    intros n node n' H.
  - rewrite transform_node_token in H.
    destruct (TREE_MAP !! Token.type tk) as [[cls | cls]|] eqn:Hmap; try done.
    injection H as <- <-. by constructor.
  - rewrite transform_node_tree in H.
    destruct (TREE_MAP !! data) as [[cls | cls]|] eqn:Hmap; try done.
    apply bind_Return_inv in H as ([r m] & Hslots & H). simpl in H.
    injection H as <- <-. apply built_from_tree; [done|].
    apply transform_slots_run in Hslots. by eapply slots_run_Forall2.
Qed.

Lemma transform_node_counter (tree : Lark) : forall n node n',
  transform tree n = Return (node, n') ->
  n' = n + lark_size tree /\ S (node_id node) = n'.
Proof.
  induction tree as [tk | data children IH] using Lark_children_ind;
    intros n node n' H.
  - rewrite transform_node_token in H.
    destruct (TREE_MAP !! Token.type tk) as [[cls | cls]|] eqn:Hmap; try done.
    injection H as <- <-. simpl. split; [|done].
    change (lark_size (LToken tk)) with 1. lia.
  - rewrite transform_node_tree in H.
    destruct (TREE_MAP !! data) as [[cls | cls]|] eqn:Hmap; try done.
    apply bind_Return_inv in H as ([r m] & Hslots & H). simpl in H.
    injection H as <- <-. split; [|done].
    rewrite lark_size_tree. apply transform_slots_run in Hslots.
    rewrite (slots_run_counter children n r m); [lia| |done].
    eapply Forall_impl; [exact IH|].
    intros [t|]; [|done]. simpl. intros Ht ? ? ? Hr. by apply Ht in Hr as [? _].
Qed.


Lemma transform_slots_returns cs :
  Forall (fun c => match c with
                   | Some t =>
                       well_tagged t = true ->
                       forall n, exists node,
                         transform t n = Return (node, n + lark_size t)
                   | None => True
                   end) cs ->
  forallb (fun c => match c with
                    | Some t => well_tagged t
                    | None => true
                    end) cs = true ->
  forall n, exists r,
    transform_slots transform cs n
    = Return (r, n + sum_list ((fun c => match c with
                                         | Some t => lark_size t
                                         | None => 0
                                         end) <$> cs)).
Proof.
  induction 1 as [|[c|] cs Hc _ IH]; intros Hall n; simpl in *.
  - exists []. by rewrite Nat.add_0_r.
  - apply andb_true_iff in Hall as [Hwt Hall].
    destruct (Hc Hwt n) as (node & ->). simpl.
    destruct (IH Hall (n + lark_size c)) as (r & ->). simpl.
    exists (Some node :: r). by rewrite Nat.add_assoc.
  - destruct (IH Hall n) as (r & ->). simpl. by exists (None :: r).
Qed.

Lemma transform_node_returns (tree : Lark) :
  well_tagged tree = true ->
  forall n, exists node, transform tree n = Return (node, n + lark_size tree).
Proof.
  induction tree as [tk | data children IH] using Lark_children_ind;
    intros Hwt n.
  - rewrite transform_node_token.
    change (well_tagged (LToken tk))
      with (match TREE_MAP !! Token.type tk with
            | Some (LeafCls _) => true
            | _ => false
            end) in Hwt.
    destruct (TREE_MAP !! Token.type tk) as [[cls | cls]|]; try done.
    eexists. change (lark_size (LToken tk)) with 1.
    by rewrite Nat.add_1_r.
  - rewrite transform_node_tree. rewrite well_tagged_tree in Hwt.
    apply andb_true_iff in Hwt as [Hdata Hall].
    destruct (TREE_MAP !! data) as [[cls | cls]|]; try done.
    destruct (transform_slots_returns children IH Hall n) as (r & ->).
    simpl. eexists. rewrite lark_size_tree. by rewrite Nat.add_succ_r.
Qed.

Lemma transform_node_tags (tree : Lark) : forall n node n',
  transform tree n = Return (node, n') ->
  Forall (fun tag => is_Some (TREE_MAP !! tag)) (lark_tags tree).
Proof.
  induction tree as [tk | data children IH] using Lark_children_ind;
    intros n node n' H.
  - rewrite transform_node_token in H.
    change (lark_tags (LToken tk)) with [Token.type tk].
    destruct (TREE_MAP !! Token.type tk) as [[cls | cls]|] eqn:Hmap; try done.
    constructor; [by rewrite Hmap | constructor].
  - rewrite transform_node_tree in H. rewrite lark_tags_tree.
    destruct (TREE_MAP !! data) as [[cls | cls]|] eqn:Hmap; try done.
    apply bind_Return_inv in H as ([r m] & Hslots & _).
    constructor; [by rewrite Hmap|].
    apply transform_slots_run in Hslots. clear Hmap.
    induction Hslots as [n | cs n r m Hrun IHrun
      | c cs n node1 n1 r m Hnode Hrun IHrun]; simpl.
    + constructor.
    + apply Forall_cons in IH as [_ IH]. auto.
    + apply Forall_cons in IH as [Hc IH]. apply Forall_app.
      split; [by eapply Hc | auto].
Qed.

(** X17: [transform_tree] returns a node for every tree in which each token
    type is the key of a leaf class in [TREE_MAP] and each rule name the key
    of a trunk class, and it constructs one node for each token and each
    rule, the root last.  When it returns, every token type and rule name of
    the tree is a key of [TREE_MAP].  [None] is transformed to [None]
    without constructing anything. *)
Theorem transform_tree_returns :
  (forall tree n,
     well_tagged tree = true ->
     exists node,
       transform_tree get_token_range get_tree_range (Some tree) n
       = Return (Some node, n + lark_size tree)
       /\ S (node_id node) = n + lark_size tree)
  /\ (forall tree n node n',
        transform_tree get_token_range get_tree_range (Some tree) n
        = Return (node, n') ->
        Forall (fun tag => is_Some (TREE_MAP !! tag)) (lark_tags tree)
        /\ n' = n + lark_size tree)
  /\ (forall n,
        transform_tree get_token_range get_tree_range None n
        = Return (None, n)).
Proof.
  split; [|split; [|done]].
  - intros tree n Hwt.
    destruct (transform_node_returns tree Hwt n) as (node & Hnode).
    exists node. unfold transform_tree. rewrite Hnode. split; [done|].
    by destruct (transform_node_counter _ _ _ _ Hnode).
  - intros tree n node n' H. unfold transform_tree in H.
    apply bind_Return_inv in H as ([node1 n1] & Hnode & H). simpl in H.
    injection H as <- <-. split; [by eapply transform_node_tags|].
    by destruct (transform_node_counter _ _ _ _ Hnode).
Qed.

(** ** The shape of the nodes *)

Lemma TREE_MAP_trunk_classes (key : string) cls :
  TREE_MAP !! key = Some (TrunkCls cls) -> is_scope_class cls = false.
Proof.
  intros H.
  assert (Hall : map_Forall (fun _ v => match v with
                                        | TrunkCls cls => is_scope_class cls = false
                                        | LeafCls _ => True
                                        end) TREE_MAP).
  { apply map_Forall_to_list. vm_compute. repeat constructor. }
  exact (Hall _ _ H).
Qed.

(** The two slots of a [DeclModifiers] node. *)
Lemma decl_modifier_children_slots (r : list (option TreeNode)) :
  exists v t,
    decl_modifier_children r = [v; t]
    /\ match v with None => true | Some _ => is_VarModifier v end = true
    /\ is_VarModifier t = false
    /\ (v = None \/ v ∈ r)
    /\ (t = None \/ t ∈ r).
Proof.
  unfold decl_modifier_children.
  assert (Hgen : forall (acc : option TreeNode * option TreeNode),
    match acc.1 with None => true | Some _ => is_VarModifier acc.1 end = true ->
    is_VarModifier acc.2 = false ->
    let slots :=
      fold_left
        (fun (acc : option TreeNode * option TreeNode) child =>
           if is_VarModifier child then (child, acc.2) else (acc.1, child))
        r acc in
    match slots.1 with None => true | Some _ => is_VarModifier slots.1 end = true
    /\ is_VarModifier slots.2 = false
    /\ (slots.1 = acc.1 \/ slots.1 ∈ r)
    /\ (slots.2 = acc.2 \/ slots.2 ∈ r)).
  { induction r as [|c r IH]; intros acc H1 H2; simpl.
    - split; [done|]. split; [done|]. split; by left.
    - destruct (is_VarModifier c) eqn:Hc.
      + destruct (IH (c, acc.2)) as (I1 & I2 & I3 & I4); simpl; [|done|].
        { by destruct c. }
        simpl in *. split; [done|]. split; [done|]. split.
        * right. destruct I3 as [->|?]; [by left | by right].
        * destruct I4 as [->|?]; [by left | right; by right].
      + destruct (IH (acc.1, c)) as (I1 & I2 & I3 & I4); simpl; [done|done|].
        simpl in *. split; [done|]. split; [done|]. split.
        * destruct I3 as [->|?]; [by left | right; by right].
        * right. destruct I4 as [->|?]; [by left | by right]. }
  destruct (Hgen (None, None)) as (I1 & I2 & I3 & I4); [done | done |].
  eexists _, _. split; [done|]. eauto.
Qed.

Lemma built_from_built (tree : Lark) : forall node,
  built_from get_token_range get_tree_range tree node -> built node = true.
Proof.
  induction tree as [tk | data children IH] using Lark_children_ind;
    intros node H; inversion H as [tk' id cls Hmap | data' children' id cls r Hmap Hr];
    subst; [done|].
  assert (Hall : Forall (fun c => match c with
                                  | Some n => built n = true
                                  | None => True
                                  end) r).
  { clear H Hmap. induction Hr as [|c t cs r Hct Hr IHr]; [constructor|].
    apply Forall_cons in IH as [Hc IH].
    constructor; [|auto]. destruct Hct as [c t Hct|]; [by apply Hc | done]. }
  rewrite built_trunk. rewrite (TREE_MAP_trunk_classes _ _ Hmap). simpl.
  destruct (decide (cls = DeclModifiers)) as [->|Hcls].
  - rewrite bool_decide_eq_true_2 by done.
    destruct (decl_modifier_children_slots r)
      as (v & t & -> & Hv & Ht & Hvr & Htr).
    rewrite Hv, Ht. simpl. rewrite Forall_forall in Hall.
    assert (Hbv : match v with Some n => built n | None => true end = true).
    { destruct Hvr as [->|Hin]; [done|]. apply Hall in Hin. by destruct v. }
    assert (Hbt : match t with Some n => built n | None => true end = true).
    { destruct Htr as [->|Hin]; [done|]. apply Hall in Hin. by destruct t. }
    by rewrite Hbv, Hbt.
  - rewrite bool_decide_eq_false_2 by done. simpl.
    apply forallb_forall. intros c Hc.
    rewrite Forall_forall in Hall. apply list_elem_of_In in Hc.
    apply Hall in Hc. by destruct c.
Qed.

Lemma built_descendants (node : TreeNode) :
  built node = true ->
  Forall (fun d => built d = true) (descendants_from node).
Proof.
  induction node as [l | id cls range children IH]
    using TreeNode_children_ind; intros Hb.
  - by repeat constructor.
  - rewrite descendants_from_trunk. constructor; [done|].
    rewrite built_trunk in Hb. apply andb_true_iff in Hb as [_ Hb].
    induction IH as [|[c|] cs Hc _ IHcs]; simpl in *.
    + constructor.
    + apply andb_true_iff in Hb as [Hbc Hb].
      apply Forall_app. split; [by apply Hc | by apply IHcs].
    + by apply IHcs.
Qed.

Lemma built_get_variab id range children :
  built (Trunk id DeclModifiers range children) = true ->
  exists v t variab,
    children = [v; t]
    /\ get_variab (Trunk id DeclModifiers range children) = Return variab.
Proof.
  rewrite built_trunk. simpl.
  destruct children as [|v [|t [|]]]; try done.
  intros H. apply andb_true_iff in H as [H _].
  apply andb_true_iff in H as [Hv _].
  exists v, t. destruct v as [[l | ? ? ? ?]|]; try done; simpl; eauto.
Qed.

(** X18: the tree that [transform_tree] returns has no [Model] and no
    [Function] node, and each of its [DeclModifiers] nodes has exactly two
    children, the first of them [None] or a [VarModifier] and the second no
    [VarModifier], so that [get_variab] returns on it.  A node of any other
    class has as many children as the rule it is built from, with [None] at
    the same places. *)
Theorem transform_tree_shape (tree : Lark) (n n' : nat) (root : TreeNode) :
  transform_tree get_token_range get_tree_range (Some tree) n
  = Return (Some root, n') ->
  Forall (fun d =>
            match d with
            | Leaf _ => True
            | Trunk id cls range children =>
                is_scope_class cls = false
                /\ (cls = DeclModifiers ->
                    exists v t variab,
                      children = [v; t]
                      /\ match v with
                         | None => true
                         | Some _ => is_VarModifier v
                         end = true
                      /\ is_VarModifier t = false
                      /\ get_variab d = Return variab)
            end) (descendants_from root)
  /\ match tree with
     | LToken tk =>
         exists cls,
           root = Leaf (mkLeaf n cls (get_token_range tk) (Token.value tk))
           /\ TREE_MAP !! Token.type tk = Some (LeafCls cls)
     | LTree data children =>
         exists id cls cs,
           root = Trunk id cls (get_tree_range tree) cs
           /\ S id = n'
           /\ TREE_MAP !! data = Some (TrunkCls cls)
           /\ (cls <> DeclModifiers ->
               Forall2 (fun c t => is_Some c <-> is_Some t) children cs)
     end.
Proof.
  intros H. unfold transform_tree in H.
  apply bind_Return_inv in H as ([node m] & Hnode & H). simpl in H.
  injection H as -> ->.
  pose proof (transform_node_built_from _ _ _ _ Hnode) as Hfrom.
  split.
  - eapply Forall_impl; [apply built_descendants, (built_from_built _ _ Hfrom)|].
    intros [l | id cls range children] Hb; [done|]. simpl in Hb.
    split.
    + rewrite built_trunk in Hb.
      apply andb_true_iff in Hb as [Hb _]. apply andb_true_iff in Hb as [Hb _].
      by apply negb_true_iff in Hb.
    + intros ->. destruct (built_get_variab _ _ _ Hb) as (v & t & variab & -> & Hv).
      exists v, t, variab. rewrite built_trunk in Hb. simpl in Hb.
      apply andb_true_iff in Hb as [Hb _]. apply andb_true_iff in Hb as [Hb1 Hb2].
      apply negb_true_iff in Hb2. done.
  - destruct tree as [tk | data children].
    + rewrite transform_node_token in Hnode.
      destruct (TREE_MAP !! Token.type tk) as [[cls | cls]|]; try done.
      injection Hnode as <- <-. by exists cls.
    + rewrite transform_node_tree in Hnode.
      destruct (TREE_MAP !! data) as [[cls | cls]|] eqn:Hmap; try done.
      apply bind_Return_inv in Hnode as ([r m] & Hslots & Hnode).
      simpl in Hnode. injection Hnode as <- <-.
      eexists _, cls, _. split; [done|]. split; [done|]. split; [done|].
      intros Hcls. rewrite bool_decide_eq_false_2 by done.
      apply transform_slots_run in Hslots. clear Hmap Hfrom.
      induction Hslots; by constructor.
Qed.

(** ** The modifiers of a declaration *)

Lemma decl_modifier_children_last (r : list (option TreeNode)) :
  decl_modifier_children r
  = [mjoin (last (filter (fun t => is_VarModifier t = true) r));
     mjoin (last (filter (fun t => is_VarModifier t = false) r))].
Proof.
  unfold decl_modifier_children.
  assert (Hgen : forall (acc : option TreeNode * option TreeNode),
    fold_left
      (fun (acc : option TreeNode * option TreeNode) child =>
         if is_VarModifier child then (child, acc.2) else (acc.1, child))
      r acc
    = (default acc.1 (last (filter (fun t => is_VarModifier t = true) r)),
       default acc.2 (last (filter (fun t => is_VarModifier t = false) r)))).
  { induction r as [|c r IH]; intros [a b]; [done|]. simpl fold_left.
    destruct (is_VarModifier c) eqn:Hc.
    - rewrite IH. rewrite filter_cons_True by done.
      rewrite filter_cons_False by (by rewrite Hc). simpl. f_equal.
      rewrite last_cons. clear IH. destruct (last (filter _ r)); simpl; done.
    - rewrite IH. rewrite filter_cons_False by (by rewrite Hc).
      rewrite filter_cons_True by done. simpl. f_equal.
      rewrite last_cons. clear IH. destruct (last (filter _ r)); simpl; done. }
  rewrite Hgen. simpl.
  by destruct (last (filter _ r)), (last (filter _ r)).
Qed.

Lemma Forall2_filter_rel {A B : Type} (R : A -> B -> Prop)
    (P : A -> Prop) (Q : B -> Prop)
    `{forall x, Decision (P x)} `{forall y, Decision (Q y)} l k :
  (forall x y, R x y -> (P x <-> Q y)) ->
  Forall2 R l k -> Forall2 R (filter P l) (filter Q k).
Proof.
  intros HPQ. induction 1 as [|x y l k Hxy Hlk IH]; [constructor|].
  destruct (decide (P x)) as [HP|HP].
  - rewrite !filter_cons_True by (done || by apply (HPQ x y)).
    by constructor.
  - rewrite !filter_cons_False by (done || by rewrite <- (HPQ x y)).
    done.
Qed.

Lemma built_from_is_VarModifier (c : option Lark) (t : option TreeNode) :
  option_Forall2 (built_from get_token_range get_tree_range) c t ->
  is_VarModifier t = is_var_token c.
Proof.
  intros [tree node H|]; [|done]. destruct H as [tk id cls Hmap | ]; simpl.
  - rewrite Hmap. apply bool_decide_ext.
    split; [by intros -> | by intros [= ->]].
  - done.
Qed.

(** X19: the two slots of the [DeclModifiers] node of a [decl_modifiers]
    rule.  [get_variab] returns the variability that the last
    [VAR_MODIFIER] token of the rule stands for, [CONSTANT] for the text
    [const] and [VARIABLE] for any other text, and [UNKNOWN] when there is
    no such token.  [get_type] reads the last child that is no
    [VAR_MODIFIER] token: it returns [Unknown] when there is none or when
    it is [None], the type named by the text when it is a token, with
    [KeyError] for a text that names none, and fails with [AttributeError]
    when it is a rule. *)
Theorem decl_modifiers_variability (children : list (option Lark))
    (n n' : nat) (node : TreeNode) :
  transform_tree get_token_range get_tree_range
    (Some (LTree "decl_modifiers" children)) n
  = Return (Some node, n') ->
  get_variab node = Return (variab_of_tokens children)
  /\ get_type node
     = match type_token children with
       | None | Some None => Return SymbolType.Unknown
       | Some (Some (LTree _ _)) => Raise AttributeError
       | Some (Some (LToken tk)) =>
           if bool_decide (Token.value tk = "species")
           then Return SymbolType.Species
           else if bool_decide (Token.value tk = "compartment")
           then Return SymbolType.Compartment
           else if bool_decide (Token.value tk = "formula")
           then Return SymbolType.Parameter_
           else Raise KeyError
       end.
Proof.
  intros H. unfold transform_tree in H.
  apply bind_Return_inv in H as ([node1 m] & Hnode & H). simpl in H.
  injection H as -> ->.
  pose proof (transform_node_built_from _ _ _ _ Hnode) as Hfrom.
  inversion Hfrom as [| data' children' id cls r Hmap Hr]; subst.
  assert (cls = DeclModifiers) as ->.
  { assert (Hd : TREE_MAP !! "decl_modifiers" = Some (TrunkCls DeclModifiers))
      by (vm_compute; reflexivity).
    rewrite Hd in Hmap. by injection Hmap as <-. }
  rewrite bool_decide_eq_true_2 by done.
  rewrite decl_modifier_children_last.
  assert (Hvar : option_Forall2
            (option_Forall2 (built_from get_token_range get_tree_range))
            (last (filter (fun c => is_var_token c = true) children))
            (last (filter (fun t => is_VarModifier t = true) r))).
  { apply Forall2_last. apply Forall2_filter_rel; [|done].
    intros c t Hct. by rewrite (built_from_is_VarModifier c t Hct). }
  assert (Htyp : option_Forall2
            (option_Forall2 (built_from get_token_range get_tree_range))
            (last (filter (fun c => is_var_token c = false) children))
            (last (filter (fun t => is_VarModifier t = false) r))).
  { apply Forall2_last. apply Forall2_filter_rel; [|done].
    intros c t Hct. by rewrite (built_from_is_VarModifier c t Hct). }
  split.
  - unfold variab_of_tokens.
    destruct (last (filter (fun c => is_var_token c = true) children))
      as [c|] eqn:Hlast; inversion Hvar as [c' t Hct|]; subst; [|done].
    apply last_Some_elem_of, list_elem_of_filter in Hlast as [Hv _].
    destruct Hct as [tree node Hb|]; [|done].
    by destruct Hb.
  - unfold type_token.
    destruct (last (filter (fun c => is_var_token c = false) children))
      as [c|] eqn:Hlast; inversion Htyp as [c' t Hct|]; subst; [|done].
    destruct Hct as [tree node Hb|]; [|done].
    destruct Hb; [|done]. simpl. repeat case_bool_decide; done.
Qed.

(** ** The position query on a tree of the builder *)

Lemma elem_of_children_leaves (children : list (option TreeNode)) l :
  l ∈ children_leaves children
  <-> exists c, Some c ∈ children /\ l ∈ scan_leaves c.
Proof.
  unfold children_leaves. rewrite elem_of_flat_map. split.
  - intros ([c|] & Hc & Hl); [eauto | by apply not_elem_of_nil in Hl].
  - intros (c & Hc & Hl). by exists (Some c).
Qed.

Lemma built_qname_from (node_str : TreeNode -> string) pos (node : TreeNode) :
  built node = true ->
  qname_from node_str pos node None None = Return None
  \/ exists l,
       qname_from node_str pos node None None
       = Return (Some (QName.mk BaseScope (Some (Leaf l))))
       /\ l ∈ scan_leaves node
       /\ match node with
          | Leaf _ => True
          | Trunk _ _ _ _ => within_range pos (Leaf l) = true
          end.
Proof.
  induction node as [l | id cls range children IH]
    using TreeNode_children_ind; intros Hb.
  - right. exists l. split; [done|]. split; [by apply list_elem_of_singleton | done].
  - rewrite built_trunk in Hb.
    apply andb_true_iff in Hb as [Hb Hall].
    apply andb_true_iff in Hb as [Hcls _]. apply negb_true_iff in Hcls.
    rewrite qname_from_plain by done. rewrite scan_leaves_trunk.
    induction IH as [|[c|] cs Hc _ IHcs]; simpl in Hall.
    + by left.
    + apply andb_true_iff in Hall as [Hbc Hall].
      destruct (within_range pos c) eqn:Hin.
      * destruct (Hc Hbc) as [Hnone | (l & Hret & Hl & Hrange)]; [by left|].
        right. exists l. split; [done|]. split.
        { rewrite children_leaves_cons. apply elem_of_app. by left. }
        destruct c as [l' | ? ? ? ?]; [|done].
        simpl in Hret. by injection Hret as <-.
      * destruct (IHcs Hall) as [Hnone | (l & Hret & Hl & Hrange)];
          [by left|].
        right. exists l. split; [done|]. split; [|done].
        rewrite children_leaves_cons. apply elem_of_app. by right.
    + destruct (IHcs Hall) as [Hnone | (l & Hret & Hl & Hrange)]; [by left|].
      right. exists l. by rewrite children_leaves_cons.
Qed.

Lemma elem_of_lark_tokens_tree data (children : list (option Lark)) c tk :
  Some c ∈ children -> tk ∈ lark_tokens c ->
  tk ∈ lark_tokens (LTree data children).
Proof.
  intros Hc Htk. rewrite lark_tokens_tree. apply elem_of_flat_map.
  by exists (Some c).
Qed.

(** Every leaf of the tree built is made from a token of the tree of the
    parser. *)
Lemma built_from_leaves (tree : Lark) : forall node l,
  built_from get_token_range get_tree_range tree node ->
  l ∈ scan_leaves node ->
  exists tk,
    tk ∈ lark_tokens tree
    /\ leaf_range l = get_token_range tk /\ text l = Token.value tk.
Proof.
  induction tree as [tk | data children IH] using Lark_children_ind;
    intros node l H Hl;
    inversion H as [tk' id cls Hmap | data' children' id cls r Hmap Hr]; subst.
  - apply list_elem_of_singleton in Hl as ->. exists tk.
    split; [by apply list_elem_of_singleton | done].
  - rewrite scan_leaves_trunk in Hl.
    assert (Hin : exists t, Some t ∈ r /\ l ∈ scan_leaves t).
    { apply elem_of_children_leaves in Hl as (t & Ht & Hlt).
      exists t. split; [|done].
      case_bool_decide; [|done].
      destruct (decl_modifier_children_slots r)
        as (v & t' & Heq & _ & _ & Hv & Ht').
      rewrite Heq in Ht.
      apply elem_of_cons in Ht as [<-|Ht]; [by destruct Hv|].
      apply list_elem_of_singleton in Ht as <-. by destruct Ht'. }
    destruct Hin as (t & Ht & Hlt).
    apply list_elem_of_lookup in Ht as [i Hi].
    destruct (Forall2_lookup_r _ _ _ _ _ Hr Hi) as (c & Hci & Hct).
    inversion Hct as [c' t' Hb|]; subst.
    rewrite Forall_lookup in IH. pose proof (IH _ _ Hci) as IHc. simpl in IHc.
    destruct (IHc _ _ Hb Hlt) as (tk & Htk & Hdata).
    exists tk. split; [|done].
    eapply elem_of_lark_tokens_tree; [|done].
    by eapply list_elem_of_lookup_2.
Qed.

(** X20: on a tree that [transform_tree] has built, [get_qname_at_position]
    does not raise.  It returns [None], or a qname with [BaseScope] and a
    leaf of the tree; that leaf is made from a token of the source, and, the
    root being a rule, its range contains the position. *)
Theorem get_qname_at_position_built (tree : Lark) (n n' : nat)
    (root : TreeNode) (node_str : TreeNode -> string) (pos : SrcPosition) :
  transform_tree get_token_range get_tree_range (Some tree) n
  = Return (Some root, n') ->
  get_qname_at_position node_str root pos = Return None
  \/ exists l tk,
       get_qname_at_position node_str root pos
       = Return (Some (QName.mk BaseScope (Some (Leaf l))))
       /\ l ∈ scan_leaves root
       /\ tk ∈ lark_tokens tree
       /\ leaf_range l = get_token_range tk
       /\ text l = Token.value tk
       /\ match tree with
          | LToken _ => True
          | LTree _ _ =>
              pos_ge pos (start (get_token_range tk)) = true
              /\ pos_lt pos (end_ (get_token_range tk)) = true
          end.
Proof.
  intros H. unfold transform_tree in H.
  apply bind_Return_inv in H as ([node m] & Hnode & H). simpl in H.
  injection H as -> ->.
  pose proof (transform_node_built_from _ _ _ _ Hnode) as Hfrom.
  destruct (built_qname_from node_str pos root (built_from_built _ _ Hfrom))
    as [Hnone | (l & Hret & Hl & Hrange)]; [by left|].
  right. destruct (built_from_leaves _ _ _ Hfrom Hl) as (tk & Htk & Hr & Ht).
  exists l, tk. split; [done|]. split; [done|]. split; [done|].
  split; [done|]. split; [done|].
  destruct Hfrom; [done|]. rewrite <- Hr.
  unfold within_range in Hrange. simpl in Hrange.
  by apply andb_true_iff in Hrange.
Qed.

End Builder.

(** ** Examples for the tree builder *)

Section BuilderExamples.

Import Scenarios.

Lemma transform_tree_shape_witness :
  exists root n',
    transform_tree token_range tree_span (Some lark_declaration) 0
    = Return (Some root, n')
    /\ Forall (fun d =>
                 match d with
                 | Leaf _ => True
                 | Trunk id cls range children =>
                     is_scope_class cls = false
                     /\ (cls = DeclModifiers ->
                         exists v t variab,
                           children = [v; t]
                           /\ match v with
                              | None => true
                              | Some _ => is_VarModifier v
                              end = true
                           /\ is_VarModifier t = false
                           /\ get_variab d = Return variab)
                 end) (descendants_from root).
Proof.
  eexists _, _. split; [vm_compute; reflexivity|].
  eapply proj1.
  apply (transform_tree_shape token_range tree_span lark_declaration 0 14).
  vm_compute; reflexivity.
Defined.

Lemma decl_modifiers_variability_witness :
  exists node n',
    transform_tree token_range tree_span
      (Some (LTree "decl_modifiers"
               [tok "VAR_MODIFIER" "const" 1 6; tok "TYPE_MODIFIER" "species" 7 14]))
      0
    = Return (Some node, n')
    /\ get_variab node = Return CONSTANT
    /\ get_type node = Return SymbolType.Species.
Proof.
  eexists _, _. split; [vm_compute; reflexivity|].
  match goal with
  | |- get_variab ?node = _ /\ _ =>
      destruct (decl_modifiers_variability token_range tree_span
                  [tok "VAR_MODIFIER" "const" 1 6;
                   tok "TYPE_MODIFIER" "species" 7 14] 0 3 node)
        as [Hvariab Htype]; [vm_compute; reflexivity|]
  end.
  split.
  - rewrite Hvariab. vm_compute. reflexivity.
  - rewrite Htype. vm_compute. reflexivity.
Defined.

Lemma get_qname_at_position_built_witness :
  exists root n',
    transform_tree token_range tree_span (Some lark_declaration) 0
    = Return (Some root, n')
    /\ (get_qname_at_position (fun _ => EmptyString) root (mkPos 1 13)
        = Return None
        \/ exists l tk,
             get_qname_at_position (fun _ => EmptyString) root (mkPos 1 13)
             = Return (Some (QName.mk BaseScope (Some (Leaf l))))
             /\ l ∈ scan_leaves root
             /\ tk ∈ lark_tokens lark_declaration
             /\ leaf_range l = token_range tk
             /\ text l = Token.value tk
             /\ pos_ge (mkPos 1 13) (start (token_range tk)) = true
             /\ pos_lt (mkPos 1 13) (end_ (token_range tk)) = true).
Proof.
  eexists _, _. split; [vm_compute; reflexivity|].
  apply (get_qname_at_position_built token_range tree_span lark_declaration
           0 14).
  vm_compute; reflexivity.
Defined.

End BuilderExamples.

(** * Parents and siblings *)

Section Parents.

Import Scenarios.

Local Open Scope nat_scope.

Implicit Types (parents : gmap nat TreeNode) (root node : TreeNode).

Lemma parent_edges_trunk id cls range children :
  parent_edges (Trunk id cls range children)
  = flat_map (fun c => match c with
                       | Some child =>
                           (child, Trunk id cls range children)
                           :: parent_edges child
                       | None => []
                       end) children.
Proof.
  simpl. generalize (Trunk id cls range children) as p. intros p.
  induction children as [|[c|] cs IH]; simpl; [done | | done].
  by rewrite IH.
Qed.

Lemma set_parents_trunk id cls range children parents :
  set_parents (Trunk id cls range children) parents
  = fold_left (fun parents c =>
                 match c with
                 | Some child =>
                     set_parents child
                       (<[node_id child := Trunk id cls range children]> parents)
                 | None => parents
                 end) children parents.
Proof.
  simpl. generalize (Trunk id cls range children) as p. intros p.
  revert parents.
  induction children as [|[c|] cs IH]; intros parents; simpl; [done | |];
    by rewrite IH.
Qed.

(** [set_parents] writes the parent of each node below the root, in the
    order of [parent_edges]. *)
Lemma set_parents_edges root : forall parents,
  set_parents root parents
  = fold_left (fun parents e => <[node_id e.1 := e.2]> parents)
      (parent_edges root) parents.
Proof.
  induction root as [l | id cls range children IH]
    using TreeNode_children_ind; intros parents; [done|].
  rewrite set_parents_trunk, parent_edges_trunk.
  generalize (Trunk id cls range children) as p. intros p. revert parents.
  induction IH as [|[c|] cs Hc _ IHcs]; intros parents; simpl; [done | |].
  - rewrite fold_left_app. rewrite IHcs. by rewrite Hc.
  - apply IHcs.
Qed.

(** The nodes that get a parent are the descendants but the root, each
    once. *)
Lemma parent_edges_children root :
  (parent_edges root).*1 = tail (descendants_from root).
Proof.
  induction root as [l | id cls range children IH]
    using TreeNode_children_ind; [done|].
  rewrite parent_edges_trunk, descendants_from_trunk. simpl.
  generalize (Trunk id cls range children) as p. intros p.
  induction IH as [|[c|] cs Hc _ IHcs]; simpl; [done | | done].
  rewrite fmap_app, Hc, IHcs. by rewrite (descendants_from_head c) at 2.
Qed.

(** The parent in an edge is a node of the tree, and the child one of its
    children. *)
Lemma parent_edges_spec root child parent :
  (child, parent) ∈ parent_edges root
  <-> parent ∈ descendants_from root
      /\ exists children,
           node_children parent = Return children /\ Some child ∈ children.
Proof.
  induction root as [l | id cls range children IH]
    using TreeNode_children_ind.
  - simpl. split; [by intros ?%not_elem_of_nil|].
    intros [->%list_elem_of_singleton (children & Hc & _)]. done.
  - rewrite parent_edges_trunk, descendants_from_trunk.
    rewrite elem_of_flat_map, elem_of_cons, elem_of_flat_map. split.
    + intros ([c|] & Hc & Hin); [|by apply not_elem_of_nil in Hin].
      apply elem_of_cons in Hin as [[= -> ->]|Hin].
      * split; [by left|]. by exists children.
      * rewrite Forall_forall in IH. apply (IH _ Hc) in Hin as [Hp Hch].
        split; [|done]. right. by exists (Some c).
    + intros [[->|([c|] & Hc & Hin)] (cs & Hcs & Hch)].
      * simpl in Hcs. injection Hcs as <-. exists (Some child).
        split; [done|]. by left.
      * exists (Some c). split; [done|]. right.
        rewrite Forall_forall in IH. apply (IH _ Hc). split; [done|].
        by exists cs.
      * by apply not_elem_of_nil in Hin.
Qed.

Lemma fold_insert_lookup (edges : list (TreeNode * TreeNode)) :
  forall parents,
    NoDup (node_id <$> edges.*1) ->
    (forall child parent, (child, parent) ∈ edges ->
       fold_left (fun parents e => <[node_id e.1 := e.2]> parents) edges parents
       !! node_id child = Some parent)
    /\ (forall k, k ∉ node_id <$> edges.*1 ->
          fold_left (fun parents e => <[node_id e.1 := e.2]> parents)
            edges parents !! k
          = parents !! k).
Proof.
  induction edges as [|[c p] edges IH]; intros parents Hnd; simpl.
  - split; [by intros ? ? ?%not_elem_of_nil | done].
  - apply NoDup_cons in Hnd as [Hc Hnd].
    destruct (IH (<[node_id c := p]> parents) Hnd) as [Hin Hout]. split.
    + intros child parent [[= -> ->]|Hcp]%elem_of_cons.
      * rewrite Hout by done. apply lookup_insert_eq.
      * by apply Hin.
    + intros k Hk. apply not_elem_of_cons in Hk as [Hkc Hk].
      rewrite Hout by done. by rewrite lookup_insert_ne.
Qed.

Lemma next_sibling_in_lookup (children : list (option TreeNode)) :
  forall i child,
    NoDup (node_id <$> omap id children) ->
    children !! i = Some (Some child) ->
    next_sibling_in child children = mjoin (children !! S i).
Proof.
  induction children as [|c cs IH]; intros i child Hnd Hi; [done|].
  destruct i as [|i]; simpl in Hi.
  - injection Hi as ->. simpl. rewrite bool_decide_eq_true_2 by done.
    by destruct cs.
  - simpl. rewrite bool_decide_eq_false_2.
    + apply IH; [|done]. destruct c; [|done]. simpl in Hnd.
      by apply NoDup_cons in Hnd as [_ Hnd].
    + destruct c as [c|]; [|done]. simpl. intros [= Heq].
      simpl in Hnd. apply NoDup_cons in Hnd as [Hc _]. apply Hc.
      rewrite Heq. apply list_elem_of_fmap. exists child. split; [done|].
      apply list_elem_of_omap. exists (Some child). split; [|done].
      by eapply list_elem_of_lookup_2.
Qed.

Lemma children_sublist_descendants (children : list (option TreeNode)) :
  omap id children
  `sublist_of` flat_map (fun c => match c with
                                  | Some n => descendants_from n
                                  | None => []
                                  end) children.
Proof.
  induction children as [|[c|] cs IH]; simpl; [done | | done].
  rewrite (descendants_from_head c). simpl. apply sublist_skip.
  by apply sublist_inserts_l.
Qed.

(** X21: in a tree in which no object occurs twice, [set_parents] leaves
    the root without parent and gives every other node the node it is a
    child of.  [next_sibling] of the child at position [i] then returns the
    child at position [i + 1], which may be [None], and [None] for the last
    child; for the root, and for any node before [set_parents] has run, it
    returns [None]. *)
Theorem set_parents_next_sibling root :
  distinct_nodes root ->
  set_parents root ∅ !! node_id root = None
  /\ next_sibling (set_parents root ∅) root = Return None
  /\ (forall node, next_sibling ∅ node = Return None)
  /\ (forall parent children (i : nat) child,
        parent ∈ descendants_from root ->
        node_children parent = Return children ->
        children !! i = Some (Some child) ->
        set_parents root ∅ !! node_id child = Some parent
        /\ next_sibling (set_parents root ∅) child
           = Return (mjoin (children !! S i))
        /\ (S i = length children ->
            next_sibling (set_parents root ∅) child = Return None)).
Proof.
  intros Hnd. set (parents := set_parents root ∅).
  unfold distinct_nodes in Hnd.
  assert (Hedges : NoDup (node_id <$> (parent_edges root).*1)
                   /\ node_id root ∉ node_id <$> (parent_edges root).*1).
  { rewrite parent_edges_children.
    rewrite (descendants_from_head root) in Hnd. simpl in Hnd.
    apply NoDup_cons in Hnd as [Hroot Hnd]. done. }
  destruct Hedges as [Hkeys Hroot].
  destruct (fold_insert_lookup (parent_edges root) ∅ Hkeys) as [Hin Hout].
  assert (Hrootp : parents !! node_id root = None).
  { unfold parents. rewrite set_parents_edges, Hout by done. done. }
  split; [done|]. split; [unfold next_sibling; by rewrite Hrootp|].
  split; [done|].
  intros parent children i child Hp Hch Hi.
  assert (Hparent : parents !! node_id child = Some parent).
  { unfold parents. rewrite set_parents_edges. apply Hin.
    apply parent_edges_spec. split; [done|]. exists children.
    split; [done|]. by eapply list_elem_of_lookup_2. }
  assert (Hnext : next_sibling parents child
                  = Return (mjoin (children !! S i))).
  { unfold next_sibling. rewrite Hparent, Hch. simpl. f_equal.
    apply next_sibling_in_lookup; [|done].
    destruct parent as [l | id cls range cs]; [done|].
    simpl in Hch. injection Hch as ->.
    pose proof (descendants_from_sublist _ _ Hp) as Hsub.
    rewrite descendants_from_trunk in Hsub.
    eapply sublist_NoDup; [exact Hnd|]. apply fmap_sublist.
    etrans; [apply children_sublist_descendants|].
    etrans; [|exact Hsub]. by apply sublist_cons. }
  split; [done|]. split; [done|].
  intros Hlast. rewrite Hnext.
  by rewrite (lookup_ge_None_2 children (S i)) by lia.
Qed.

Lemma set_parents_next_sibling_witness :
  set_parents const_species_root ∅ !! node_id const_species_root = None
  /\ next_sibling (set_parents const_species_root ∅) const_species_root
     = Return None
  /\ (forall node, next_sibling ∅ node = Return None)
  /\ (forall parent children (i : nat) child,
        parent ∈ descendants_from const_species_root ->
        node_children parent = Return children ->
        children !! i = Some (Some child) ->
        set_parents const_species_root ∅ !! node_id child = Some parent
        /\ next_sibling (set_parents const_species_root ∅) child
           = Return (mjoin (children !! S i))
        /\ (S i = length children ->
            next_sibling (set_parents const_species_root ∅) child
            = Return None)).
Proof.
  apply (set_parents_next_sibling const_species_root).
  unfold distinct_nodes. vm_compute. repeat constructor; set_solver.
Defined.

End Parents.

(** * Annotations *)

Section Annotations.

Import Scenarios MoreScenarios.

Implicit Types (self table : SymbolTable) (scope : AbstractScope).
Implicit Types (nm : LeafNode) (typ : SymbolType.t) (sym : Symbol.t).

Lemma string_app_assoc (s t u : string) : (s +:+ t) +:+ u = s +:+ (t +:+ u).
Proof.
  induction s as [|c s IH]; [done|].
  change (String c ((s +:+ t) +:+ u) = String c (s +:+ (t +:+ u))).
  by rewrite IH.
Qed.

Lemma annotations_with_decl_value sym nm (decl_node value_node : option TreeNode) :
  Symbol.annotations (with_decl_value sym nm decl_node value_node)
  = Symbol.annotations sym.
Proof. by destruct decl_node, value_node. Qed.

(** [insert] keeps the annotations of the symbol, and a new symbol has
    none. *)
Lemma insert_annotations self scope nm typ
    (decl_node value_node : option TreeNode) self' :
  insert self (QName.mk scope (Some (Leaf nm))) typ decl_node value_node
  = Return self' ->
  exists sym',
    leaf_table_of self' scope !! text nm = Some sym'
    /\ Symbol.annotations sym'
       = default [] (Symbol.annotations <$> leaf_table_of self scope !! text nm)
    /\ (leaf_table_of self scope !! text nm = None ->
        Symbol.type sym' = typ /\ Symbol.name sym' = text nm).
Proof.
  intros Hins.
  destruct (insert_cases self scope nm typ decl_node value_node)
    as (self'' & Hins' & Hcase).
  rewrite Hins in Hins'. injection Hins' as <-.
  destruct Hcase as [Hl | sym Hl D | sym Hl D1 D2 | sym Hl D1 D2];
    rewrite ?leaf_table_of_insert_decl_value, ?leaf_table_of_append_issue,
      ?leaf_table_of_logged, ?lookup_insert_eq, Hl;
    (eexists; split; [done|]);
    rewrite ?annotations_with_decl_value, ?type_with_decl_value; simpl;
    (split; [done|]); try done.
  intros _. by destruct decl_node, value_node.
Qed.

(** X23: what [handle_annotation] leaves behind.  When it returns, the
    annotated name is a leaf and has a symbol whose annotations are those
    it had before followed by the annotation node, and the name is logged
    once.  For a name that had no symbol, the symbol has type [Parameter],
    and [help_str] of it raises what [get_uri] of the annotation raises and
    otherwise returns a text that ends with the URI of the annotation. *)
Theorem handle_annotation_appends table scope (annotation : TreeNode) table' :
  handle_annotation table scope annotation = Return table' ->
  exists nm sym,
    (var_name <-- get_var_name annotation ;; call get_name var_name)
    = Return (Some (Leaf nm))
    /\ leaf_table_of table' scope !! text nm = Some sym
    /\ Symbol.annotations sym
       = default [] (Symbol.annotations <$> leaf_table_of table scope !! text nm)
         ++ [annotation]
    /\ _qnames table' = _qnames table ++ [QName.mk scope (Some (Leaf nm))]
    /\ (leaf_table_of table scope !! text nm = None ->
        Symbol.type sym = SymbolType.Parameter_
        /\ def_name sym = Leaf nm
        /\ (forall e, get_uri annotation = Raise e -> help_str sym = Raise e)
        /\ (forall uri, get_uri annotation = Return uri ->
              exists head, help_str sym = Return (head +:+ uri))).
Proof.
  intros H. unfold handle_annotation in H.
  apply bind_Return_inv in H as (var_name & Hvar_name & H).
  apply bind_Return_inv in H as (name & Hname & H).
  apply bind_Return_inv in H as (table1 & Htable1 & H).
  destruct (insert_leaf_only _ _ _ _ _ _ Htable1) as [nm Hq].
  simpl in Hq. subst name. exists nm.
  destruct (insert_annotations _ _ _ _ _ _ _ Htable1)
    as (sym1 & Hsym1 & Hann1 & Hnew).
  destruct (insert_plain table scope nm SymbolType.Parameter_)
    as (table1' & new & Hins & Hq1 & _).
  rewrite Htable1 in Hins. injection Hins as <-.
  destruct (insert_annotation_leaf table1 scope nm annotation)
    as (table'' & Hret & _ & Hqnames & Hlook & _).
  rewrite H in Hret. injection Hret as <-.
  rewrite Hsym1 in Hlook. simpl in Hlook.
  eexists. split; [by rewrite Hvar_name|]. split; [exact Hlook|].
  split; [simpl; by rewrite Hann1|]. split; [by rewrite Hqnames|].
  intros Hnone. destruct (Hnew Hnone) as [Htype Hname'].
  rewrite Hnone in Hann1. simpl in Hann1.
  split; [done|].
  assert (Hfresh : sym1 = Symbol.init (text nm) SymbolType.Parameter_ nm).
  { destruct (insert_cases table scope nm SymbolType.Parameter_ None None)
      as (t & Hins & Hcase).
    rewrite Htable1 in Hins. injection Hins as <-.
    destruct Hcase as [Hl | sym Hl D | sym Hl D1 D2 | sym Hl D1 D2];
      try congruence.
    rewrite leaf_table_of_insert_decl_value, lookup_insert_eq in Hsym1.
    by injection Hsym1 as <-. }
  subst sym1. split; [done|].
  unfold help_str; simpl. split.
  - by intros e ->.
  - intros uri ->. simpl. eexists. rewrite <- !string_app_assoc.
    reflexivity.
Qed.

Lemma handle_annotation_appends_witness :
  exists table',
    handle_annotation SymbolTable_init BaseScope annotation_A = Return table'
    /\ exists nm sym,
         (var_name <-- get_var_name annotation_A ;; call get_name var_name)
         = Return (Some (Leaf nm))
         /\ leaf_table_of table' BaseScope !! text nm = Some sym
         /\ Symbol.annotations sym
            = default []
                (Symbol.annotations
                   <$> leaf_table_of SymbolTable_init BaseScope !! text nm)
              ++ [annotation_A]
         /\ _qnames table'
            = _qnames SymbolTable_init
              ++ [QName.mk BaseScope (Some (Leaf nm))]
         /\ (leaf_table_of SymbolTable_init BaseScope !! text nm = None ->
             Symbol.type sym = SymbolType.Parameter_
             /\ def_name sym = Leaf nm
             /\ (forall e, get_uri annotation_A = Raise e ->
                   help_str sym = Raise e)
             /\ (forall uri, get_uri annotation_A = Return uri ->
                   exists head, help_str sym = Return (head +:+ uri))).
Proof.
  eexists. split; [vm_compute; reflexivity|].
  apply (handle_annotation_appends SymbolTable_init BaseScope annotation_A).
  vm_compute; reflexivity.
Defined.

End Annotations.

(** * References into the tree *)

Section References.

Import Scenarios.

Implicit Types (self table : SymbolTable) (scope : AbstractScope).
Implicit Types (nm : LeafNode) (typ : SymbolType.t) (sym : Symbol.t).
Implicit Types (root : TreeNode) (decl_node value_node : option TreeNode).

Lemma init_below root nm typ :
  nm ∈ scan_leaves root ->
  symbol_below root (Symbol.init (text nm) typ nm).
Proof.
  intros Hnm. split; [done|]. split; [done|]. split; [done|].
  split; [done | constructor].
Qed.

Lemma set_type_below root sym nm typ :
  nm ∈ scan_leaves root ->
  symbol_below root sym -> symbol_below root (Symbol.set_type sym typ nm).
Proof. intros Hnm (H1 & H2 & H3 & H4 & H5). by repeat split. Qed.

Lemma with_decl_value_below root sym nm decl_node value_node :
  nm ∈ scan_leaves root ->
  (forall c, decl_node = Some c -> c ∈ descendants_from root) ->
  (forall c, value_node = Some c -> c ∈ descendants_from root) ->
  symbol_below root sym ->
  symbol_below root (with_decl_value sym nm decl_node value_node).
Proof.
  intros Hnm Hd Hv (H1 & H2 & H3 & H4 & H5).
  destruct decl_node, value_node; unfold with_decl_value, symbol_below;
    simpl; (split; [done|]); split; try done; try (by intros d [= <-]);
    split; try done; try (by apply Hd); split; try done; by apply Hv.
Qed.

Lemma append_annotation_below root sym (node : TreeNode) :
  node ∈ descendants_from root ->
  symbol_below root sym ->
  symbol_below root (Symbol.append_annotation sym node).
Proof.
  intros Hnode (H1 & H2 & H3 & H4 & H5). repeat split; try done. simpl.
  apply Forall_app. split; [done|]. by constructor.
Qed.

(** The symbol that [insert] leaves under the name. *)
Lemma insert_case_result self scope nm typ decl_node value_node self' :
  insert_case self scope nm typ decl_node value_node self' ->
  exists sym',
    leaf_table_of self' scope !! text nm = Some sym'
    /\ (leaf_table_of self scope !! text nm = None
        /\ sym' = with_decl_value (Symbol.init (text nm) typ nm) nm
                    decl_node value_node
        \/ exists sym,
             leaf_table_of self scope !! text nm = Some sym
             /\ (sym' = with_decl_value (Symbol.set_type sym typ nm) nm
                          decl_node value_node
                 \/ sym' = with_decl_value sym nm decl_node value_node
                 \/ sym' = sym)).
Proof.
  intros Hcase.
  destruct Hcase as [Hl | sym Hl D | sym Hl D1 D2 | sym Hl D1 D2];
    rewrite ?leaf_table_of_insert_decl_value, ?leaf_table_of_append_issue,
      ?leaf_table_of_logged, ?lookup_insert_eq;
    eexists; (split; [done|]); eauto 8.
Qed.

Lemma insert_points_into root self scope nm typ decl_node value_node self' :
  Leaf nm ∈ descendants_from root ->
  (forall c, decl_node = Some c -> c ∈ descendants_from root) ->
  (forall c, value_node = Some c -> c ∈ descendants_from root) ->
  insert self (QName.mk scope (Some (Leaf nm))) typ decl_node value_node
  = Return self' ->
  points_into root self -> points_into root self'.
Proof.
  intros Hnm%leaf_in_descendants Hd Hv Hins [Hlog Hsyms].
  destruct (insert_cases self scope nm typ decl_node value_node)
    as (self'' & Hins' & Hcase).
  rewrite Hins in Hins'. injection Hins' as <-.
  pose proof (qnames_insert_case _ _ _ _ _ _ _ Hcase) as Hq.
  destruct (insert_case_result _ _ _ _ _ _ _ Hcase) as (new & Hnew & Hshape).
  destruct (insert_case_leaf_table _ _ _ _ _ _ _ Hcase)
    as [Hother (sym' & Hlt & _)].
  split.
  - intros q Hin. rewrite Hq in Hin.
    apply elem_of_app in Hin as [Hin|Hin]; [by apply Hlog|].
    apply list_elem_of_singleton in Hin as ->. by exists nm.
  - intros scope' name' sym Hl.
    destruct (decide (scope' = scope)) as [->|Hs];
      [|rewrite Hother in Hl by done; by eapply Hsyms].
    destruct (decide (name' = text nm)) as [->|Hn];
      [|rewrite Hlt, lookup_insert_ne in Hl by done; by eapply Hsyms].
    rewrite Hnew in Hl. injection Hl as <-.
    destruct Hshape as [[_ ->] | (sym & Hold & [-> | [-> | ->]])].
    + by apply with_decl_value_below, init_below.
    + apply with_decl_value_below; try done.
      apply set_type_below; [done|]. by eapply Hsyms.
    + apply with_decl_value_below; try done. by eapply Hsyms.
    + by eapply Hsyms.
Qed.

Lemma insert_annotation_points_into root self scope nm (node : TreeNode) self' :
  node ∈ descendants_from root ->
  is_Some (leaf_table_of self scope !! text nm) ->
  insert_annotation self (QName.mk scope (Some (Leaf nm))) node = Return self' ->
  points_into root self -> points_into root self'.
Proof.
  intros Hnode [sym Hsym] Hins [Hlog Hsyms].
  destruct (insert_annotation_leaf self scope nm node)
    as (self'' & Hret & _ & Hqnames & Hnew & Hframe).
  rewrite Hins in Hret. injection Hret as <-.
  rewrite Hsym in Hnew; simpl in Hnew. split.
  - intros q Hin. rewrite Hqnames in Hin. by apply Hlog.
  - intros scope' name' sym' Hl.
    destruct (decide (scope' = scope /\ name' = text nm)) as [[-> ->]|Hne].
    + rewrite Hnew in Hl. injection Hl as <-.
      apply append_annotation_below; [done|]. by eapply Hsyms.
    + rewrite Hframe in Hl by (apply not_and_l in Hne; tauto).
      by eapply Hsyms.
Qed.

(** X24: the analysis keeps references into the tree only.  Every qname of
    the log names a leaf of the tree analyzed; the defining and declaring
    tokens of every symbol are leaves of the tree, and its declaration
    node, its value node and its annotations are nodes of the tree.  So
    [def_name] of a symbol is a node of the tree. *)
Theorem analysis_points_into h root a :
  AntTreeAnalyzer_init h root = Return a ->
  points_into root (table a)
  /\ forall scope (name : string) sym,
       leaf_table_of (table a) scope !! name = Some sym ->
       def_name sym ∈ descendants_from root.
Proof.
  intros H.
  assert (Hp : points_into root (table a)).
  { eapply (analysis_preserves_on (fun d => d ∈ descendants_from root)
              (points_into root)); [| |done| |exact H].
    - intros self scope nm typ decl_node value_node self' Hnm Hd Hv Hins Hinv.
      eapply insert_points_into;
        [exact Hnm | exact Hd | exact Hv | exact Hins | exact Hinv].
    - intros self scope nm node self' _ Hnode Hsome Hins Hinv.
      eapply insert_annotation_points_into;
        [exact Hnode | exact Hsome | exact Hins | exact Hinv].
    - split; [by intros q ?%not_elem_of_nil|].
      intros scope name sym Hl. unfold leaf_table_of in Hl; simpl in Hl.
      rewrite lookup_empty in Hl; simpl in Hl. by rewrite lookup_empty in Hl. }
  split; [done|]. intros scope name sym Hl.
  destruct Hp as [_ Hsyms].
  destruct (Hsyms _ _ _ Hl) as (H1 & H2 & H3 & H4 & H5).
  unfold def_name. destruct (Symbol.decl_name sym) as [d|].
  - by apply leaf_in_descendants, H2.
  - destruct (Symbol.value_node sym) as [v|]; [by apply H4|].
    by apply leaf_in_descendants.
Qed.

Lemma analysis_points_into_witness :
  exists a,
    AntTreeAnalyzer_init (linked const_species_root) const_species_root = Return a
    /\ points_into const_species_root (table a)
    /\ forall scope (name : string) sym,
         leaf_table_of (table a) scope !! name = Some sym ->
         def_name sym ∈ descendants_from const_species_root.
Proof.
  eexists. split; [vm_compute; reflexivity|].
  apply (analysis_points_into (linked const_species_root) const_species_root).
  vm_compute; reflexivity.
Defined.

End References.

(** * Values and declarations *)

Section ValuesKept.

Import Scenarios.

Implicit Types (self table : SymbolTable) (scope : AbstractScope).
Implicit Types (nm : LeafNode) (typ : SymbolType.t) (sym : Symbol.t).

Lemma same_nodes_refl sym : same_nodes sym sym.
Proof. by repeat split. Qed.

Lemma same_nodes_trans sym1 sym2 sym3 :
  same_nodes sym1 sym2 -> same_nodes sym2 sym3 -> same_nodes sym1 sym3.
Proof.
  intros (A1 & A2 & A3 & A4) (B1 & B2 & B3 & B4).
  repeat split; congruence.
Qed.

Lemma insert_plain_keeps self scope nm typ self' scope' (name' : string) sym :
  insert self (QName.mk scope (Some (Leaf nm))) typ None None = Return self' ->
  keeps_nodes scope' name' sym self -> keeps_nodes scope' name' sym self'.
Proof.
  intros Hins (sym1 & Hl & Hsame).
  destruct (insert_cases self scope nm typ None None)
    as (self'' & Hins' & Hcase).
  rewrite Hins in Hins'. injection Hins' as <-.
  destruct (insert_case_result _ _ _ _ _ _ _ Hcase) as (new & Hnew & Hshape).
  destruct (insert_case_leaf_table _ _ _ _ _ _ _ Hcase)
    as [Hother (sym' & Hlt & _)].
  destruct (decide (scope' = scope)) as [->|Hs];
    [|exists sym1; by rewrite Hother].
  destruct (decide (name' = text nm)) as [->|Hn];
    [|exists sym1; by rewrite Hlt, lookup_insert_ne].
  exists new. split; [done|].
  destruct Hshape as [[Hnone _] | (old & Hold & Hshape)]; [congruence|].
  rewrite Hl in Hold. injection Hold as <-.
  eapply same_nodes_trans; [exact Hsame|].
  destruct Hshape as [-> | [-> | ->]]; by repeat split.
Qed.

Lemma handle_arith_expr_keeps table scope (expr : option TreeNode) table'
    scope' (name' : string) sym :
  handle_arith_expr table scope expr = Return table' ->
  keeps_nodes scope' name' sym table -> keeps_nodes scope' name' sym table'.
Proof.
  intros H Hk. unfold handle_arith_expr in H.
  destruct expr as [[leaf | id cls range children]|].
  - destruct (is_Name leaf); [by eapply insert_plain_keeps | by simplify_eq].
  - eapply (for_each_preserves (keeps_nodes scope' name' sym));
      [|exact H | done].
    intros s leaf s' _ Hbody Hs. simpl in Hbody.
    destruct (is_Name leaf); [by eapply insert_plain_keeps | by simplify_eq].
  - by simplify_eq.
Qed.

(** X25: the value of an assignment.  When [handle_assignment] returns, the
    assigned name is a leaf and has a symbol.  If the name had no symbol, or
    one whose type is comparable with [Parameter], the value node of the
    symbol is the assignment, also when the name occurs in its own value;
    if the old type is unrelated to [Parameter], the nodes of the symbol
    are those it had. *)
Theorem handle_assignment_value table scope (assignment : TreeNode) table' :
  handle_assignment table scope assignment = Return table' ->
  exists nm sym,
    get_name assignment = Return (Some (Leaf nm))
    /\ leaf_table_of table' scope !! text nm = Some sym
    /\ match leaf_table_of table scope !! text nm with
       | None => Symbol.value_node sym = Some assignment
       | Some old =>
           if SymbolType.derives_from SymbolType.Parameter_ (Symbol.type old)
              || SymbolType.derives_from (Symbol.type old) SymbolType.Parameter_
           then Symbol.value_node sym = Some assignment
                /\ Symbol.decl_node sym = Symbol.decl_node old
           else same_nodes old sym
       end.
Proof.
  intros H. unfold handle_assignment in H.
  apply bind_Return_inv in H as (name & Hname & H).
  apply bind_Return_inv in H as (table1 & Htable1 & H).
  apply bind_Return_inv in H as (value & Hvalue & H).
  destruct (insert_leaf_only _ _ _ _ _ _ Htable1) as [nm Hq].
  simpl in Hq. subst name. exists nm.
  destruct (insert_cases table scope nm SymbolType.Parameter_ None
              (Some assignment)) as (t & Hins & Hcase).
  rewrite Htable1 in Hins. injection Hins as <-.
  destruct (insert_case_result _ _ _ _ _ _ _ Hcase) as (new & Hnew & _).
  assert (Hk : keeps_nodes scope (text nm) new table1)
    by (exists new; split; [done | apply same_nodes_refl]).
  destruct (handle_arith_expr_keeps _ _ _ _ _ _ _ H Hk)
    as (sym & Hsym & Hv & Hd & _).
  exists sym. split; [done|]. split; [done|].
  rewrite Hv, Hd.
  destruct Hcase as [Hl | old Hl D | old Hl D1 D2 | old Hl D1 D2];
    rewrite ?leaf_table_of_insert_decl_value, ?leaf_table_of_append_issue,
      ?leaf_table_of_logged, ?lookup_insert_eq, ?Hl in Hnew;
    injection Hnew as <-; rewrite Hl, ?D, ?D1, ?D2; simpl; try done.
  destruct (handle_arith_expr_keeps _ _ _ _ _ _ _ H Hk)
    as (sym' & Hsym' & Hsame).
  rewrite Hsym in Hsym'. by injection Hsym' as <-.
Qed.

Lemma handle_assignment_value_witness :
  exists table',
    handle_assignment SymbolTable_init BaseScope assignment = Return table'
    /\ exists nm sym,
         get_name assignment = Return (Some (Leaf nm))
         /\ leaf_table_of table' BaseScope !! text nm = Some sym
         /\ match leaf_table_of SymbolTable_init BaseScope !! text nm with
            | None => Symbol.value_node sym = Some assignment
            | Some old =>
                if SymbolType.derives_from SymbolType.Parameter_
                     (Symbol.type old)
                   || SymbolType.derives_from (Symbol.type old)
                        SymbolType.Parameter_
                then Symbol.value_node sym = Some assignment
                     /\ Symbol.decl_node sym = Symbol.decl_node old
                else same_nodes old sym
            end.
Proof.
  eexists. split; [vm_compute; reflexivity|].
  apply (handle_assignment_value SymbolTable_init BaseScope assignment).
  vm_compute; reflexivity.
Defined.

End ValuesKept.
